(** * nussl: peak picking, DUET masks, smoothing and audio buffers

    A shallow embedding of the numeric kernels of the nussl source
    separation code (DUET.py, Repet.py, REPET_sim.py, AudioSignal.py).

    Arrays of floats are lists of exact rationals ([Q]); a 2-D array is a
    list of rows.  Arithmetic is exact: the rounding of binary64 is not
    part of the embedding.  The embedding follows NumPy's indexing rules: slices
    with negative bounds wrap around, [np.nonzero] of a 2-D array gives one
    index array per axis, [*] on [np.matrix] values is the matrix product,
    and a slice or transpose is a view on the array it was taken from. *)

From Stdlib Require Import ZArith QArith Qround Qabs Lia Lqa.
From Stdlib Require Import Sorting.Sorted.
From stdpp Require Import base list sorting gmap.

Open Scope Q_scope.

(** ** Errors *)

(** The exceptions the code can raise, by their conceptual names.  The
    code raises [ValueError], [Exception] or [IndexError]; the comment of
    each raising definition says which. *)
Inductive error : Type :=
  | InsufficientPeaks
  | InvalidChannelCount
  | ChannelMismatch
  | RateMismatch
  | ShapeMismatch
  | IndexOutOfBounds
  | InvalidRange
  | UnboundArray.

Inductive result (A : Type) : Type :=
  | Ok (a : A)
  | Err (e : error).
Arguments Ok {A} a.
Arguments Err {A} e.

#[global] Instance result_ret : MRet result := fun A a => Ok a.
#[global] Instance result_bind : MBind result := fun A B f r =>
  match r with
  | Ok a => f a
  | Err e => Err e
  end.

(** ** NumPy primitives *)

Module Np.

Abbreviation vector := (list Q).
Abbreviation matrix := (list (list Q)).

Definition Qltb (x y : Q) : bool := negb (Qle_bool y x).

(** [np.sum] *)
Definition sum (v : vector) : Q := foldr Qplus 0 v.

(** Flattening in row-major order, as [argmax], [sum] and [max] see a
    2-D array. *)
Definition flatten (m : matrix) : vector := concat m.

Definition nrows (m : matrix) : nat := length m.
Definition ncols (m : matrix) : nat := length (hd [] m).

(** All rows have the same length [c]. *)
Definition rect (c : nat) (m : matrix) : Prop :=
  Forall (fun row => length row = c) m.

Definition mget (m : matrix) (i j : nat) : Q := nth j (nth i m []) 0.

(** A bound [i] of a slice on an axis of length [n]: a negative bound
    counts from the end, and the result is clipped to [0..n]. *)
Definition slice_bound (n : nat) (i : Z) : Z :=
  if (i <? 0)%Z then Z.max (i + Z.of_nat n) 0 else Z.min i (Z.of_nat n).

(** Is position [i] selected by the slice [a:b] on an axis of length [n]? *)
Definition in_slice (n : nat) (a b : Z) (i : nat) : bool :=
  (slice_bound n a <=? Z.of_nat i)%Z && (Z.of_nat i <? slice_bound n b)%Z.

(** [v[a:b] = 0] *)
Definition zero_slice (a b : Z) (v : vector) : vector :=
  imap (fun i x => if in_slice (length v) a b i then 0 else x) v.

(** [m[a:b, c:d] = 0] *)
Definition zero_slice2 (a b c d : Z) (m : matrix) : matrix :=
  imap (fun i row => if in_slice (length m) a b i then zero_slice c d row else row) m.

(** [np.argmax]: the first position of the largest entry. *)
Fixpoint argmax_from (best : Q) (besti i : nat) (v : vector) : nat :=
  match v with
  | [] => besti
  | x :: v' =>
      if Qltb best x then argmax_from x i (S i) v'
      else argmax_from best besti (S i) v'
  end.

Definition argmax (v : vector) : nat :=
  match v with
  | [] => 0%nat
  | x :: v' => argmax_from x 0 1 v'
  end.

(** [np.max] of a non-empty array ([d] is the value for the empty one,
    where NumPy raises). *)
Definition array_max (d : Q) (v : vector) : Q :=
  match v with
  | [] => d
  | x :: v' => fold_left (fun m y => if Qltb m y then y else m) v' x
  end.

(** Number of non-zero entries. *)
Definition count_nonzero (v : vector) : nat :=
  length (filter (fun x => negb (Qeq_bool x 0)) v).

(** [np.size(np.nonzero(a))] for a 2-D array or matrix [a]:
    [np.nonzero] returns a tuple of two index arrays (rows, columns),
    each with one entry per non-zero element; [np.size] of that tuple
    is the size of the 2 x nnz array built from it. *)
Definition size_nonzero2 (a : matrix) : nat :=
  (2 * count_nonzero (flatten a))%nat.

(** [data >= thr] as a 0/1 array. *)
Definition ge_mask (thr : Q) (v : vector) : vector :=
  map (fun x => if Qle_bool thr x then 1 else 0) v.

(** [np.multiply(a, b)] on vectors of the same length. *)
Definition multiply (a b : vector) : vector := zip_with Qmult a b.

(** [np.dot] of two vectors. *)
Definition dot (a b : vector) : Q := sum (zip_with Qmult a b).

(** Column [j] of a matrix. *)
Definition column (m : matrix) (j : nat) : vector :=
  map (fun row => nth j row 0) m.

(** [m.T] as a fresh value (the view is modelled by [ndarray] below). *)
Definition transpose (m : matrix) : matrix :=
  map (column m) (seq 0 (ncols m)).

(** [np.dot(a, b)] for 2-D arrays, and [a * b] for [np.matrix] values:
    an (r x c) by (c x k) product; the inner dimensions must agree. *)
Definition matmul (a b : matrix) : result matrix :=
  if Nat.eqb (ncols a) (nrows b) then
    Ok (map (fun row => map (fun j => dot row (column b j)) (seq 0 (ncols b))) a)
  else Err ShapeMismatch.

End Np.

Import Np.

(** ** Peak picking (DUET.py [find_peaks], Repet.py [Repet.FindPeaks]) *)

(** The loop [while i < max_num: ...] of [find_peaks]; [fuel] is
    [max_num - i].  Each turn stores the argmax in [Pi[0, i]], zeroes
    [data[0, p - min_dist - 1 : p + min_dist + 1]] and leaves the loop when
    the data sum to zero. *)
Fixpoint find_peaks_loop (fuel i : nat) (min_dist : Z) (data : vector)
    (Pi : list Z) : list Z :=
  match fuel with
  | O => Pi
  | S fuel' =>
      let p := Z.of_nat (argmax data) in
      let Pi' := <[i := p]> Pi in
      let data' := zero_slice (p - min_dist - 1) (p + min_dist + 1) data in
      if Qeq_bool (sum data') 0 then Pi'
      else find_peaks_loop fuel' (S i) min_dist data' Pi'
  end.

(** [find_peaks(data, min_thr, min_dist, max_num)].  [data] is the row
    vector; [np.mat(data)] makes it a 1 x L matrix, which is what
    [np.nonzero] sees.  [min_dist = None] is the default of a quarter of
    the length.  The [ValueError] is [InsufficientPeaks]. *)
Definition find_peaks (data : vector) (min_thr : Q) (min_dist : option Z)
    (max_num : nat) : result (list Z) :=
  let lenData := length data in
  let min_dist := default (Z.of_nat lenData / 4)%Z min_dist in
  let Pi := replicate max_num 0%Z in
  let data := multiply data (ge_mask min_thr data) in
  if (size_nonzero2 [data] <? max_num)%nat then Err InsufficientPeaks
  else Ok (merge_sort Z.le (find_peaks_loop max_num 0 min_dist data Pi)).

(** Entries of [v] that reach the threshold. *)
Definition count_reaching (thr : Q) (v : vector) : nat :=
  length (filter (fun x => Qle_bool thr x) v).


(** [find_peaks2]: the loop.  [Pi[:, i]] is kept as the pair
    (row, column); [np.unravel_index] splits the flat row-major argmax. *)
Fixpoint find_peaks2_loop (fuel i : nat) (Rmd Cmd : Z) (data : matrix)
    (Pi : list (Z * Z)) : list (Z * Z) :=
  match fuel with
  | O => Pi
  | S fuel' =>
      let flat := argmax (flatten data) in
      let r := Z.of_nat (flat / ncols data) in
      let c := Z.of_nat (flat mod ncols data) in
      let Pi' := <[i := (r, c)]> Pi in
      let data' :=
        zero_slice2 (r - Rmd - 1) (r + Rmd + 1) (c - Cmd - 1) (c + Cmd + 1) data in
      if Qeq_bool (sum (flatten data')) 0 then Pi'
      else find_peaks2_loop fuel' (S i) Rmd Cmd data' Pi'
  end.

(** [find_peaks2(data, min_thr, min_dist, max_num)].  [data] is made an
    [np.matrix], so [data * (data >= min_thr)] is the matrix product of
    the data with the 0/1 threshold mask (it raises unless the data are
    square); the 1-D [find_peaks] uses [np.multiply] instead. *)
Definition find_peaks2 (data : matrix) (min_thr : Q) (min_dist : option (Z * Z))
    (max_num : nat) : result (list (Z * Z)) :=
  let Rdata := nrows data in
  let Cdata := ncols data in
  let '(Rmd, Cmd) :=
    default ((Z.of_nat Rdata / 4)%Z, (Z.of_nat Cdata / 4)%Z) min_dist in
  let Pi := replicate max_num (0%Z, 0%Z) in
  data ← matmul data (map (ge_mask min_thr) data);
  if (size_nonzero2 data <? max_num)%nat then Err InsufficientPeaks
  else Ok (find_peaks2_loop max_num 0 Rmd Cmd data Pi).

(** The entry-wise thresholding the docstring of [find_peaks2] describes
    ("keep only the values that pass the threshold"); used to compare. *)
Definition threshold2 (min_thr : Q) (data : matrix) : matrix :=
  map (fun row => multiply row (ge_mask min_thr row)) data.

Definition chebyshev (p q : Z * Z) : Z :=
  Z.max (Z.abs (p.1 - q.1)) (Z.abs (p.2 - q.2)).

(** ** Smoothing (DUET.py [twoDsmooth]) *)

(** [x * np.ones((r, c))] *)
Definition full (r c : nat) (x : Q) : matrix := replicate r (replicate c x).

(** [np.hstack([a, b, c])] of three blocks with the same number of rows. *)
Definition hstack3 (a b c : matrix) : matrix :=
  zip_with app a (zip_with app b c).

(** [signal.convolve2d(K, np.ones((2, 1))) / 2]: the full convolution
    adds each row to the one above it, giving one more row. *)
Definition convolve_ones21_half (K : matrix) : matrix :=
  map (fun i =>
         map (fun j =>
                (mget K i j + (if (i =? 0)%nat then 0 else mget K (i - 1) j)) / 2)
             (seq 0 (ncols K)))
      (seq 0 (S (nrows K))).

(** [signal.convolve2d(K, np.ones((1, 2))) / 2]: one more column. *)
Definition convolve_ones12_half (K : matrix) : matrix :=
  map (fun row =>
         map (fun j =>
                (nth j row 0 + (if (j =? 0)%nat then 0 else nth (j - 1) row 0)) / 2)
             (seq 0 (S (ncols K))))
      K.

(** [K[::-1, ::-1]] *)
Definition flip2 (K : matrix) : matrix := rev (map (@rev Q) K).

(** [signal.convolve2d(A, W, mode='valid')] for a kernel [W] no larger
    than [A]: entry (i, j) is the sum over (a, b) of
    [A[i+a, j+b] * W[kr-1-a, kc-1-b]]. *)
Definition convolve2d_valid (A W : matrix) : matrix :=
  let kr := nrows W in
  let kc := ncols W in
  map (fun i =>
         map (fun j =>
                sum (flat_map
                       (fun a =>
                          map (fun b =>
                                 mget A (i + a) (j + b) * mget W (kr - 1 - a) (kc - 1 - b))
                              (seq 0 kc))
                       (seq 0 kr)))
             (seq 0 (ncols A + 1 - kc)))
      (seq 0 (nrows A + 1 - kr)).

(** The augmented matrix of [twoDsmooth]: [copyrow] rows are added above
    and below, [copycol] columns on either side.  The nine blocks are
    those of the source, in its order; the lower left block is filled
    with [Mat[-1, 1]].  Indexing an empty matrix, or column 1 of a matrix
    with one column, raises [IndexError]. *)
Definition augMat (Mat : matrix) (copyrow copycol : nat) : result matrix :=
  let R := nrows Mat in
  let C := ncols Mat in
  if (R =? 0)%nat || (C <? 2)%nat then Err IndexOutOfBounds
  else
    let top :=
      hstack3 (full copyrow copycol (mget Mat 0 0))
              (replicate copyrow (nth 0 Mat []))
              (full copyrow copycol (mget Mat 0 (C - 1))) in
    let mid :=
      hstack3 (map (fun row => replicate copycol (nth 0 row 0)) Mat)
              Mat
              (map (fun row => replicate copycol (nth (C - 1) row 0)) Mat) in
    let bot :=
      hstack3 (full copyrow copycol (mget Mat (R - 1) 1))
              (replicate copyrow (nth (R - 1) Mat []))
              (full copyrow copycol (mget Mat (R - 1) (C - 1))) in
    Ok (top ++ mid ++ bot).

(** The averaging matrix [Kmat] for a scalar [Kernel], made odd-sized. *)
Definition averaging_kernel (Kernel : positive) : matrix :=
  let k := Pos.to_nat Kernel in
  let Kmat := full k k (1 / inject_Z (Z.pos Kernel) ^ 2) in
  let Kmat := if (k mod 2 =? 0)%nat then convolve_ones21_half Kmat else Kmat in
  if (k mod 2 =? 0)%nat then convolve_ones12_half Kmat else Kmat.

(** [twoDsmooth(Mat, Kernel)] for a scalar [Kernel] (the form DUET uses:
    [twoDsmooth(hist, 3)]); a kernel passed as a matrix is not modelled.
    The sums and products are exact, where the code rounds each of
    them: the shape, the errors and the signs are those of the code,
    the values are the code's up to rounding. *)
Definition twoDsmooth (Mat : matrix) (Kernel : positive) : result matrix :=
  let Kmat := averaging_kernel Kernel in
  let krow := nrows Kmat in
  let kcol := ncols Kmat in
  let copyrow := (krow / 2)%nat in
  let copycol := (kcol / 2)%nat in
  augMat ← augMat Mat copyrow copycol;
  Ok (convolve2d_valid augMat (flip2 Kmat)).

(** ** The DUET histogram (DUET.py [duet], lines 104-131) *)

(** [np.linspace(lo, hi, n + 1)]: the bin edges. *)
Definition linspace (lo hi : Q) (n : nat) : vector :=
  map (fun i => lo + inject_Z (Z.of_nat i) * ((hi - lo) / inject_Z (Z.of_nat n)))
      (seq 0 (S n)).

(** The bin of [x] among [n] equal bins on [lo, hi]: bin [i] holds
    [edges[i] <= x < edges[i+1]], the last one also holds [hi]; values
    outside the range are dropped. *)
Definition bin_of (lo hi : Q) (n : nat) (x : Q) : option nat :=
  if Qltb x lo || Qltb hi x then None
  else if Qeq_bool x hi then Some (n - 1)%nat
  else Some (Z.to_nat (Qfloor ((x - lo) * inject_Z (Z.of_nat n) / (hi - lo)))).

(** [H[i, j] += w] *)
Definition add_at (H : matrix) (i j : nat) (w : Q) : matrix :=
  alter (alter (Qplus w) j) i H.

(** An empty range is widened by one half on either side. *)
Definition widen (r : Q * Q) : Q * Q :=
  if Qeq_bool r.1 r.2 then (r.1 - 0.5, r.2 + 0.5) else r.

(** One sample: its weight goes to the bin of its coordinates, if both
    are in range. *)
Definition accumulate (nx ny : nat) (xr yr : Q * Q) (H : matrix)
    (sample : Q * Q * Q) : matrix :=
  let '(x, y, w) := sample in
  match bin_of xr.1 xr.2 nx x, bin_of yr.1 yr.2 ny y with
  | Some i, Some j => add_at H i j w
  | _, _ => H
  end.

(** [np.histogram2d(xs, ys, bins=[nx, ny], range=[xr, yr], weights=ws)]:
    the weighted counts and the two edge vectors.  A bin count of zero
    and a range whose maximum is below its minimum raise [ValueError]. *)
Definition histogram2d (xs ys : vector) (nx ny : nat) (xr yr : Q * Q)
    (ws : vector) : result (matrix * vector * vector) :=
  if (nx =? 0)%nat || (ny =? 0)%nat then Err InvalidRange
  else if Qltb xr.2 xr.1 || Qltb yr.2 yr.1 then Err InvalidRange
  else
    let xr := widen xr in
    let yr := widen yr in
    let H := foldl (accumulate nx ny xr yr) (full nx ny 0) (zip (zip xs ys) ws) in
    Ok (H, linspace xr.1 xr.2 nx, linspace yr.1 yr.2 ny).

(** [hist / hist.max()].  When the maximum is zero NumPy raises nothing:
    the quotient holds NaN (0/0) where the histogram is zero and the
    negative infinity where it is negative, and the code goes on.
    [NotFinite] is such a quotient, which holds no number. *)
Inductive outcome (A : Type) : Type :=
  | Finite (a : A)
  | NotFinite.
Arguments Finite {A} a.
Arguments NotFinite {A}.

Definition normalize_max (hist : matrix) : outcome matrix :=
  let m := array_max 0 (flatten hist) in
  if Qeq_bool m 0 then NotFinite
  else Finite (map (map (fun x => x / m)) hist).

(** Attenuation and delay ranges and bin counts ([adparam]). *)
Record adparam : Type := {
  amin : Q; amax : Q; anum : nat;
  dmin : Q; dmax : Q; dnum : nat
}.

Definition mzip_with {A B D} (f : A -> B -> D) (a : list (list A))
    (b : list (list B)) : list (list D) :=
  zip_with (zip_with f) a b.

(** The three histograms of the build step, in the order the code makes
    them: normalized, smoothed, normalized again. *)
Record histograms : Type := {
  hist_normalized : matrix;
  hist_smoothed : matrix;
  hist_final : matrix;
  agrid : vector;
  dgrid : vector
}.

(** Line 107: [tfw = (np.abs(X1) * np.abs(X2)) ** p * np.abs(wmat) ** q]
    with [p = 1] and [q = 0]; [A1], [A2] are [np.abs(X1)], [np.abs(X2)]. *)
Definition duet_tfw (A1 A2 wmat : matrix) : matrix :=
  let p := 1%Z in
  let q := 0%Z in
  mzip_with (fun m w => m ^ p * Qabs w ^ q) (mzip_with Qmult A1 A2) wmat.

(** Lines 110-112: the points whose estimates are strictly in bounds. *)
Definition duet_premask (ad : adparam) (alpha delta : matrix) : list (list bool) :=
  let a_premask := map (map (fun a => Qltb (amin ad) a && Qltb a (amax ad))) alpha in
  let d_premask := map (map (fun d => Qltb (dmin ad) d && Qltb d (dmax ad))) delta in
  mzip_with andb a_premask d_premask.

(** [m[ad_nzind]]: the entries at the positions the mask keeps, in
    row-major order. *)
Definition select {A} (mask : list bool) (m : list A) : list A :=
  omap (fun '(keep, x) => if keep : bool then Some x else None) (zip mask m).

(** Lines 123-131: normalize, smooth over 3 x 3 neighbours, normalize.
    After a first division by zero [twoDsmooth] is still called:
    whether it raises depends on the shape of its argument alone, which
    is the shape of [H]; the NaN it is given is summed into the
    neighbouring entries, the maximum of an array that holds NaN is
    NaN, and the second quotient holds nothing but NaN. *)
Definition duet_normalize_smooth (H : matrix) (agrid dgrid : vector)
    : result (outcome histograms) :=
  match normalize_max H with
  | NotFinite => _ ← twoDsmooth H 3; Ok NotFinite
  | Finite hist1 =>
      hist2 ← twoDsmooth hist1 3;
      match normalize_max hist2 with
      | NotFinite => Ok NotFinite
      | Finite hist3 =>
          Ok (Finite {| hist_normalized := hist1; hist_smoothed := hist2;
                        hist_final := hist3; agrid := agrid; dgrid := dgrid |})
      end
  end.

(** Lines 104-121 of [duet]: the weighted histogram [H] of the in-bounds
    points, with its edge vectors.  [alpha], [delta], [wmat] are the
    attenuation, delay and frequency maps. *)
Definition duet_accumulate (A1 A2 wmat alpha delta : matrix) (ad : adparam)
    : result (matrix * vector * vector) :=
  let tfw := duet_tfw A1 A2 wmat in
  let ad_premask := concat (duet_premask ad alpha delta) in
  let alpha_vec := select ad_premask (flatten alpha) in
  let delta_vec := select ad_premask (flatten delta) in
  let tfw_vec := select ad_premask (flatten tfw) in
  histogram2d alpha_vec delta_vec (anum ad) (dnum ad)
              (amin ad, amax ad) (dmin ad, dmax ad) tfw_vec.

(** Lines 104-131 of [duet]: the histogram and its normalizations.  The
    outer [result] carries exceptions, the inner [outcome] the NaN case
    of the two divisions. *)
Definition duet_histogram (A1 A2 wmat alpha delta : matrix) (ad : adparam)
    : result (outcome histograms) :=
  '(H, agrid, dgrid) ← duet_accumulate A1 A2 wmat alpha delta ad;
  duet_normalize_smooth H agrid dgrid.

(** ** Peak picking after a division by zero (DUET.py [find_peaks2]) *)

(** An array that may hold NaN: [None] is NaN. *)
Abbreviation nan_vector := (list (option Q)).
Abbreviation nan_matrix := (list (list (option Q))).

(** [data >= thr] as a 0/1 array: a comparison with NaN is false. *)
Definition nan_ge_mask (thr : Q) (v : nan_vector) : vector :=
  map (fun x => match x with
                | Some q => if Qle_bool thr q then 1 else 0
                | None => 0
                end) v.

(** [np.dot] of a vector that may hold NaN with a vector of numbers: a
    product with NaN is NaN, also NaN * 0, and so is a sum with a NaN
    term. *)
Definition nan_dot (a : nan_vector) (b : vector) : option Q :=
  match mapM id a with
  | Some a => Some (dot a b)
  | None => None
  end.

(** [a * b] for [np.matrix] values, [a] holding NaN; the inner
    dimensions must agree. *)
Definition nan_matmul (a : nan_matrix) (b : matrix) : result nan_matrix :=
  if Nat.eqb (length (hd [] a)) (nrows b) then
    Ok (map (fun row => map (fun j => nan_dot row (column b j)) (seq 0 (ncols b))) a)
  else Err ShapeMismatch.

(** [np.size(np.nonzero(a))] for a matrix [a]: NaN is not zero. *)
Definition nan_nonzero (x : option Q) : bool :=
  match x with
  | Some q => negb (Qeq_bool q 0)
  | None => true
  end.

Definition nan_size_nonzero2 (a : nan_matrix) : nat :=
  (2 * length (filter nan_nonzero (concat a)))%nat.

(** [np.argmax] on an array with NaN: the first NaN, if there is one. *)
Fixpoint first_nan (i : nat) (v : nan_vector) : option nat :=
  match v with
  | [] => None
  | None :: _ => Some i
  | Some _ :: v' => first_nan (S i) v'
  end.

Definition nan_argmax (v : nan_vector) : nat :=
  match first_nan 0 v with
  | Some i => i
  | None => argmax (map (default 0) v)
  end.

(** [m[a:b, c:d] = 0] *)
Definition nan_zero_slice2 (a b c d : Z) (m : nan_matrix) : nan_matrix :=
  imap (fun i row =>
          if in_slice (length m) a b i
          then imap (fun j x => if in_slice (length row) c d j then Some 0 else x) row
          else row) m.

(** [np.sum(data) == 0]: the sum of data that hold NaN is NaN, which
    equals nothing. *)
Definition nan_sum_is_zero (m : nan_matrix) : bool :=
  match mapM id (concat m) with
  | Some v => Qeq_bool (sum v) 0
  | None => false
  end.

(** The loop of [find_peaks2] on data that may hold NaN. *)
Fixpoint find_peaks2_nan_loop (fuel i : nat) (Rmd Cmd : Z) (data : nan_matrix)
    (Pi : list (Z * Z)) : list (Z * Z) :=
  match fuel with
  | O => Pi
  | S fuel' =>
      let flat := nan_argmax (concat data) in
      let r := Z.of_nat (flat / length (hd [] data)) in
      let c := Z.of_nat (flat mod length (hd [] data)) in
      let Pi' := <[i := (r, c)]> Pi in
      let data' :=
        nan_zero_slice2 (r - Rmd - 1) (r + Rmd + 1) (c - Cmd - 1) (c + Cmd + 1) data in
      if nan_sum_is_zero data' then Pi'
      else find_peaks2_nan_loop fuel' (S i) Rmd Cmd data' Pi'
  end.

(** [find_peaks2(data, min_thr, min_dist, max_num)] on data that may
    hold NaN: the code of [find_peaks2] above, line by line. *)
Definition find_peaks2_nan (data : nan_matrix) (min_thr : Q)
    (min_dist : option (Z * Z)) (max_num : nat) : result (list (Z * Z)) :=
  let Rdata := length data in
  let Cdata := length (hd [] data) in
  let '(Rmd, Cmd) :=
    default ((Z.of_nat Rdata / 4)%Z, (Z.of_nat Cdata / 4)%Z) min_dist in
  let Pi := replicate max_num (0%Z, 0%Z) in
  data ← nan_matmul data (map (nan_ge_mask min_thr) data);
  if (nan_size_nonzero2 data <? max_num)%nat then Err InsufficientPeaks
  else Ok (find_peaks2_nan_loop max_num 0 Rmd Cmd data Pi).

(** The histogram [duet] hands to [find_peaks2] after a division by
    zero, for [r] attenuation and [c] delay bins.  After the first
    division every entry is NaN (see [duet_normalize_smooth]).  After
    the second one an entry is NaN or the negative infinity; under
    [find_peaks2] the two behave alike (an infinity is below the
    threshold as well, and its product with the zero of the mask is
    NaN), so that the array of NaN stands for both. *)
Definition nan_histogram (r c : nat) : nan_matrix := replicate r (replicate c None).

(** ** The DUET masks (DUET.py [duet], lines 170-185) *)

(** [bestsofar] starts at [np.inf]: [None] is that infinity. *)
Definition lt_best (s : Q) (b : option Q) : bool :=
  match b with
  | None => true
  | Some b => Qltb s b
  end.

(** One turn of the loop over the sources: [mask = score < bestsofar],
    [bestind[mask] = i], [bestsofar[mask] = score[mask]]. *)
Definition duet_best_step (st : list (list nat) * list (list (option Q)))
    (i : nat) (score : matrix) : list (list nat) * list (list (option Q)) :=
  let '(bestind, bestsofar) := st in
  let mask := mzip_with lt_best score bestsofar in
  (mzip_with (fun (m : bool) old => if m then i else old) mask bestind,
   mzip_with (fun '(m, s) old => if m : bool then Some s else old)
             (mzip_with pair mask score) bestsofar).

Fixpoint duet_best_loop (i : nat) (scores : list matrix)
    (st : list (list nat) * list (list (option Q)))
    : list (list nat) * list (list (option Q)) :=
  match scores with
  | [] => st
  | score :: rest => duet_best_loop (S i) rest (duet_best_step st i score)
  end.

(** [bestind] after [for i in range(0, N)]; [scores] holds the [N] score
    arrays, each of shape (Lf - 1) x Lt. *)
Definition duet_bestind (scores : list matrix) (Lf1 Lt : nat) : list (list nat) :=
  (duet_best_loop 0 scores
     (replicate Lf1 (replicate Lt 0%nat), replicate Lf1 (replicate Lt None))).1.

(** [mask = (bestind == i)] *)
Definition source_mask (bestind : list (list nat)) (i : nat) : list (list bool) :=
  map (map (fun b => Nat.eqb b i)) bestind.


(** ** The DUET estimator (DUET.py [duet]) *)

Inductive WindowType : Type := Rectangular | Hamming | Hanning | Blackman.

(** Spectrogram parameters ([sparam]). *)
Record sparam : Type := {
  winlen : nat; wintype : WindowType; overlap : nat; numfreq : nat; sampfreq : Z
}.

(** The user vector [Pr = [thr, a_mindist, d_mindist, N]]. *)
Record Pr : Type := {
  thr : Q; a_mindist : Z; d_mindist : Z; num_sources : nat
}.

(** Row [n] of the two-row mixture, [x[n, :]].  The [IndexError] NumPy
    raises when the mixture has no such row is the channel-count failure
    of the estimator. *)
Definition channel (x : matrix) (n : nat) : result vector :=
  match x !! n with
  | Some row => Ok row
  | None => Err InvalidChannelCount
  end.

(** [edges[p]] for an index taken from the peak array. *)
Definition take_edge (edges : vector) (p : Z) : result Q :=
  match edges !! Z.to_nat p with
  | Some e => if (p <? 0)%Z then Err IndexOutOfBounds else Ok e
  | None => Err IndexOutOfBounds
  end.

Section Duet.

(** Complex floats and the kernels on them are kept abstract:
    [FftUtils.f_stft] and [f_istft] are not part of the sources, and
    the complex logarithm and exponential have no rational model.
    Spectrograms are plain arrays, on which [*] is entry-wise. *)
Context {C : Type}.

(** [f_stft(x, L, win, ovp, fs, nfft, 0)]: spectrogram, frequency
    vector and time vector (the power spectrogram is not used). *)
Variable f_stft : vector -> sparam -> list (list C) * vector * vector.
(** [f_istft(Xm, L, win, ovp, fs)] *)
Variable f_istft : list (list C) -> sparam -> vector.
(** [np.abs] *)
Variable Cabs : C -> Q.
(** Lines 99-102 at one bin: [(alpha, delta)] from [X1], [X2], [wmat]. *)
Variable atn_delay : C -> C -> Q -> Q * Q.
(** Line 174 at one bin, from [atnpeak[i]], [deltapeak[i]], [wmat],
    [X1], [X2]. *)
Variable ml_score : Q -> Q -> Q -> C -> C -> Q.
(** Line 184 at one bin, before masking. *)
Variable demix : Q -> Q -> Q -> C -> C -> C.
Variable Czero : C.
Variable sqrt : Q -> Q.
Variable two_pi : Q.

Definition mzip3 {A B D E} (f : A -> B -> D -> E) (a : list (list A))
    (b : list (list B)) (d : list (list D)) : list (list E) :=
  mzip_with (fun '(x, y) z => f x y z) (mzip_with pair a b) d.

(** Lines 85-95: the two spectrograms without their DC row, the
    frequency matrix, and the lengths of the frequency and time axes. *)
Definition duet_spectrograms (x : matrix) (sp : sparam)
    : result (list (list C) * list (list C) * matrix * nat * nat) :=
  x0 ← channel x 0;
  let '(X1, F, T) := f_stft x0 sp in
  x1 ← channel x 1;
  let '(X2, F, T) := f_stft x1 sp in
  let X1 := tail X1 in
  let X2 := tail X2 in
  let Lf := length F in
  let Lt := length T in
  let wmat :=
    map (fun f => replicate Lt (f * (two_pi / inject_Z (sampfreq sp)))) (tail F) in
  Ok (X1, X2, wmat, Lf, Lt).

(** Lines 179-188: the masked, demixed spectrogram of source [i] under
    a zero DC row, back in the time domain, cut to [Lx] samples. *)
Definition duet_source (sp : sparam) (X1 X2 : list (list C)) (wmat : matrix)
    (bestind : list (list nat)) (Lt Lx : nat) (i : nat) (a d : Q)
    : result vector :=
  let mask := source_mask bestind i in
  let Xm :=
    replicate Lt Czero ::
    mzip_with (fun c (m : bool) => if m then c else Czero)
              (mzip3 (demix a d) wmat X1 X2) mask in
  let xi := f_istft Xm sp in
  if (length xi <? Lx)%nat then Err ShapeMismatch else Ok (take Lx xi).

(** Lines 156-193: the peaks of the histogram, the attenuation and
    delay at the peaks, the masks and the separated sources.  [hist] is
    the outcome of the build step, [H] the accumulated histogram, whose
    shape every later histogram has. *)
Definition duet_separate (x : matrix) (sp : sparam) (pr : Pr)
    (X1 X2 : list (list C)) (wmat : matrix) (Lf Lt : nat)
    (H : matrix) (agrid dgrid : vector) (hist : outcome histograms)
    : result (list vector * list (Q * Q)) :=
  pindex ← match hist with
            | Finite hs =>
                find_peaks2 (hist_final hs) (thr pr)
                  (Some (a_mindist pr, d_mindist pr)) (num_sources pr)
            | NotFinite =>
                find_peaks2_nan (nan_histogram (nrows H) (ncols H)) (thr pr)
                  (Some (a_mindist pr, d_mindist pr)) (num_sources pr)
            end;
  alphapeak ← mapM (fun p : Z * Z => take_edge agrid p.1) pindex;
  deltapeak ← mapM (fun p : Z * Z => take_edge dgrid p.2) pindex;
  let ad_est := zip alphapeak deltapeak in
  let atnpeak := map (fun a => (a + sqrt (a ^ 2 + 4)) / 2) alphapeak in
  let scores :=
    zip_with (fun a d => mzip3 (ml_score a d) wmat X1 X2) atnpeak deltapeak in
  let bestind := duet_bestind scores (Lf - 1) Lt in
  let Lx := ncols x in
  xhat ← mapM (fun '(i, (a, d)) =>
                 duet_source sp X1 X2 wmat bestind Lt Lx i a d)
              (zip (seq 0 (num_sources pr)) (zip atnpeak deltapeak));
  Ok (xhat, ad_est).

(** [duet(x, sparam, adparam, Pr)] without its plots: the estimates
    [xhat] and [ad_est].  The code has no exit between the histogram
    and the peaks: a histogram that a division by zero has filled with
    NaN goes to [find_peaks2] like any other. *)
Definition duet (x : matrix) (sp : sparam) (ad : adparam) (pr : Pr)
    : result (list vector * list (Q * Q)) :=
  '(X1, X2, wmat, Lf, Lt_) ← duet_spectrograms x sp;
  let Lt := Lt_ in
  let ad_map := mzip3 atn_delay X1 X2 wmat in
  let alpha := map (map fst) ad_map in
  let delta := map (map snd) ad_map in
  '(H, agrid, dgrid) ←
    duet_accumulate (map (map Cabs) X1) (map (map Cabs) X2) wmat alpha delta ad;
  hist ← duet_normalize_smooth H agrid dgrid;
  duet_separate x sp pr X1 X2 wmat Lf Lt H agrid dgrid hist.

End Duet.

(** ** Arrays in memory *)

(** NumPy arrays are mutable objects, and [a.T] and [a[i, :]] are views
    on the memory of [a].  A heap maps a location to the buffer of a
    non-empty 2-D array; an [ndarray] value is a view on a buffer, as it
    is or transposed. *)
Abbreviation loc := positive.
Abbreviation heap := (gmap positive (list (list Q))).

Record ndarray : Type := { base : loc; transposed : bool }.

(** [a.T]: the same buffer, seen transposed. *)
Definition T (a : ndarray) : ndarray :=
  {| base := base a; transposed := negb (transposed a) |}.

(** The contents of a view. *)
Definition read (h : heap) (a : ndarray) : result matrix :=
  match h !! base a with
  | Some buf => Ok (if transposed a then transpose buf else buf)
  | None => Err UnboundArray
  end.

Definition shape (h : heap) (a : ndarray) : result (nat * nat) :=
  m ← read h a; Ok (nrows m, ncols m).

(** [a[i, :]] read as a value. *)
Definition get_row (h : heap) (a : ndarray) (i : nat) : result vector :=
  m ← read h a;
  match m !! i with
  | Some row => Ok row
  | None => Err IndexOutOfBounds
  end.

(** Column [j] of a buffer replaced by [v]. *)
Definition set_column (buf : matrix) (j : nat) (v : vector) : matrix :=
  zip_with (fun row x => <[j := x]> row) buf v.

(** [a[i, :] = v]: the write goes to the buffer [a] is a view of; row [i]
    of a transposed view is column [i] of the buffer. *)
Definition set_row (h : heap) (a : ndarray) (i : nat) (v : vector) : result heap :=
  match h !! base a with
  | None => Err UnboundArray
  | Some buf =>
      if transposed a then
        if (i <? ncols buf)%nat && (length v =? nrows buf)%nat
        then Ok (<[base a := set_column buf i v]> h)
        else Err IndexOutOfBounds
      else
        if (i <? nrows buf)%nat && (length v =? ncols buf)%nat
        then Ok (<[base a := <[i := v]> buf]> h)
        else Err IndexOutOfBounds
  end.

(** [np.copy(a)]: a new buffer at a location the heap does not use. *)
Definition np_copy (h : heap) (a : ndarray) : result (ndarray * heap) :=
  m ← read h a;
  let l := fresh (dom h) in
  Ok ({| base := l; transposed := false |}, <[l := m]> h).

(** [combined[0:n] op= b] for a non-transposed [combined] and [n >= 0]:
    the first [min n rows] rows are updated in place, [b] being broadcast
    to their shape; NumPy raises [ValueError] when [b] cannot be. *)
Definition inplace_rows (f : Q -> Q -> Q) (h : heap) (combined : ndarray)
    (n : nat) (b : matrix) : result heap :=
  match h !! base combined with
  | None => Err UnboundArray
  | Some buf =>
      let r := Nat.min n (nrows buf) in
      let L1 := ncols buf in
      let rb := nrows b in
      let L2 := ncols b in
      if ((rb =? r)%nat || (rb =? 1)%nat) && ((L2 =? L1)%nat || (L2 =? 1)%nat) then
        Ok (<[base combined :=
               imap (fun i row =>
                       if (i <? r)%nat then
                         imap (fun j c =>
                                 f c (mget b (if (rb =? 1)%nat then 0 else i)
                                             (if (L2 =? 1)%nat then 0 else j)))
                              row
                       else row)
                    buf]> h)
      else Err ShapeMismatch
  end.

(** ** Audio buffers (nussl/AudioSignal.py) *)

(** Modelled from the spec: [Constants.DEFAULT_SAMPLE_RATE], whose module
    is not part of the sources; the spec gives 44100 Hz. *)
Definition DEFAULT_SAMPLE_RATE : Z := 44100.

Module AudioSignal.

(** [audio_data] has one row per channel. *)
Record t : Type := { audio_data : ndarray; sample_rate : Z }.

Definition size (m : matrix) : nat := (nrows m * ncols m)%nat.

(** The common body of [__add__] and [__sub__]; [f] is the in-place
    operation ([+=] or [-=]).  The two [Exception]s are
    [ChannelMismatch] and [RateMismatch], in the order of the checks.
    The result is [AudioSignal(audio_data_array=combined)], which has
    the default sample rate. *)
Definition combine (f : Q -> Q -> Q) (self other : t) (h : heap)
    : result (t * heap) :=
  a ← read h (audio_data self);
  b ← read h (audio_data other);
  if negb (nrows a =? nrows b)%nat then Err ChannelMismatch
  else if negb (sample_rate self =? sample_rate other)%Z then Err RateMismatch
  else if (size b <? size a)%nat then
    '(combined, h) ← np_copy h (audio_data self);
    h ← inplace_rows f h combined (size b) b;
    Ok ({| audio_data := combined; sample_rate := DEFAULT_SAMPLE_RATE |}, h)
  else
    '(combined, h) ← np_copy h (audio_data other);
    h ← inplace_rows f h combined (size a) a;
    Ok ({| audio_data := combined; sample_rate := DEFAULT_SAMPLE_RATE |}, h).

Definition add : t -> t -> heap -> result (t * heap) := combine Qplus.
Definition sub : t -> t -> heap -> result (t * heap) := combine Qminus.

End AudioSignal.

(** ** Audio buffers, first version (AudioSignal.py) *)

Module AudioSignal0.

(** [AudioData] has one column per channel; [nChannels] is set when
    the data are loaded. *)
Record t : Type := { AudioData : ndarray; nChannels : nat; SampleRate : Z }.

(** [AudioSignal(timeSeries=combined)]: [LoadAudioFromArray] copies the
    array and reads the channel count off its shape. *)
Definition of_array (h : heap) (a : ndarray) : result (t * heap) :=
  '(data, h) ← np_copy h a;
  '(_, nch) ← shape h data;
  Ok ({| AudioData := data; nChannels := nch; SampleRate := DEFAULT_SAMPLE_RATE |}, h).

(** [__add__] and [__sub__]: only the channel counts are compared. *)
Definition combine (f : Q -> Q -> Q) (self other : t) (h : heap)
    : result (t * heap) :=
  if negb (nChannels self =? nChannels other)%nat then Err ChannelMismatch
  else
    a ← read h (AudioData self);
    b ← read h (AudioData other);
    if (AudioSignal.size b <? AudioSignal.size a)%nat then
      '(combined, h) ← np_copy h (AudioData self);
      h ← inplace_rows f h combined (AudioSignal.size b) b;
      of_array h combined
    else
      '(combined, h) ← np_copy h (AudioData other);
      h ← inplace_rows f h combined (AudioSignal.size a) a;
      of_array h combined.

Definition add : t -> t -> heap -> result (t * heap) := combine Qplus.
Definition sub : t -> t -> heap -> result (t * heap) := combine Qminus.

End AudioSignal0.

(** What the buffer contract asks of Add and Subtract on two buffers with
    one row per channel: the shorter one is extended with zeros and the
    rows are combined entry by entry, [self] first. *)
Definition zero_extended (f : Q -> Q -> Q) (a b : matrix) : matrix :=
  let n := Nat.max (ncols a) (ncols b) in
  zip_with (fun ra rb => map (fun j => f (nth j ra 0) (nth j rb 0)) (seq 0 n)) a b.

(** ** The similarity matrix (Repet.py [Repet.ComputeSimilarityMatrix],
    REPET_sim.py [sim_mat]) *)

Section Similarity.

(** [np.sqrt], which has no rational model, and the regularization
    constant ([Constants.EPSILON] in Repet.py, [1e-16] in REPET_sim.py). *)
Variable sqrt : Q -> Q.
Variable EPSILON : Q.

(** [Xi / (rowNorm + EPSILON)] with [rowNorm = np.sqrt(np.dot(Xi, Xi))] *)
Definition normalize_vector (Xi : vector) : vector :=
  let rowNorm := sqrt (dot Xi Xi) in
  map (fun x => x / (rowNorm + EPSILON)) Xi.

(** [for i in range(0, Lt)]: rows [i], [i+1], ... of the view [X] are
    read, normalized and written back. *)
Fixpoint normalize_rows (X : ndarray) (n i : nat) (h : heap) : result heap :=
  match n with
  | O => Ok h
  | S n' =>
      Xi ← get_row h X i;
      h ← set_row h X i (normalize_vector Xi);
      normalize_rows X n' (S i) h
  end.

(** [ComputeSimilarityMatrix(X)]: the similarity matrix, and the heap
    the call leaves behind. *)
Definition ComputeSimilarityMatrix (X : ndarray) (h : heap)
    : result (matrix * heap) :=
  '(_, Lt_) ← shape h X;
  let X := T X in
  h ← normalize_rows X Lt_ 0 h;
  Xv ← read h X;
  XT ← read h (T X);
  S ← matmul Xv XT;
  Ok (S, h).

End Similarity.

(** [sim_mat] of REPET_sim.py: the same code with the literal [1e-16]. *)
Definition sim_mat (sqrt : Q -> Q) : ndarray -> heap -> result (matrix * heap) :=
  ComputeSimilarityMatrix sqrt 1e-16.

(** The array a caller finds in place of [buf] after the call: every
    column divided by its norm plus [EPSILON]. *)
Definition normalized_columns (sqrt : Q -> Q) (EPSILON : Q) (buf : matrix) : matrix :=
  map (fun row =>
         imap (fun t x => x / (sqrt (dot (column buf t) (column buf t)) + EPSILON)) row)
      buf.

(** A square root for examples: exact on quotients of perfect squares. *)
Definition sqrt_floor (q : Q) : Q :=
  Z.sqrt (Qnum q) # Pos.sqrt (Qden q).

(** ** Definitions used to state the properties *)

(** Entry (k, t) of a list of rows, if there is one. *)
Definition mlookup {A} (m : list (list A)) (k t : nat) : option A :=
  m !! k ≫= (fun row => row !! t).



(** The source row and column of entry (x, y) of the augmented matrix. *)
Definition aug_row (R copyrow x : nat) : nat :=
  if (x <? copyrow)%nat then 0%nat
  else if (x <? copyrow + R)%nat then (x - copyrow)%nat
  else (R - 1)%nat.

Definition aug_col (R C copyrow copycol x y : nat) : nat :=
  if (y <? copycol)%nat then
    (if (copyrow + R <=? x)%nat then 1%nat else 0%nat)
  else if (y <? copycol + C)%nat then (y - copycol)%nat
  else (C - 1)%nat.

(** A row of the augmented matrix: [row] between [copycol] copies of its
    entry [c0] and [copycol] copies of its last entry. *)
Definition framed (C copycol c0 : nat) (row : list Q) : list Q :=
  replicate copycol (nth c0 row 0) ++ row ++ replicate copycol (nth (C - 1) row 0).

(** The products a valid convolution adds up at entry (i, j). *)
Definition conv_terms (A W : list (list Q)) (i j : nat) : list Q :=
  flat_map (fun a =>
              map (fun b => mget A (i + a) (j + b)
                            * mget W (nrows W - 1 - a) (ncols W - 1 - b))
                  (seq 0 (ncols W)))
           (seq 0 (nrows W)).

(** The sum of the entries of a kernel. *)
Definition kernel_total (K : list (list Q)) : Q :=
  sum (flat_map (fun a => map (fun b => mget K a b) (seq 0 (ncols K))) (seq 0 (nrows K))).

(** Entry by entry, [H'] is at least [H]. *)
Definition mle (H H' : list (list Q)) : Prop :=
  forall i j v, mlookup H i j = Some v ->
    exists v', mlookup H' i j = Some v' /\ v <= v'.

(** The buffer after the first [i] turns of the normalization loop:
    columns below [i] are divided, the others are as they were. *)
Definition partly_normalized (sqrt : Q -> Q) (EPSILON : Q) (buf : list (list Q))
    (i : nat) : list (list Q) :=
  map (fun row =>
         imap (fun t x =>
                 if (t <? i)%nat
                 then x / (sqrt (dot (column buf t) (column buf t)) + EPSILON)
                 else x)
              row)
      buf.

(** ** Python indexing *)

(** [l[i]] on an axis of length [n]: a negative index counts from the
    end; [None] is the [IndexError]. *)
Definition py_index (n : nat) (i : Z) : option nat :=
  let j := if (i <? 0)%Z then (i + Z.of_nat n)%Z else i in
  if (0 <=? j)%Z && (j <? Z.of_nat n)%Z then Some (Z.to_nat j) else None.

(** [l[a:b]] *)
Definition py_slice {A} (a b : Z) (l : list A) : list A :=
  let lo := Z.to_nat (slice_bound (length l) a) in
  let hi := Z.to_nat (slice_bound (length l) b) in
  take (hi - lo) (drop lo l).

(** ** The repeating period (Repet.py [Repet.FindRepeatingPeriod],
    nussl/REPET_org.py [rep_period]) *)

(** [FindRepeatingPeriod(beat_spectrum, min_period, max_period)].
    [np.argmax] of an empty array raises [ValueError], here
    [InvalidRange]. *)
Definition FindRepeatingPeriod (beat_spectrum : vector) (min_period max_period : Z)
    : result Z :=
  let beat_spectrum := drop 1 beat_spectrum in
  let beat_spectrum := py_slice (min_period - 1) max_period beat_spectrum in
  match beat_spectrum with
  | [] => Err InvalidRange
  | _ => Ok (Z.of_nat (argmax beat_spectrum) + min_period)%Z
  end.

(** ** Audio buffers: the other methods (nussl/AudioSignal.py) *)

(** The array handed to [load_audio_from_array]: a float array, which
    the signal keeps as it is, or an integer array, which is converted. *)
Inductive signal_array : Type :=
  | FloatArray (a : ndarray)
  | IntArray (m : list (list Z)).

Module AudioSignalMethods.

(** [num_channels] and [signal_length]: the two entries of the shape. *)
Definition num_channels (self : AudioSignal.t) (h : heap) : result nat :=
  '(c, _) ← shape h (AudioSignal.audio_data self); Ok c.

Definition signal_length (self : AudioSignal.t) (h : heap) : result nat :=
  '(_, l) ← shape h (AudioSignal.audio_data self); Ok l.

(** [load_audio_from_array(signal, sample_rate)] on a 2-D array.  An
    integer array is checked against the largest 16-bit value and
    divided by 32768 into a new float array; [np.max] of an empty array
    and the failed check both raise [ValueError], here [InvalidRange]. *)
Definition load_audio_from_array (signal : signal_array) (sample_rate : Z) (h : heap)
    : result (AudioSignal.t * heap) :=
  match signal with
  | FloatArray a =>
      Ok ({| AudioSignal.audio_data := a; AudioSignal.sample_rate := sample_rate |}, h)
  | IntArray m =>
      match concat m with
      | [] => Err InvalidRange
      | x :: rest =>
          if (32767 <? fold_left Z.max rest x)%Z then Err InvalidRange
          else
            let l := fresh (dom h) in
            Ok ({| AudioSignal.audio_data := {| base := l; transposed := false |};
                   AudioSignal.sample_rate := sample_rate |},
                <[l := map (map (fun z => inject_Z z / 32768)) m]> h)
      end
  end.

(** [peak_normalize()]: when the largest magnitude is above 1 the signal
    gets a new array, the old one divided by that magnitude.  [np.max]
    of an empty array raises [ValueError]. *)
Definition peak_normalize (self : AudioSignal.t) (h : heap)
    : result (AudioSignal.t * heap) :=
  a ← read h (AudioSignal.audio_data self);
  match flatten a with
  | [] => Err InvalidRange
  | _ =>
      let max_val := 1 in
      let max_signal := array_max 0 (map Qabs (flatten a)) in
      if Qltb max_val max_signal then
        let l := fresh (dom h) in
        Ok ({| AudioSignal.audio_data := {| base := l; transposed := false |};
               AudioSignal.sample_rate := AudioSignal.sample_rate self |},
            <[l := map (map (fun x => x / max_signal)) a]> h)
      else Ok (self, h)
  end.

(** [get_channel(n)], 1-based.  For [n] above the channel count the code
    builds an [Exception] whose message has no argument for its field
    [{2}], so that what is raised is the [IndexError] of [str.format];
    [audio_data[n - 1,]] raises [IndexError] as well. *)
Definition get_channel (self : AudioSignal.t) (n : Z) (h : heap) : result vector :=
  a ← read h (AudioSignal.audio_data self);
  if (Z.of_nat (nrows a) <? n)%Z then Err IndexOutOfBounds
  else
    match py_index (nrows a) (n - 1) with
    | Some i =>
        match a !! i with
        | Some row => Ok row
        | None => Err IndexOutOfBounds
        end
    | None => Err IndexOutOfBounds
    end.

(** [truncate_samples(n_samples)]: the data the signal holds afterwards,
    [_audio_data[0: n_samples]], a slice along the first axis. *)
Definition truncate_samples (self : AudioSignal.t) (n_samples : Z) (h : heap)
    : result matrix :=
  a ← read h (AudioSignal.audio_data self);
  if (Z.of_nat (ncols a) <? n_samples)%Z then Err InvalidRange
  else Ok (py_slice 0 n_samples a).

(** [concat(other)]: [np.concatenate] joins along the first axis into a
    new array, and raises [ValueError] unless the other axis agrees. *)
Definition concat (self other : AudioSignal.t) (h : heap)
    : result (AudioSignal.t * heap) :=
  a ← read h (AudioSignal.audio_data self);
  b ← read h (AudioSignal.audio_data other);
  if negb (nrows a =? nrows b)%nat then Err ChannelMismatch
  else if negb (ncols a =? ncols b)%nat then Err ShapeMismatch
  else
    let l := fresh (dom h) in
    Ok ({| AudioSignal.audio_data := {| base := l; transposed := false |};
           AudioSignal.sample_rate := AudioSignal.sample_rate self |},
        <[l := a ++ b]> h).

End AudioSignalMethods.

(** ** Audio buffers, first version: the other methods (AudioSignal.py) *)

Module AudioSignal0Methods.

(** [getChannel(n)]: column [n - 1], with no check of its own. *)
Definition getChannel (self : AudioSignal0.t) (n : Z) (h : heap) : result vector :=
  a ← read h (AudioSignal0.AudioData self);
  match py_index (ncols a) (n - 1) with
  | Some j => Ok (column a j)
  | None => Err IndexOutOfBounds
  end.

(** [concat(other)]: the stored channel counts are compared, and the
    arrays joined along the first axis, which here is time. *)
Definition concat (self other : AudioSignal0.t) (h : heap)
    : result (AudioSignal0.t * heap) :=
  if negb (AudioSignal0.nChannels self =? AudioSignal0.nChannels other)%nat
  then Err ChannelMismatch
  else
    a ← read h (AudioSignal0.AudioData self);
    b ← read h (AudioSignal0.AudioData other);
    if negb (ncols a =? ncols b)%nat then Err ShapeMismatch
    else
      let l := fresh (dom h) in
      Ok ({| AudioSignal0.AudioData := {| base := l; transposed := false |};
             AudioSignal0.nChannels := AudioSignal0.nChannels self;
             AudioSignal0.SampleRate := AudioSignal0.SampleRate self |},
          <[l := a ++ b]> h).

(** [__len__]: [len(self.AudioData)], the number of rows. *)
Definition len (self : AudioSignal0.t) (h : heap) : result nat :=
  a ← read h (AudioSignal0.AudioData self); Ok (length a).

End AudioSignal0Methods.

(** [Repet.MakeAudioSignals] of Repet.py: the foreground is
    [self.Mixture - self.bkgd], with the subtraction of the first
    version of the audio buffer; the result is [[bkgd, fgnd]]. *)
Definition MakeAudioSignals (Mixture bkgd : AudioSignal0.t) (h : heap)
    : result (list AudioSignal0.t * heap) :=
  '(fgnd, h) ← AudioSignal0.sub Mixture bkgd h;
  Ok ([bkgd; fgnd], h).

(** ** Similarity indices (Repet.py [Repet.FindSimilarityIndices]) *)

(** One call of [FindPeaks] for each row of the similarity matrix; the
    sorted peaks of row [i] become row [i] of [I].  [FindPeaks] is the
    code of [find_peaks] in DUET.py. *)
Definition FindSimilarityIndices (S : matrix) (SimilarityThreshold : Q)
    (MinDistanceBetweenFrames : Z) (MaxRepeatingFrames : nat)
    : result (list (list Z)) :=
  mapM (fun row => find_peaks row SimilarityThreshold
                     (Some MinDistanceBetweenFrames) MaxRepeatingFrames) S.

(** ** Medians and reshaping *)

(** [np.sort] of a vector. *)
Fixpoint insert_sorted (x : Q) (l : vector) : vector :=
  match l with
  | [] => [x]
  | y :: l' => if Qle_bool x y then x :: l else y :: insert_sorted x l'
  end.

Definition np_sort (v : vector) : vector := foldr insert_sorted [] v.

(** [np.median] of a vector: the middle entry of the sorted vector, or
    the mean of the two middle entries; [None] is the NaN NumPy gives
    for an empty vector. *)
Definition median (v : vector) : option Q :=
  let s := np_sort v in
  let n := length s in
  if (n =? 0)%nat then None
  else if Nat.even n then Some ((nth (n / 2 - 1) s 0 + nth (n / 2) s 0) / 2)
  else Some (nth (n / 2) s 0).

(** [np.median(rows, axis=0)] for rows of length [c]. *)
Definition median_axis0 (c : nat) (rows : matrix) : option vector :=
  mapM (fun j => median (column rows j)) (seq 0 c).

(** [np.reshape(l, (r, c))] of a flat array: rows of [c] entries;
    [ValueError] when the sizes differ. *)
Fixpoint reshape_rows {A} (r c : nat) (l : list A) : list (list A) :=
  match r with
  | O => []
  | S r' => take c l :: reshape_rows r' c (drop c l)
  end.

Definition reshape {A} (r c : nat) (l : list A) : result (list (list A)) :=
  if (length l =? r * c)%nat then Ok (reshape_rows r c l) else Err ShapeMismatch.

(** [m[idx, :]] for an array of row indices. *)
Definition take_rows (m : matrix) (idx : list Z) : result matrix :=
  mapM (fun i =>
          match py_index (length m) i with
          | Some k =>
              match m !! k with
              | Some row => Ok row
              | None => Err IndexOutOfBounds
              end
          | None => Err IndexOutOfBounds
          end) idx.

(** The smaller of two numbers ([np.min] over a stack of two rows). *)
Definition minimum (x y : Q) : Q := if Qle_bool x y then x else y.

(** The last lines of both mask functions: the smaller of [W] and [V]
    entry by entry, through the flattened arrays, and
    [(W + EPSILON) / (V + EPSILON)].  A zero denominator gives an
    infinity or a NaN. *)
Definition soft_mask (EPSILON : Q) (W V : matrix) : result (outcome matrix) :=
  let Lf := nrows V in
  let Lt := ncols V in
  let Wrow := flatten W in
  let Vrow := flatten V in
  if negb (length Wrow =? length Vrow)%nat then Err ShapeMismatch
  else
    let W := zip_with minimum Wrow Vrow in
    W ← reshape Lf Lt W;
    if existsb (fun v => Qeq_bool (v + EPSILON) 0) Vrow then Ok NotFinite
    else Ok (Finite (mzip_with (fun w v => (w + EPSILON) / (v + EPSILON)) W V)).

(** ** The repeating mask from similarity indices (Repet.py
    [Repet.ComputeRepeatingMaskSim], REPET_sim.py [rep_mask]) *)

(** Row [i] of [W] is the median, over the frames [I[i, :]] names, of
    the columns of [V]; a frame without similar frames gets NaN. *)
Definition ComputeRepeatingMaskSim (EPSILON : Q) (V : matrix) (I : list (list Z))
    : result (outcome matrix) :=
  let Lf := nrows V in
  let Lt := ncols V in
  W ← mapM (fun i =>
              match I !! i with
              | None => Err IndexOutOfBounds
              | Some pind =>
                  rows ← take_rows (transpose V) pind;
                  Ok (median_axis0 Lf rows)
              end) (seq 0 Lt);
  match mapM id W with
  | None => Ok NotFinite
  | Some W => soft_mask EPSILON (transpose W) V
  end.

(** ** The repeating mask from the period (Repet.py
    [Repet.ComputeRepeatingMaskBeat], nussl/REPET_org.py [rep_mask]) *)

(** Arrays that may hold NaN ([None]). *)
Definition ocolumn (m : list (list (option Q))) (j : nat) : list (option Q) :=
  map (fun row => nth j row None) m.

Definition otranspose (m : list (list (option Q))) : list (list (option Q)) :=
  map (ocolumn m) (seq 0 (length (hd [] m))).

(** [np.median] of a vector that may hold NaN. *)
Definition omedian (v : list (option Q)) : option Q :=
  mapM id v ≫= median.

Definition omedian_axis0 (c : nat) (rows : list (list (option Q))) : list (option Q) :=
  map (fun j => omedian (ocolumn rows j)) (seq 0 c).

(** The number of entries [l[a:b]] selects on an axis of length [n]. *)
Definition slice_len (n : nat) (a b : Z) : nat :=
  (Z.to_nat (slice_bound n b) - Z.to_nat (slice_bound n a))%nat.

(** [ComputeRepeatingMaskBeat(V, p)]: the spectrogram is padded with NaN
    to [r] whole periods and cut into [r] segments; [W1] is the median
    of the part of a period all [r] segments have, [W2] that of the
    rest, which the last segment lacks; the period model is repeated
    and cut back to [Lt] frames.  A period of zero fails in the first
    division. *)
Definition ComputeRepeatingMaskBeat (EPSILON : Q) (V : matrix) (p : nat)
    : result (outcome matrix) :=
  let Lf := nrows V in
  let Lt := ncols V in
  if (p =? 0)%nat then Err InvalidRange
  else
    let r := ((Lt + p - 1) / p)%nat in
    let W := map (fun row => map Some row ++ replicate (r * p - Lt) None) V in
    W ← reshape r (Lf * p) (concat (otranspose W));
    let k := (Z.of_nat Lt - (Z.of_nat r - 1) * Z.of_nat p)%Z in
    let lo := (Z.of_nat Lf * k)%Z in
    let hi := Z.of_nat (Lf * p) in
    let W1 := omedian_axis0 (slice_len (Lf * p) 0 lo)
                (map (py_slice 0 lo) (py_slice 0 (Z.of_nat r) W)) in
    let W2 := omedian_axis0 (slice_len (Lf * p) lo hi)
                (map (py_slice lo hi) (py_slice 0 (Z.of_nat r - 1) W)) in
    let W := W1 ++ W2 in
    W ← reshape (r * p) Lf (concat (replicate r W));
    let W := otranspose W in
    let W := map (py_slice 0 (Z.of_nat Lt)) W in
    match mapM (mapM id) W with
    | None => Ok NotFinite
    | Some W => soft_mask EPSILON W V
    end.

(** ** REPET-SIM, first version (REPET_sim.py) *)

Module REPET_sim.

(** The loop [while i < max_num - 1: ...] of [find_peaks].  The entries
    [Pi[0, 0:i+1]] are the peaks accepted so far.  A turn takes the
    argmax, keeps it when it is at least [min_dist] away from all of
    them, zeroes it in the data either way, and raises [ValueError]
    when the data then sum to zero.  The loop need not end (a rejected
    argmax at an entry that is already zero changes nothing), so the
    embedding counts turns: [None] is a run that needs more than [fuel]
    turns. *)
Fixpoint find_peaks_loop (fuel i max_num : nat) (min_dist : Z) (data : vector)
    (Pi : list Z) : option (result (list Z)) :=
  if (i <? max_num - 1)%nat then
    match fuel with
    | O => None
    | S fuel' =>
        let i := S i in
        let itemp := argmax data in
        let ind_dist := map (fun p => Z.abs (p - Z.of_nat itemp)) (take i Pi) in
        let far := forallb (fun d => negb (d <? min_dist)%Z) ind_dist in
        let Pi := if far then <[i := Z.of_nat itemp]> Pi else Pi in
        let i := if far then i else (i - 1)%nat in
        let data := <[itemp := 0]> data in
        if Qeq_bool (sum data) 0 then Some (Err InsufficientPeaks)
        else find_peaks_loop fuel' i max_num min_dist data Pi
    end
  else Some (Ok Pi).

(** [find_peaks(data, min_thr, min_dist, max_num)] on a 1-D array, for
    which [np.nonzero] gives one index array.  When [max_num] is zero
    the first assignment raises: [ValueError] from [np.argmax] on empty
    data, [IndexError] from [Pi[0, 0]] otherwise. *)
Definition find_peaks (fuel : nat) (data : vector) (min_thr : Q) (min_dist : Z)
    (max_num : nat) : option (result (list Z)) :=
  let Pi := replicate max_num 0%Z in
  let data := multiply data (ge_mask min_thr data) in
  if (count_nonzero data <? max_num)%nat then Some (Err InsufficientPeaks)
  else if (max_num =? 0)%nat then
    Some (Err (if (length data =? 0)%nat then InvalidRange else IndexOutOfBounds))
  else
    let i := 0%nat in
    let Pi := <[i := Z.of_nat (argmax data)]> Pi in
    let data := <[argmax data := 0]> data in
    match find_peaks_loop fuel i max_num min_dist data Pi with
    | None => None
    | Some (Err e) => Some (Err e)
    | Some (Ok Pi) => Some (Ok (merge_sort Z.le Pi))
    end.

(** [sim_ind(S, simparam)]: one call of [find_peaks] for each row, with
    [simparam = [min_thr, min_dist, max_num]]. *)
Fixpoint sim_ind (fuel : nat) (S : matrix) (simparam : Q * Z * nat)
    : option (result (list (list Z))) :=
  match S with
  | [] => Some (Ok [])
  | row :: rest =>
      match find_peaks fuel row simparam.1.1 simparam.1.2 simparam.2 with
      | None => None
      | Some (Err e) => Some (Err e)
      | Some (Ok pind) =>
          match sim_ind fuel rest simparam with
          | None => None
          | Some (Err e) => Some (Err e)
          | Some (Ok rows) => Some (Ok (pind :: rows))
          end
      end
  end.

(** [rep_mask(V, I)]: the code of [Repet.ComputeRepeatingMaskSim] with
    the literal [1e-16]. *)
Definition rep_mask : matrix -> list (list Z) -> result (outcome matrix) :=
  ComputeRepeatingMaskSim 1e-16.

(** [RepMask[1:fc, :] = 1], the high-pass step of [repet_sim] (and of
    [Repet.Run] and [repet]): the rows from 1 up to the cutoff bin are
    set to 1, the DC row is left as it is. *)
Definition highpass (fc : Z) (RepMask : matrix) : matrix :=
  imap (fun i row => if in_slice (length RepMask) 1 fc i then map (fun _ => 1) row else row)
       RepMask.

End REPET_sim.

(** ** REPET, first version (nussl/REPET_org.py) *)

Module REPET_org.

(** [rep_period(b, r)]: the code of [Repet.FindRepeatingPeriod], the two
    bounds being [r[0]] and [r[1]]. *)
Definition rep_period (b : vector) (r : Z * Z) : result Z :=
  FindRepeatingPeriod b r.1 r.2.

(** [rep_mask(V, p)]: the code of [Repet.ComputeRepeatingMaskBeat] with
    the literal [1e-16]. *)
Definition rep_mask : matrix -> nat -> result (outcome matrix) :=
  ComputeRepeatingMaskBeat 1e-16.

End REPET_org.

(** ** Definitions used to state the properties of the later sections *)

(** Two positions are at least [d] apart. *)
Definition far_apart (d : Z) (p q : Z) : Prop := (d <= Z.abs (p - q))%Z.

(** The array whose entry (i, j) is [g i j]. *)
Definition tabulate {A} (R C : nat) (g : nat -> nat -> A) : list (list A) :=
  map (fun i => map (g i) (seq 0 C)) (seq 0 R).

(** The frames at the same place in the period as frame [t]: [t mod p],
    [t mod p + p], [t mod p + 2 p], ... below [Lt]. *)
Definition period_frames (Lt p t : nat) : list nat :=
  filter (fun t' => (t' < Lt)%nat)
         (map (fun j => (j * p + t mod p)%nat) (seq 0 ((Lt + p - 1) / p))).

(** * Properties *)

(** ** Order facts on rationals *)

Lemma Qltb_lt (x y : Q) : Qltb x y = true <-> x < y.
Proof.
  unfold Qltb. rewrite negb_true_iff. split.
  - intros H. apply Qnot_le_lt. intros Hle.
    apply Qle_bool_iff in Hle. congruence.
  - intros H. destruct (Qle_bool y x) eqn:E; [|reflexivity].
    apply Qle_bool_iff in E. exfalso. lra.
Qed.

Lemma Qltb_ge (x y : Q) : Qltb x y = false <-> y <= x.
Proof.
  unfold Qltb. rewrite negb_false_iff. apply Qle_bool_iff.
Qed.

(** ** The DUET masks *)

Lemma mlookup_mzip_with {A B D} (f : A -> B -> D) a b k t x y :
  mlookup a k t = Some x -> mlookup b k t = Some y ->
  mlookup (mzip_with f a b) k t = Some (f x y).
Proof.
  unfold mlookup, mzip_with. intros Ha Hb.
  destruct (a !! k) as [ra|] eqn:Ea; [|discriminate].
  destruct (b !! k) as [rb|] eqn:Eb; [|discriminate].
  simpl in *. rewrite lookup_zip_with, Ea, Eb. simpl.
  rewrite lookup_zip_with, Ha, Hb. reflexivity.
Qed.











(** ** Peak picking in one dimension *)

Lemma find_peaks_loop_length (fuel : nat) : forall i d data Pi,
  length (find_peaks_loop fuel i d data Pi) = length Pi.
Proof.
  induction fuel as [|fuel IH]; intros i d data Pi; simpl; [reflexivity|].
  destruct (Qeq_bool _ 0).
  - apply length_insert.
  - rewrite IH. apply length_insert.
Qed.

(** The check that guards the loop compares twice the number of non-zero
    thresholded entries with the requested count. *)
Lemma find_peaks_raises_iff (data : vector) (min_thr : Q) (min_dist : option Z)
    (max_num : nat) :
  find_peaks data min_thr min_dist max_num = Err InsufficientPeaks <->
  (2 * count_nonzero (multiply data (ge_mask min_thr data)) < max_num)%nat.
Proof.
  unfold find_peaks, size_nonzero2, flatten.
  replace (concat [multiply data (ge_mask min_thr data)])
    with (multiply data (ge_mask min_thr data))
    by (cbn [concat]; rewrite app_nil_r; reflexivity).
  destruct (Nat.ltb_spec (2 * count_nonzero (multiply data (ge_mask min_thr data)))
                         max_num) as [H|H].
  - split; [intros _; exact H|reflexivity].
  - split; [discriminate|intros H'; lia].
Qed.

(** A successful call returns [max_num] indices in ascending order. *)
Lemma find_peaks_sorted (data : vector) (min_thr : Q) (min_dist : option Z)
    (max_num : nat) (Pi : list Z) :
  find_peaks data min_thr min_dist max_num = Ok Pi ->
  Sorted Z.le Pi /\ length Pi = max_num.
Proof.
  unfold find_peaks. destruct (_ <? _)%nat; [discriminate|].
  intros [= <-]. split.
  - apply (Sorted_merge_sort Z.le).
  - rewrite (Permutation_length (merge_sort_Permutation Z.le _)).
    rewrite find_peaks_loop_length. apply length_replicate.
Qed.

(** C3. With one entry at the threshold or above and two peaks asked for,
    [find_peaks] does not raise: it returns the one peak and the index 0
    that [Pi] was filled with. *)
Theorem find_peaks_too_few_not_raised :
  let v : vector := [0; 0; 0; 0.9] in
  count_reaching 0.5 v = 1%nat /\
  find_peaks v 0.5 (Some 1%Z) 2 = Ok [0%Z; 3%Z].
Proof.
  split; vm_compute; reflexivity.
Qed.

(** The suppression window [p - d - 1 : p + d + 1] is empty when its left
    end is negative and wraps past its right end: the peak at index 1 is
    found twice. *)
Lemma find_peaks_wrapped_window :
  find_peaks [0.1; 0.9; 0.2; 0.1] 0.5 (Some 1%Z) 2 = Ok [1%Z; 1%Z].
Proof. vm_compute. reflexivity. Qed.

(** The window reaches one index further to the left than to the right:
    with distance 1 the pick at 2 suppresses index 0 (0.8, two away) and
    keeps index 4 (0.7, two away). *)
Lemma find_peaks_window_off_centre :
  find_peaks [0.8; 0; 1; 0; 0.7] 0.5 (Some 1%Z) 2 = Ok [2%Z; 4%Z].
Proof. vm_compute. reflexivity. Qed.

(** Entries equal to zero are never candidates, whatever the threshold. *)
Lemma find_peaks_zero_entries :
  count_reaching 0 [0; 0] = 2%nat /\
  find_peaks [0; 0] 0 (Some 1%Z) 1 = Err InsufficientPeaks.
Proof. split; vm_compute; reflexivity. Qed.

(** The suppression scenario of the spec. *)
Lemma find_peaks_suppression :
  let data := replicate 10 0 ++ [1; 0; 0.9] ++ replicate 47 0 ++ [0.8] ++ replicate 39 0 in
  length data = 100%nat /\
  find_peaks data 0.5 (Some 5%Z) 2 = Ok [10%Z; 60%Z] /\
  find_peaks data 0.5 (Some 1%Z) 2 = Ok [10%Z; 12%Z].
Proof. repeat split; vm_compute; reflexivity. Qed.

(** ** Peak picking in two dimensions *)

Lemma find_peaks2_loop_length (fuel : nat) : forall i Rmd Cmd data Pi,
  length (find_peaks2_loop fuel i Rmd Cmd data Pi) = length Pi.
Proof.
  induction fuel as [|fuel IH]; intros i Rmd Cmd data Pi; simpl; [reflexivity|].
  destruct (Qeq_bool _ 0).
  - apply length_insert.
  - rewrite IH. apply length_insert.
Qed.

(** A successful call returns [max_num] pairs. *)
Lemma find_peaks2_length (data : matrix) (min_thr : Q) (min_dist : option (Z * Z))
    (max_num : nat) (Pi : list (Z * Z)) :
  find_peaks2 data min_thr min_dist max_num = Ok Pi -> length Pi = max_num.
Proof.
  unfold find_peaks2. destruct (default _ min_dist) as [Rmd Cmd].
  destruct (matmul data _) as [d|e]; simpl; [|discriminate].
  destruct (_ <? _)%nat; [discriminate|]. intros [= <-].
  rewrite find_peaks2_loop_length. apply length_replicate.
Qed.

(** C4. Two 4 x 4 inputs on which [find_peaks2] succeeds with threshold
    0.5, distances (1, 1) and two peaks asked for.  On the first, with a
    single entry above the threshold, it returns that entry and (0, 0),
    whose value 0 is below the threshold.  On the second, with entries
    0.9 at (0, 0) and 0.8 at (3, 3), it returns (0, 0) twice: the window
    around (0, 0) has a negative start, wraps and zeroes nothing. *)
Theorem find_peaks2_returns_non_peaks :
  let M1 : matrix := [[0; 0; 0; 0]; [0; 0; 0; 0]; [0; 0; 0; 0]; [0; 0; 0; 0.9]] in
  let M2 : matrix := [[0.9; 0; 0; 0]; [0; 0; 0; 0]; [0; 0; 0; 0]; [0; 0; 0; 0.8]] in
  find_peaks2 M1 0.5 (Some (1, 1)%Z) 2 = Ok [(3, 3)%Z; (0, 0)%Z] /\
  mget M1 0 0 < 0.5 /\
  find_peaks2 M2 0.5 (Some (1, 1)%Z) 2 = Ok [(0, 0)%Z; (0, 0)%Z] /\
  chebyshev (0, 0)%Z (0, 0)%Z = 0%Z.
Proof.
  repeat split; vm_compute; reflexivity.
Qed.

(** The zeroed block is not centred on the pick either: it spans
    [2 d + 2] rows and columns, one more above and to the left.  With
    distances (1, 1) the pick at (2, 2) suppresses (0, 0), of value 0.8,
    and the second pick is (4, 4), of value 0.7, at the same distance. *)
Lemma find_peaks2_window_off_centre :
  find_peaks2 [[0.8; 0; 0; 0; 0]; [0; 0; 0; 0; 0]; [0; 0; 1; 0; 0];
               [0; 0; 0; 0; 0]; [0; 0; 0; 0; 0.7]] 0.5 (Some (1, 1)%Z) 2
  = Ok [(2, 2)%Z; (4, 4)%Z].
Proof. vm_compute. reflexivity. Qed.

(** On both inputs the matrix product with the threshold mask gives the
    entries the entry-wise product would give. *)
Lemma find_peaks2_examples_thresholded :
  let M1 : matrix := [[0; 0; 0; 0]; [0; 0; 0; 0]; [0; 0; 0; 0]; [0; 0; 0; 0.9]] in
  let M2 : matrix := [[0.9; 0; 0; 0]; [0; 0; 0; 0]; [0; 0; 0; 0]; [0; 0; 0; 0.8]] in
  (exists D1, matmul M1 (map (ge_mask 0.5) M1) = Ok D1 /\
              Forall2 (Forall2 Qeq) D1 (threshold2 0.5 M1)) /\
  (exists D2, matmul M2 (map (ge_mask 0.5) M2) = Ok D2 /\
              Forall2 (Forall2 Qeq) D2 (threshold2 0.5 M2)).
Proof.
  split; eexists; (split; [vm_compute; reflexivity|]);
    vm_compute; repeat constructor; discriminate.
Qed.

(** In general the two differ: the product mixes the entries of a row,
    and the argmax can land on an entry below the threshold; data that
    are not square are rejected. *)
Lemma find_peaks2_matrix_product :
  find_peaks2 [[0.1; 0.9]; [0.9; 0.1]] 0.5 (Some (0, 0)%Z) 1 = Ok [(0, 0)%Z] /\
  find_peaks2 [[0.1; 0.9; 0]; [0.9; 0.1; 0]] 0.5 (Some (0, 0)%Z) 1 = Err ShapeMismatch.
Proof. split; vm_compute; reflexivity. Qed.

(** ** Smoothing *)

Lemma mget_mlookup (m : matrix) (i j : nat) (x : Q) :
  mlookup m i j = Some x -> mget m i j = x.
Proof.
  unfold mlookup, mget. intros H.
  destruct (m !! i) as [row|] eqn:E; [|discriminate]. simpl in H.
  rewrite (nth_lookup_Some _ _ _ _ E). apply (nth_lookup_Some _ _ _ _ H).
Qed.

Lemma mlookup_rect (m : matrix) (R C i j : nat) :
  length m = R -> rect C m -> (i < R)%nat -> (j < C)%nat ->
  exists x, mlookup m i j = Some x.
Proof.
  intros HR Hrect Hi Hj. unfold mlookup.
  destruct (lookup_lt_is_Some_2 m i ltac:(lia)) as [row Hrow].
  rewrite Hrow. simpl. apply lookup_lt_is_Some_2.
  unfold rect in Hrect. rewrite Forall_forall in Hrect.
  rewrite (Hrect row); [lia|]. apply list_elem_of_lookup. eauto.
Qed.

Lemma ncols_rect (m : matrix) (C : nat) :
  (0 < length m)%nat -> rect C m -> ncols m = C.
Proof.
  intros Hlen Hrect. destruct m as [|row m]; [simpl in Hlen; lia|].
  unfold ncols. simpl. apply Forall_cons in Hrect as [H _]. exact H.
Qed.

Lemma lookup_framed_row (row : vector) (cc C y : nat) (a b : Q) :
  length row = C -> (y < cc + C + cc)%nat ->
  (replicate cc a ++ row ++ replicate cc b) !! y =
    if (y <? cc)%nat then Some a
    else if (y <? cc + C)%nat then row !! (y - cc)%nat
    else Some b.
Proof.
  intros Hlen Hy.
  destruct (Nat.ltb_spec y cc) as [H1|H1].
  - rewrite lookup_app_l by (rewrite length_replicate; lia).
    apply lookup_replicate_2. exact H1.
  - rewrite lookup_app_r by (rewrite length_replicate; lia).
    rewrite length_replicate.
    destruct (Nat.ltb_spec y (cc + C)) as [H2|H2].
    + rewrite lookup_app_l by lia. reflexivity.
    + rewrite lookup_app_r by lia. apply lookup_replicate_2. lia.
Qed.

Lemma hstack3_lookup (a b c : matrix) (x : nat) ra rb rc :
  a !! x = Some ra -> b !! x = Some rb -> c !! x = Some rc ->
  hstack3 a b c !! x = Some (ra ++ rb ++ rc).
Proof.
  intros Ha Hb Hc. unfold hstack3.
  rewrite lookup_zip_with, Ha. simpl.
  rewrite lookup_zip_with, Hb, Hc. reflexivity.
Qed.

Lemma hstack3_length (a b c : matrix) (n : nat) :
  length a = n -> length b = n -> length c = n -> length (hstack3 a b c) = n.
Proof.
  intros Ha Hb Hc. unfold hstack3. rewrite !length_zip_with. lia.
Qed.

Lemma lookup_nth_lt {A} (l : list A) (i : nat) (d : A) :
  (i < length l)%nat -> l !! i = Some (nth i l d).
Proof.
  intros H. destruct (lookup_lt_is_Some_2 l i H) as [x Hx].
  rewrite Hx. f_equal. symmetry. apply (nth_lookup_Some _ _ _ _ Hx).
Qed.

Lemma framed_lookup (row : list Q) (C cc c0 y : nat) :
  length row = C -> (c0 < C)%nat -> (y < cc + C + cc)%nat ->
  framed C cc c0 row !! y =
    row !! (if (y <? cc)%nat then c0
            else if (y <? cc + C)%nat then (y - cc)%nat else (C - 1)%nat).
Proof.
  intros Hlen Hc0 Hy. unfold framed.
  rewrite (lookup_framed_row row cc C y _ _ Hlen Hy).
  destruct (y <? cc)%nat.
  - symmetry. apply lookup_nth_lt. lia.
  - destruct (y <? cc + C)%nat; [reflexivity|].
    symmetry. apply lookup_nth_lt. lia.
Qed.

Lemma framed_length (row : list Q) (C cc c0 : nat) :
  length row = C -> length (framed C cc c0 row) = (cc + C + cc)%nat.
Proof.
  intros H. unfold framed. rewrite !length_app, !length_replicate. lia.
Qed.

(** The rows of the augmented matrix, one by one. *)
Lemma augMat_rows (Mat : list (list Q)) (R C cr cc : nat) :
  length Mat = R -> rect C Mat -> (1 <= R)%nat -> (2 <= C)%nat ->
  exists aug, augMat Mat cr cc = Ok aug /\
    length aug = (cr + R + cr)%nat /\
    forall x, (x < cr + R + cr)%nat ->
      exists row, Mat !! aug_row R cr x = Some row /\
        aug !! x = Some (framed C cc (if (cr + R <=? x)%nat then 1 else 0) row).
Proof.
  intros HR Hrect HR1 HC2.
  assert (Hnc : ncols Mat = C) by (apply ncols_rect; [lia|exact Hrect]).
  unfold augMat, nrows. rewrite Hnc, HR.
  replace (R =? 0)%nat with false by (symmetry; apply Nat.eqb_neq; lia).
  replace (C <? 2)%nat with false by (symmetry; apply Nat.ltb_ge; lia).
  simpl. eexists. split; [reflexivity|].
  assert (Hrow : forall r, (r < R)%nat -> exists row,
             Mat !! r = Some row /\ nth r Mat [] = row /\ length row = C).
  { intros r Hr. destruct (lookup_lt_is_Some_2 Mat r ltac:(lia)) as [row Hrow].
    exists row. split; [exact Hrow|]. split; [apply (nth_lookup_Some _ _ _ _ Hrow)|].
    unfold rect in Hrect. rewrite Forall_forall in Hrect. apply Hrect.
    apply list_elem_of_lookup. eauto. }
  assert (Htop : length (hstack3 (full cr cc (mget Mat 0 0)) (replicate cr (nth 0 Mat []))
                                 (full cr cc (mget Mat 0 (C - 1)))) = cr).
  { apply hstack3_length; unfold full; apply length_replicate. }
  assert (Hmid : length (hstack3 (map (fun row => replicate cc (nth 0 row 0)) Mat) Mat
                                 (map (fun row => replicate cc (nth (C - 1) row 0)) Mat)) = R).
  { apply hstack3_length; rewrite ?length_map; exact HR. }
  assert (Hbot : length (hstack3 (full cr cc (mget Mat (R - 1) 1))
                                 (replicate cr (nth (R - 1) Mat []))
                                 (full cr cc (mget Mat (R - 1) (C - 1)))) = cr).
  { apply hstack3_length; unfold full; apply length_replicate. }
  split; [rewrite !length_app, Htop, Hmid, Hbot; lia|].
  intros x Hx. unfold aug_row.
  destruct (Nat.ltb_spec x cr) as [H1|H1].
  - destruct (Hrow 0%nat ltac:(lia)) as (row & Hl & Hn & Hlen).
    exists row. split; [exact Hl|].
    replace (cr + R <=? x)%nat with false by (symmetry; apply Nat.leb_gt; lia).
    rewrite lookup_app_l by lia.
    unfold framed, mget. rewrite Hn.
    apply hstack3_lookup; unfold full; apply lookup_replicate_2; exact H1.
  - destruct (Nat.ltb_spec x (cr + R)) as [H2|H2].
    + destruct (Hrow (x - cr)%nat ltac:(lia)) as (row & Hl & Hn & Hlen).
      exists row. split; [exact Hl|].
      replace (cr + R <=? x)%nat with false by (symmetry; apply Nat.leb_gt; lia).
      rewrite lookup_app_r by lia. rewrite Htop.
      rewrite lookup_app_l by lia.
      unfold framed. apply hstack3_lookup.
      * rewrite list_lookup_fmap, Hl. reflexivity.
      * exact Hl.
      * rewrite list_lookup_fmap, Hl. reflexivity.
    + destruct (Hrow (R - 1)%nat ltac:(lia)) as (row & Hl & Hn & Hlen).
      exists row. split; [exact Hl|].
      replace (cr + R <=? x)%nat with true by (symmetry; apply Nat.leb_le; lia).
      rewrite lookup_app_r by lia. rewrite Htop.
      rewrite lookup_app_r by lia. rewrite Hmid.
      unfold framed, mget. rewrite Hn.
      apply hstack3_lookup; unfold full; apply lookup_replicate_2; lia.
Qed.

(** Every entry of the augmented matrix is the entry of the input at
    ([aug_row], [aug_col]): the nearest one, except in the lower left
    block, where the column is 1. *)
Lemma augMat_entry (Mat : list (list Q)) (R C cr cc : nat) :
  length Mat = R -> rect C Mat -> (1 <= R)%nat -> (2 <= C)%nat ->
  exists aug, augMat Mat cr cc = Ok aug /\
    length aug = (cr + R + cr)%nat /\ rect (cc + C + cc) aug /\
    forall x y, (x < cr + R + cr)%nat -> (y < cc + C + cc)%nat ->
      exists v, mlookup aug x y = Some v /\
                mlookup Mat (aug_row R cr x) (aug_col R C cr cc x y) = Some v.
Proof.
  intros HR Hrect HR1 HC2.
  destruct (augMat_rows Mat R C cr cc HR Hrect HR1 HC2) as (aug & Hok & Hlen & Hrows).
  exists aug. split; [exact Hok|]. split; [exact Hlen|].
  assert (Hlenrow : forall r row, Mat !! r = Some row -> length row = C).
  { intros r row Hl. unfold rect in Hrect. rewrite Forall_forall in Hrect.
    apply Hrect. apply list_elem_of_lookup. eauto. }
  split.
  - unfold rect. apply Forall_lookup. intros x arow Hx.
    assert (Hxl : (x < cr + R + cr)%nat).
    { rewrite <- Hlen. apply lookup_lt_is_Some_1. eauto. }
    destruct (Hrows x Hxl) as (row & Hl & Ha). rewrite Ha in Hx.
    injection Hx as <-. apply framed_length. eapply Hlenrow. exact Hl.
  - intros x y Hx Hy. destruct (Hrows x Hx) as (row & Hl & Ha).
    pose proof (Hlenrow _ _ Hl) as Hlr.
    unfold mlookup. rewrite Ha, Hl. simpl.
    rewrite framed_lookup; [|exact Hlr|destruct (cr + R <=? x)%nat; lia|exact Hy].
    unfold aug_col.
    destruct (lookup_lt_is_Some_2 row
      (if (y <? cc)%nat then if (cr + R <=? x)%nat then 1%nat else 0%nat
       else if (y <? cc + C)%nat then (y - cc)%nat else (C - 1)%nat)) as [v Hv].
    { rewrite Hlr. destruct (Nat.ltb_spec y cc); [destruct (cr + R <=? x)%nat; lia|].
      destruct (Nat.ltb_spec y (cc + C)); lia. }
    exists v. split; exact Hv.
Qed.

(** *** Sums *)

Lemma sum_app (l1 l2 : list Q) : sum (l1 ++ l2) == sum l1 + sum l2.
Proof.
  induction l1 as [|x l1 IH]; simpl.
  - unfold sum. simpl. lra.
  - unfold sum in *. simpl. rewrite IH. lra.
Qed.

Lemma sum_nonneg (l : list Q) : Forall (fun x => 0 <= x) l -> 0 <= sum l.
Proof.
  induction 1 as [|x l Hx _ IH]; unfold sum in *; simpl; lra.
Qed.

Lemma sum_ge_elem (l : list Q) (x : Q) :
  Forall (fun x => 0 <= x) l -> x ∈ l -> x <= sum l.
Proof.
  induction 1 as [|y l Hy Hl IH]; intros Hin.
  - inversion Hin.
  - apply elem_of_cons in Hin as [->|Hin].
    + pose proof (sum_nonneg l Hl). unfold sum in *. simpl. lra.
    + specialize (IH Hin). unfold sum in *. simpl. lra.
Qed.

Lemma sum_scaled (c : Q) (l l' : list Q) :
  Forall2 (fun x y => x == c * y) l l' -> sum l == c * sum l'.
Proof.
  induction 1 as [|x y l l' Hxy _ IH]; unfold sum in *; simpl.
  - lra.
  - rewrite IH, Hxy. lra.
Qed.

Lemma sum_replicate (n : nat) (v : Q) :
  sum (replicate n v) == inject_Z (Z.of_nat n) * v.
Proof.
  induction n as [|n IH].
  - unfold sum. simpl. change (inject_Z 0) with 0. ring.
  - rewrite Nat2Z.inj_succ. unfold Z.succ. rewrite inject_Z_plus.
    unfold sum in *. simpl. rewrite IH. change (inject_Z 1) with 1. ring.
Qed.

(** *** Valid convolution *)

Lemma convolve2d_valid_shape (A W : list (list Q)) :
  length (convolve2d_valid A W) = (nrows A + 1 - nrows W)%nat /\
  rect (ncols A + 1 - ncols W) (convolve2d_valid A W).
Proof.
  unfold convolve2d_valid. split.
  - rewrite length_map, length_seq. reflexivity.
  - unfold rect. apply Forall_forall. intros row Hrow.
    apply list_elem_of_fmap in Hrow as (i & -> & _).
    rewrite length_map, length_seq. reflexivity.
Qed.

Lemma convolve2d_valid_entry (A W : list (list Q)) (i j : nat) :
  (i < nrows A + 1 - nrows W)%nat -> (j < ncols A + 1 - ncols W)%nat ->
  mlookup (convolve2d_valid A W) i j = Some (sum (conv_terms A W i j)).
Proof.
  intros Hi Hj. unfold mlookup, convolve2d_valid.
  rewrite list_lookup_fmap, lookup_seq_lt by exact Hi. simpl.
  rewrite list_lookup_fmap, lookup_seq_lt by exact Hj. reflexivity.
Qed.

Lemma conv_terms_elem (A W : list (list Q)) (i j : nat) (x : Q) :
  x ∈ conv_terms A W i j <->
  exists a b, (a < nrows W)%nat /\ (b < ncols W)%nat /\
    x = mget A (i + a) (j + b) * mget W (nrows W - 1 - a) (ncols W - 1 - b).
Proof.
  unfold conv_terms. rewrite list_elem_of_In, in_flat_map. split.
  - intros (a & Ha & Hx). apply in_map_iff in Hx as (b & <- & Hb).
    apply in_seq in Ha. apply in_seq in Hb. exists a, b. repeat split; lia.
  - intros (a & b & Ha & Hb & ->). exists a. split; [apply in_seq; lia|].
    apply in_map_iff. exists b. split; [reflexivity|apply in_seq; lia].
Qed.

Lemma mget_flip2 (K : list (list Q)) (kr kc a b : nat) :
  length K = kr -> rect kc K -> (a < kr)%nat -> (b < kc)%nat ->
  mget (flip2 K) (kr - 1 - a) (kc - 1 - b) = mget K a b.
Proof.
  intros Hkr Hrect Ha Hb. unfold mget, flip2.
  rewrite rev_nth by (rewrite length_map; lia).
  rewrite length_map, Hkr. replace (kr - S (kr - 1 - a))%nat with a by lia.
  destruct (lookup_lt_is_Some_2 K a ltac:(lia)) as [row Hrow].
  assert (Hlen : length row = kc).
  { unfold rect in Hrect. rewrite Forall_forall in Hrect. apply Hrect.
    apply list_elem_of_lookup. eauto. }
  rewrite (nth_lookup_Some _ _ _ (rev row)).
  2:{ rewrite list_lookup_fmap, Hrow. reflexivity. }
  rewrite (nth_lookup_Some _ _ _ _ Hrow).
  rewrite rev_nth by lia. rewrite Hlen. f_equal. lia.
Qed.

Lemma flip2_shape (K : list (list Q)) (kc : nat) :
  rect kc K -> length (flip2 K) = length K /\ rect kc (flip2 K).
Proof.
  intros Hrect. unfold flip2. split.
  - rewrite length_rev, length_map. reflexivity.
  - unfold rect in *. rewrite Forall_forall in *. intros row Hrow.
    rewrite list_elem_of_In, <- in_rev, <- list_elem_of_In in Hrow.
    apply list_elem_of_fmap in Hrow as (r & -> & Hr).
    rewrite length_rev. apply Hrect. exact Hr.
Qed.

(** *** The averaging kernel *)

Lemma full_shape (r c : nat) (x : Q) : length (full r c x) = r /\ rect c (full r c x).
Proof.
  unfold full. split; [apply length_replicate|].
  unfold rect. apply Forall_replicate. apply length_replicate.
Qed.

Lemma ncols_full (r c : nat) (x : Q) : (0 < r)%nat -> ncols (full r c x) = c.
Proof.
  intros H. apply ncols_rect; destruct (full_shape r c x); [lia|assumption].
Qed.

Lemma convolve_ones21_half_shape (K : list (list Q)) :
  length (convolve_ones21_half K) = S (nrows K) /\
  rect (ncols K) (convolve_ones21_half K).
Proof.
  unfold convolve_ones21_half. split.
  - rewrite length_map, length_seq. reflexivity.
  - unfold rect. apply Forall_forall. intros row Hrow.
    apply list_elem_of_fmap in Hrow as (i & -> & _).
    rewrite length_map, length_seq. reflexivity.
Qed.

Lemma convolve_ones12_half_shape (K : list (list Q)) :
  length (convolve_ones12_half K) = nrows K /\
  rect (S (ncols K)) (convolve_ones12_half K).
Proof.
  unfold convolve_ones12_half. split.
  - rewrite length_map. reflexivity.
  - unfold rect. apply Forall_forall. intros row Hrow.
    apply list_elem_of_fmap in Hrow as (i & -> & _).
    rewrite length_map, length_seq. reflexivity.
Qed.

(** The kernel is square, of the odd size [2 * (k / 2) + 1]. *)
Lemma averaging_kernel_shape (Kernel : positive) :
  let c := (Pos.to_nat Kernel / 2)%nat in
  length (averaging_kernel Kernel) = (2 * c + 1)%nat /\
  rect (2 * c + 1) (averaging_kernel Kernel).
Proof.
  intros c. unfold averaging_kernel.
  pose proof (Pos2Nat.is_pos Kernel) as Hpos.
  pose proof (Nat.div_mod_eq (Pos.to_nat Kernel) 2) as Hdm.
  pose proof (Nat.mod_upper_bound (Pos.to_nat Kernel) 2 ltac:(lia)) as Hm.
  fold c in Hdm.
  destruct (Nat.eqb_spec (Pos.to_nat Kernel mod 2) 0) as [He|Ho].
  - destruct (convolve_ones12_half_shape
                (convolve_ones21_half
                   (full (Pos.to_nat Kernel) (Pos.to_nat Kernel)
                         (1 / inject_Z (Z.pos Kernel) ^ 2)))) as [H1 H2].
    destruct (convolve_ones21_half_shape
                (full (Pos.to_nat Kernel) (Pos.to_nat Kernel)
                      (1 / inject_Z (Z.pos Kernel) ^ 2))) as [H3 H4].
    rewrite ncols_full in H4 by lia.
    unfold nrows in *. rewrite H3 in H1.
    rewrite (proj1 (full_shape _ _ _)) in H1.
    rewrite (ncols_rect _ (Pos.to_nat Kernel)) in H2 by (try rewrite H3; try lia; exact H4).
    split.
    + rewrite H1. lia.
    + replace (2 * c + 1)%nat with (S (Pos.to_nat Kernel)) by lia. exact H2.
  - destruct (full_shape (Pos.to_nat Kernel) (Pos.to_nat Kernel)
                         (1 / inject_Z (Z.pos Kernel) ^ 2)) as [H1 H2].
    replace (2 * c + 1)%nat with (Pos.to_nat Kernel) by lia.
    split; assumption.
Qed.

(** *** Shape of the smoothed matrix *)

(** On a matrix with at least one row and two columns [twoDsmooth]
    returns a matrix of the same shape, whose entries are the sums of
    [conv_terms] over the augmented matrix. *)
Lemma twoDsmooth_entries (Mat : list (list Q)) (R C : nat) (Kernel : positive) :
  length Mat = R -> rect C Mat -> (1 <= R)%nat -> (2 <= C)%nat ->
  let c := (Pos.to_nat Kernel / 2)%nat in
  exists aug S, augMat Mat c c = Ok aug /\ twoDsmooth Mat Kernel = Ok S /\
    length S = R /\ rect C S /\
    forall i j, (i < R)%nat -> (j < C)%nat ->
      mlookup S i j = Some (sum (conv_terms aug (flip2 (averaging_kernel Kernel)) i j)).
Proof.
  intros HR Hrect HR1 HC2 c.
  destruct (averaging_kernel_shape Kernel) as [Hk1 Hk2]. fold c in Hk1, Hk2.
  assert (Hkc : ncols (averaging_kernel Kernel) = (2 * c + 1)%nat).
  { apply ncols_rect; [lia|exact Hk2]. }
  destruct (augMat_entry Mat R C c c HR Hrect HR1 HC2) as (aug & Hok & Hlen & Hrecta & _).
  assert (Hac : ncols aug = (c + C + c)%nat) by (apply ncols_rect; [lia|exact Hrecta]).
  destruct (flip2_shape _ _ Hk2) as [Hf1 Hf2].
  assert (Hfc : ncols (flip2 (averaging_kernel Kernel)) = (2 * c + 1)%nat).
  { apply ncols_rect; [lia|exact Hf2]. }
  exists aug, (convolve2d_valid aug (flip2 (averaging_kernel Kernel))).
  split; [exact Hok|].
  split.
  { unfold twoDsmooth, nrows. rewrite Hk1, Hkc.
    replace ((2 * c + 1) / 2)%nat with c.
    2:{ symmetry. rewrite Nat.add_comm, Nat.mul_comm, Nat.div_add by lia. reflexivity. }
    rewrite Hok. reflexivity. }
  destruct (convolve2d_valid_shape aug (flip2 (averaging_kernel Kernel))) as [Hs1 Hs2].
  unfold nrows in *. rewrite Hlen, Hf1, Hk1 in Hs1. rewrite Hac, Hfc in Hs2.
  split; [rewrite Hs1; lia|].
  split; [replace C with (c + C + c + 1 - (2 * c + 1))%nat at 1 by lia; exact Hs2|].
  intros i j Hi Hj. apply convolve2d_valid_entry.
  - unfold nrows. rewrite Hlen, Hf1, Hk1. lia.
  - rewrite Hac, Hfc. lia.
Qed.

Lemma twoDsmooth_shape (Mat : list (list Q)) (R C : nat) (Kernel : positive) :
  length Mat = R -> rect C Mat -> (1 <= R)%nat -> (2 <= C)%nat ->
  exists S, twoDsmooth Mat Kernel = Ok S /\ length S = R /\ rect C S.
Proof.
  intros HR Hrect HR1 HC2.
  destruct (twoDsmooth_entries Mat R C Kernel HR Hrect HR1 HC2)
    as (aug & S & _ & Hok & Hlen & Hr & _).
  exists S. auto.
Qed.

(** A matrix with a single column is rejected, whatever it holds. *)
Lemma twoDsmooth_single_column (Mat : list (list Q)) (Kernel : positive) :
  rect 1 Mat -> twoDsmooth Mat Kernel = Err IndexOutOfBounds.
Proof.
  intros Hrect. unfold twoDsmooth, augMat.
  destruct Mat as [|row Mat].
  - reflexivity.
  - apply Forall_cons in Hrect as [Hrow _].
    unfold ncols, nrows. simpl. rewrite Hrow. reflexivity.
Qed.

(** C6. The four corner blocks of the augmented matrix of
    [[1, 2], [3, 4]] for a 3 x 3 kernel: three hold the nearest corner
    entry, the lower left one holds 4 (row -1, column 1) where the nearest
    corner entry is 3. *)
Theorem twoDsmooth_lower_left_corner :
  augMat [[1; 2]; [3; 4]] 1 1 =
    Ok [[1; 1; 2; 2]; [1; 1; 2; 2]; [3; 3; 4; 4]; [4; 3; 4; 4]].
Proof. vm_compute. reflexivity. Qed.

(** C7. A constant matrix with a single column, of any height, any value
    and for any kernel size, is not smoothed: the call raises. *)
Theorem twoDsmooth_constant_column_rejected (R : nat) (c : Q) (Kernel : positive) :
  twoDsmooth (full R 1 c) Kernel = Err IndexOutOfBounds.
Proof.
  apply twoDsmooth_single_column. apply full_shape.
Qed.

(** In the lower left block the augmented matrix holds the entry of the
    last row in column 1, not the corner entry in column 0. *)
Lemma augMat_lower_left (Mat : list (list Q)) (R C cr cc x y : nat) :
  length Mat = R -> rect C Mat -> (1 <= R)%nat -> (2 <= C)%nat ->
  (cr + R <= x < cr + R + cr)%nat -> (y < cc)%nat ->
  exists aug, augMat Mat cr cc = Ok aug /\ mget aug x y = mget Mat (R - 1) 1.
Proof.
  intros HR Hrect HR1 HC2 Hx Hy.
  destruct (augMat_entry Mat R C cr cc HR Hrect HR1 HC2) as (aug & Hok & _ & _ & Hent).
  exists aug. split; [exact Hok|].
  destruct (Hent x y ltac:(lia) ltac:(lia)) as (v & Ha & Hm).
  unfold aug_row, aug_col in Hm.
  replace (x <? cr)%nat with false in Hm by (symmetry; apply Nat.ltb_ge; lia).
  replace (x <? cr + R)%nat with false in Hm by (symmetry; apply Nat.ltb_ge; lia).
  replace (y <? cc)%nat with true in Hm by (symmetry; apply Nat.ltb_lt; lia).
  replace (cr + R <=? x)%nat with true in Hm by (symmetry; apply Nat.leb_le; lia).
  rewrite (mget_mlookup _ _ _ _ Ha), (mget_mlookup _ _ _ _ Hm). reflexivity.
Qed.

Lemma Forall2_map_seq {A} (P : A -> A -> Prop) (f g : nat -> A) (s n : nat) :
  (forall b, (s <= b < s + n)%nat -> P (f b) (g b)) ->
  Forall2 P (map f (seq s n)) (map g (seq s n)).
Proof.
  revert s. induction n as [|n IH]; intros s H; simpl; constructor.
  - apply H. lia.
  - apply IH. intros b Hb. apply H. lia.
Qed.

Lemma Forall2_flat_map_seq {A} (P : A -> A -> Prop) (f g : nat -> list A) (s n : nat) :
  (forall a, (s <= a < s + n)%nat -> Forall2 P (f a) (g a)) ->
  Forall2 P (flat_map f (seq s n)) (flat_map g (seq s n)).
Proof.
  revert s. induction n as [|n IH]; intros s H; simpl; [constructor|].
  apply Forall2_app.
  - apply H. lia.
  - apply IH. intros a Ha. apply H. lia.
Qed.

Lemma mlookup_Forall (P : Q -> Prop) (m : list (list Q)) (i j : nat) (v : Q) :
  Forall (Forall P) m -> mlookup m i j = Some v -> P v.
Proof.
  unfold mlookup. intros Hall H.
  destruct (m !! i) as [row|] eqn:E; [|discriminate]. simpl in H.
  rewrite Forall_lookup in Hall. specialize (Hall _ _ E).
  rewrite Forall_lookup in Hall. apply (Hall _ _ H).
Qed.

Lemma Forall_mlookup (P : Q -> Prop) (m : list (list Q)) (R C : nat) :
  length m = R -> rect C m ->
  (forall i j, (i < R)%nat -> (j < C)%nat -> exists v, mlookup m i j = Some v /\ P v) ->
  Forall (Forall P) m.
Proof.
  intros HR Hrect H. apply Forall_lookup. intros i row Hrow.
  apply Forall_lookup. intros j x Hx.
  assert (Hi : (i < R)%nat) by (rewrite <- HR; apply lookup_lt_is_Some_1; eauto).
  assert (Hj : (j < C)%nat).
  { unfold rect in Hrect. rewrite Forall_lookup in Hrect.
    rewrite <- (Hrect _ _ Hrow). apply lookup_lt_is_Some_1. eauto. }
  destruct (H i j Hi Hj) as (v & Hv & HP).
  unfold mlookup in Hv. rewrite Hrow in Hv. simpl in Hv. congruence.
Qed.

(** On a constant matrix with at least two columns, a kernel whose
    entries add up to 1 gives the same constant back. *)
Lemma twoDsmooth_constant (Mat : list (list Q)) (R C : nat) (c : Q) (Kernel : positive) :
  length Mat = R -> rect C Mat -> (1 <= R)%nat -> (2 <= C)%nat ->
  Forall (Forall (fun x => x == c)) Mat ->
  kernel_total (averaging_kernel Kernel) == 1 ->
  exists S, twoDsmooth Mat Kernel = Ok S /\ length S = R /\ rect C S /\
            Forall (Forall (fun x => x == c)) S.
Proof.
  intros HR Hrect HR1 HC2 Hconst Htotal.
  destruct (twoDsmooth_entries Mat R C Kernel HR Hrect HR1 HC2)
    as (aug & S & Haug & Hok & Hlen & Hr & Hent).
  exists S. split; [exact Hok|]. split; [exact Hlen|]. split; [exact Hr|].
  apply (Forall_mlookup _ S R C Hlen Hr). intros i j Hi Hj.
  eexists. split; [apply Hent; assumption|].
  set (cc := (Pos.to_nat Kernel / 2)%nat) in *.
  destruct (averaging_kernel_shape Kernel) as [Hk1 Hk2]. fold cc in Hk1, Hk2.
  assert (Hkc : ncols (averaging_kernel Kernel) = (2 * cc + 1)%nat).
  { apply ncols_rect; [lia|exact Hk2]. }
  destruct (flip2_shape _ _ Hk2) as [Hf1 Hf2].
  assert (Hfc : ncols (flip2 (averaging_kernel Kernel)) = (2 * cc + 1)%nat).
  { apply ncols_rect; [lia|exact Hf2]. }
  destruct (augMat_entry Mat R C cc cc HR Hrect HR1 HC2) as (aug' & Hok' & _ & _ & Haent).
  rewrite Haug in Hok'. injection Hok' as <-.
  transitivity (c * kernel_total (averaging_kernel Kernel));
    [|rewrite Htotal; ring].
  apply sum_scaled. unfold conv_terms, kernel_total, nrows.
  rewrite Hf1, Hfc, Hkc, Hk1.
  apply Forall2_flat_map_seq. intros a Ha.
  apply Forall2_map_seq. intros b Hb.
  rewrite (mget_flip2 _ (2 * cc + 1) (2 * cc + 1)) by (try assumption; lia).
  destruct (Haent (i + a)%nat (j + b)%nat ltac:(lia) ltac:(lia)) as (v & Hv & Hm).
  rewrite (mget_mlookup _ _ _ _ Hv).
  rewrite (mlookup_Forall _ _ _ _ _ Hconst Hm). reflexivity.
Qed.

Lemma sum_flat_map_const (f : nat -> list Q) (s : Q) (n0 n : nat) :
  (forall a, (n0 <= a < n0 + n)%nat -> sum (f a) == s) ->
  sum (flat_map f (seq n0 n)) == inject_Z (Z.of_nat n) * s.
Proof.
  revert n0. induction n as [|n IH]; intros n0 H.
  - unfold sum. simpl. change (inject_Z 0) with 0. ring.
  - cbn [seq flat_map]. rewrite sum_app, (H n0 ltac:(lia)), IH.
    + rewrite Nat2Z.inj_succ. unfold Z.succ. rewrite inject_Z_plus.
      change (inject_Z 1) with 1. ring.
    + intros a Ha. apply H. lia.
Qed.

Lemma mget_full (r c i j : nat) (x : Q) :
  (i < r)%nat -> (j < c)%nat -> mget (full r c x) i j = x.
Proof.
  intros Hi Hj. apply mget_mlookup. unfold mlookup, full.
  rewrite lookup_replicate_2 by exact Hi. simpl.
  apply lookup_replicate_2. exact Hj.
Qed.

Lemma sum_map_const {A} (l : list A) (v : Q) :
  sum (map (fun _ => v) l) == inject_Z (Z.of_nat (length l)) * v.
Proof.
  induction l as [|x l IH].
  - unfold sum. simpl. change (inject_Z 0) with 0. ring.
  - cbn [map length]. rewrite Nat2Z.inj_succ. unfold Z.succ. rewrite inject_Z_plus.
    unfold sum in *. simpl. rewrite IH. change (inject_Z 1) with 1. ring.
Qed.

Lemma sum_ext (l l' : list Q) : Forall2 Qeq l l' -> sum l == sum l'.
Proof.
  induction 1 as [|x y l l' Hxy _ IH]; unfold sum in *; simpl; [reflexivity|].
  rewrite IH, Hxy. reflexivity.
Qed.

Lemma sum_flat_map {A} (f : A -> list Q) (l : list A) :
  sum (flat_map f l) == sum (map (fun a => sum (f a)) l).
Proof.
  induction l as [|a l IH]; [reflexivity|].
  cbn [flat_map map]. rewrite sum_app, IH. unfold sum. simpl. reflexivity.
Qed.

Lemma sum_map_ext {A} (f g : A -> Q) (l : list A) :
  (forall a, In a l -> f a == g a) -> sum (map f l) == sum (map g l).
Proof.
  intros H. apply sum_ext. induction l as [|a l IH]; simpl; constructor.
  - apply H. left. reflexivity.
  - apply IH. intros b Hb. apply H. right. exact Hb.
Qed.

Lemma sum_map_half_add {A} (f g : A -> Q) (l : list A) :
  sum (map (fun a => (f a + g a) / 2) l) == (sum (map f l) + sum (map g l)) / 2.
Proof.
  induction l as [|a l IH]; unfold sum in *; simpl.
  - field.
  - rewrite IH. field.
Qed.

(** Adding each term to its predecessor and halving keeps the sum, when
    the term after the last is zero. *)
Lemma sum_half_shift (g : nat -> Q) (n : nat) :
  g n == 0 ->
  sum (map (fun b => (g b + (if (b =? 0)%nat then 0 else g (b - 1)%nat)) / 2)
           (seq 0 (S n)))
  == sum (map g (seq 0 n)).
Proof.
  intros Hn. rewrite sum_map_half_add.
  assert (H1 : sum (map g (seq 0 (S n))) == sum (map g (seq 0 n))).
  { rewrite seq_S, map_app, sum_app. cbn [map Nat.add].
    assert (Hs : sum [g n] == g n) by (unfold sum; simpl; ring).
    rewrite Hs, Hn. ring. }
  assert (H2 : sum (map (fun b => if (b =? 0)%nat then 0 else g (b - 1)%nat) (seq 0 (S n)))
               == sum (map g (seq 0 n))).
  { cbn [seq map Nat.eqb]. rewrite <- seq_shift, map_map.
    assert (Hs : forall l, sum (0 :: l) == sum l) by (intros l; unfold sum; simpl; ring).
    rewrite Hs. apply sum_map_ext. intros a _. cbn [Nat.eqb].
    replace (S a - 1)%nat with a by lia. reflexivity. }
  rewrite H1, H2. field.
Qed.

Lemma kernel_total_rows (K : list (list Q)) :
  kernel_total K
  == sum (map (fun a => sum (map (fun b => mget K a b) (seq 0 (ncols K))))
              (seq 0 (nrows K))).
Proof. unfold kernel_total. apply sum_flat_map. Qed.

Lemma mget_overflow_row (K : list (list Q)) (a b : nat) :
  (length K <= a)%nat -> mget K a b = 0.
Proof.
  intros H. unfold mget. rewrite (nth_overflow K) by exact H. destruct b; reflexivity.
Qed.

Lemma mget_overflow_col (K : list (list Q)) (C a b : nat) :
  rect C K -> (C <= b)%nat -> mget K a b = 0.
Proof.
  intros HC Hb. unfold mget.
  destruct (decide (a < length K)%nat) as [Ha|Ha].
  - destruct (lookup_lt_is_Some_2 K a Ha) as [row Hrow].
    rewrite (nth_lookup_Some _ _ _ _ Hrow). apply nth_overflow.
    unfold rect in HC. rewrite Forall_lookup in HC. rewrite (HC _ _ Hrow). exact Hb.
  - rewrite (nth_overflow K) by lia. destruct b; reflexivity.
Qed.

Lemma mget_convolve_ones12_half (K : list (list Q)) (a b : nat) :
  (a < length K)%nat -> (b <= ncols K)%nat ->
  mget (convolve_ones12_half K) a b
  = (mget K a b + (if (b =? 0)%nat then 0 else mget K a (b - 1))) / 2.
Proof.
  intros Ha Hb. apply mget_mlookup. unfold mlookup, convolve_ones12_half.
  destruct (lookup_lt_is_Some_2 K a Ha) as [row Hrow].
  rewrite list_lookup_fmap, Hrow. cbn [fmap option_fmap option_map mbind option_bind].
  rewrite list_lookup_fmap, lookup_seq_lt by lia.
  unfold mget. rewrite (nth_lookup_Some _ _ _ _ Hrow). reflexivity.
Qed.

Lemma mget_convolve_ones21_half (K : list (list Q)) (a b : nat) :
  (a <= length K)%nat -> (b < ncols K)%nat ->
  mget (convolve_ones21_half K) a b
  = (mget K a b + (if (a =? 0)%nat then 0 else mget K (a - 1) b)) / 2.
Proof.
  intros Ha Hb. apply mget_mlookup. unfold mlookup, convolve_ones21_half.
  rewrite list_lookup_fmap, lookup_seq_lt by (unfold nrows; lia).
  cbn [fmap option_fmap option_map mbind option_bind].
  rewrite list_lookup_fmap, lookup_seq_lt by lia. reflexivity.
Qed.

(** Making a kernel odd-sized keeps the sum of its entries. *)
Lemma kernel_total_convolve_ones12_half (K : list (list Q)) (C : nat) :
  (0 < length K)%nat -> rect C K ->
  kernel_total (convolve_ones12_half K) == kernel_total K.
Proof.
  intros HR HC. rewrite !kernel_total_rows.
  destruct (convolve_ones12_half_shape K) as [S1 R1].
  unfold nrows at 1. rewrite S1.
  rewrite (ncols_rect _ _ ltac:(rewrite S1; exact HR) R1).
  apply sum_map_ext. intros a Ha. apply in_seq in Ha. unfold nrows in Ha.
  erewrite (map_ext_in _ (fun b => (mget K a b
              + (if (b =? 0)%nat then 0 else mget K a (b - 1))) / 2)).
  2:{ intros b Hb. apply in_seq in Hb. apply mget_convolve_ones12_half; lia. }
  apply (sum_half_shift (fun b => mget K a b)).
  rewrite (mget_overflow_col K C); [reflexivity|exact HC|].
  rewrite (ncols_rect K C HR HC). lia.
Qed.

Lemma kernel_total_convolve_ones21_half (K : list (list Q)) (C : nat) :
  (0 < length K)%nat -> rect C K ->
  kernel_total (convolve_ones21_half K) == kernel_total K.
Proof.
  intros HR HC. rewrite !kernel_total_rows.
  destruct (convolve_ones21_half_shape K) as [S1 R1].
  unfold nrows at 1. rewrite S1.
  rewrite (ncols_rect _ _ ltac:(rewrite S1; lia) R1).
  set (rs := fun a => sum (map (fun b => mget K a b) (seq 0 (ncols K)))).
  transitivity (sum (map (fun a => (rs a + (if (a =? 0)%nat then 0 else rs (a - 1)%nat)) / 2)
                         (seq 0 (S (nrows K))))).
  - apply sum_map_ext. intros a Ha. apply in_seq in Ha.
    erewrite (map_ext_in _ (fun b => (mget K a b
                + (if (a =? 0)%nat then 0 else mget K (a - 1) b)) / 2)).
    2:{ intros b Hb. apply in_seq in Hb. apply mget_convolve_ones21_half;
          unfold nrows in *; lia. }
    rewrite sum_map_half_add. unfold rs.
    destruct (a =? 0)%nat; [|reflexivity].
    rewrite sum_map_const, Qmult_0_r. reflexivity.
  - apply (sum_half_shift rs). unfold rs.
    erewrite (map_ext _ (fun _ => 0)).
    2:{ intros b. apply mget_overflow_row. unfold nrows. lia. }
    rewrite sum_map_const. ring.
Qed.

Lemma kernel_total_full (k : positive) :
  kernel_total (full (Pos.to_nat k) (Pos.to_nat k) (1 / inject_Z (Z.pos k) ^ 2)) == 1.
Proof.
  pose proof (Pos2Nat.is_pos k) as Hpos.
  unfold kernel_total, nrows. rewrite ncols_full by lia.
  rewrite (proj1 (full_shape _ _ _)).
  rewrite (sum_flat_map_const _ (inject_Z (Z.pos k) * (1 / inject_Z (Z.pos k) ^ 2))).
  - rewrite positive_nat_Z.
    assert (Hnz : ~ inject_Z (Z.pos k) == 0).
    { unfold Qeq. simpl. lia. }
    simpl. field. exact Hnz.
  - intros a Ha.
    erewrite (map_ext_in _ (fun _ => 1 / inject_Z (Z.pos k) ^ 2)).
    2:{ intros b Hb. apply in_seq in Hb. apply mget_full; lia. }
    rewrite sum_map_const, length_seq, positive_nat_Z. reflexivity.
Qed.

(** The entries of the averaging kernel add up to 1, for every size. *)
Lemma kernel_total_averaging (Kernel : positive) :
  kernel_total (averaging_kernel Kernel) == 1.
Proof.
  pose proof (Pos2Nat.is_pos Kernel) as Hpos.
  unfold averaging_kernel.
  destruct (Pos.to_nat Kernel mod 2 =? 0)%nat.
  - set (K0 := full (Pos.to_nat Kernel) (Pos.to_nat Kernel)
                    (1 / inject_Z (Z.pos Kernel) ^ 2)).
    destruct (full_shape (Pos.to_nat Kernel) (Pos.to_nat Kernel)
                         (1 / inject_Z (Z.pos Kernel) ^ 2)) as [S0 R0].
    fold K0 in S0, R0.
    destruct (convolve_ones21_half_shape K0) as [S1 R1].
    rewrite (kernel_total_convolve_ones12_half _ (ncols K0)) by (try rewrite S1; try lia; exact R1).
    rewrite (kernel_total_convolve_ones21_half _ (Pos.to_nat Kernel)) by (try rewrite S0; try lia; exact R0).
    apply kernel_total_full.
  - apply kernel_total_full.
Qed.

(** On a constant matrix with at least two columns the smoothing gives
    the constant back, in the same shape, for every kernel size. *)
Lemma twoDsmooth_constant_averaging (Mat : list (list Q)) (R C : nat) (c : Q)
    (Kernel : positive) :
  length Mat = R -> rect C Mat -> (1 <= R)%nat -> (2 <= C)%nat ->
  Forall (Forall (fun x => x == c)) Mat ->
  exists S, twoDsmooth Mat Kernel = Ok S /\ length S = R /\ rect C S /\
            Forall (Forall (fun x => x == c)) S.
Proof.
  intros HR Hrect HR1 HC2 Hconst.
  apply (twoDsmooth_constant Mat R C c Kernel); try assumption.
  apply kernel_total_averaging.
Qed.

(** ** The DUET histogram *)

(** *** The maximum of an array *)

Lemma array_max_fold_spec (l : list Q) : forall x,
  let m := fold_left (fun m y => if Qltb m y then y else m) l x in
  (m = x \/ m ∈ l) /\ x <= m /\ Forall (fun y => y <= m) l.
Proof.
  induction l as [|y l IH]; intros x; simpl.
  - split; [left; reflexivity|]. split; [lra|constructor].
  - destruct (Qltb x y) eqn:E.
    + apply Qltb_lt in E. destruct (IH y) as ([H1|H1] & H2 & H3).
      * split; [right; rewrite H1 at 1; left|]. split; [lra|].
        constructor; [exact H2|exact H3].
      * split; [right; right; exact H1|]. split; [lra|].
        constructor; [exact H2|exact H3].
    + apply Qltb_ge in E. destruct (IH x) as ([H1|H1] & H2 & H3).
      * split; [left; exact H1|]. split; [exact H2|].
        constructor; [lra|exact H3].
      * split; [right; right; exact H1|]. split; [exact H2|].
        constructor; [lra|exact H3].
Qed.

(** The maximum of a non-empty array is one of its entries and bounds
    them all. *)
Lemma array_max_spec (d : Q) (l : list Q) :
  l <> [] -> array_max d l ∈ l /\ Forall (fun y => y <= array_max d l) l.
Proof.
  destruct l as [|x l]; [congruence|]. intros _. simpl.
  destruct (array_max_fold_spec l x) as ([H1|H1] & H2 & H3).
  - split; [rewrite H1 at 1; left|]. constructor; assumption.
  - split; [right; exact H1|]. constructor; assumption.
Qed.

Lemma flatten_map_map (f : Q -> Q) (m : list (list Q)) :
  flatten (map (map f) m) = map f (flatten m).
Proof.
  unfold flatten. induction m as [|row m IH]; simpl; [reflexivity|].
  rewrite IH, map_app. reflexivity.
Qed.

Lemma flatten_elem (m : list (list Q)) (x : Q) :
  x ∈ flatten m <-> exists i j, mlookup m i j = Some x.
Proof.
  unfold flatten, mlookup. rewrite list_elem_of_In, in_concat. split.
  - intros (row & Hrow & Hx).
    apply list_elem_of_In, list_elem_of_lookup in Hrow as [i Hi].
    apply list_elem_of_In, list_elem_of_lookup in Hx as [j Hj].
    exists i, j. rewrite Hi. exact Hj.
  - intros (i & j & H). destruct (m !! i) as [row|] eqn:E; [|discriminate].
    simpl in H. exists row. split; apply list_elem_of_In, list_elem_of_lookup; eauto.
Qed.

(** Dividing by a positive maximum gives an array whose maximum is 1,
    with entries between the scaled bounds of the original. *)
Lemma normalize_max_spec (hist : list (list Q)) :
  0 < array_max 0 (flatten hist) ->
  exists hist', normalize_max hist = Finite hist' /\
    hist' = map (map (fun x => x / array_max 0 (flatten hist))) hist /\
    array_max 0 (flatten hist') == 1.
Proof.
  intros Hpos. set (m := array_max 0 (flatten hist)) in *.
  assert (Hne : flatten hist <> []).
  { intros E. unfold m in Hpos. rewrite E in Hpos. simpl in Hpos. lra. }
  destruct (array_max_spec 0 (flatten hist) Hne) as [Hin Hall]. fold m in Hin, Hall.
  exists (map (map (fun x => x / m)) hist).
  split.
  { unfold normalize_max. fold m.
    destruct (Qeq_bool m 0) eqn:E; [|reflexivity].
    apply Qeq_bool_iff in E. lra. }
  split; [reflexivity|].
  rewrite flatten_map_map.
  assert (Hne' : map (fun x => x / m) (flatten hist) <> []).
  { destruct (flatten hist); [congruence|discriminate]. }
  destruct (array_max_spec 0 _ Hne') as [Hin' Hall'].
  set (m' := array_max 0 (map (fun x => x / m) (flatten hist))) in *.
  apply Qle_antisym.
  - apply list_elem_of_fmap in Hin' as (x & -> & Hx).
    rewrite Forall_forall in Hall. specialize (Hall x Hx).
    apply Qle_shift_div_r; lra.
  - rewrite Forall_forall in Hall'.
    assert (Hmm : m / m ∈ map (fun x => x / m) (flatten hist)).
    { apply list_elem_of_fmap. exists m. split; [reflexivity|exact Hin]. }
    specialize (Hall' _ Hmm). 
    assert (Hone : m / m == 1) by (field; lra).
    rewrite <- Hone. exact Hall'.
Qed.

(** A zero maximum leaves no rational quotient. *)
Lemma normalize_max_zero (hist : list (list Q)) :
  array_max 0 (flatten hist) == 0 -> normalize_max hist = NotFinite.
Proof.
  intros H. unfold normalize_max. apply Qeq_bool_iff in H. rewrite H. reflexivity.
Qed.

(** *** Accumulation *)

Lemma mle_refl (H : list (list Q)) : mle H H.
Proof. intros i j v Hv. exists v. split; [exact Hv|lra]. Qed.

Lemma mle_trans (H1 H2 H3 : list (list Q)) : mle H1 H2 -> mle H2 H3 -> mle H1 H3.
Proof.
  intros H12 H23 i j v Hv.
  destruct (H12 i j v Hv) as (v' & Hv' & Hle).
  destruct (H23 i j v' Hv') as (v'' & Hv'' & Hle').
  exists v''. split; [exact Hv''|lra].
Qed.

Lemma add_at_shape (H : list (list Q)) (R C i j : nat) (w : Q) :
  length H = R -> rect C H -> length (add_at H i j w) = R /\ rect C (add_at H i j w).
Proof.
  intros HR Hrect. unfold add_at. split.
  - rewrite length_alter. exact HR.
  - unfold rect in *. apply Forall_alter; [exact Hrect|].
    intros row Hl Hrow. rewrite length_alter. exact Hrow.
Qed.

Lemma mlookup_add_at (H : list (list Q)) (i j i' j' : nat) (w v : Q) :
  mlookup H i' j' = Some v ->
  mlookup (add_at H i j w) i' j' =
    Some (if (Nat.eqb i i' && Nat.eqb j j')%bool then w + v else v).
Proof.
  unfold mlookup, add_at. intros Hv.
  destruct (H !! i') as [row|] eqn:Erow; [|discriminate]. simpl in Hv.
  destruct (Nat.eqb_spec i i') as [->|Hi].
  - rewrite list_lookup_alter_eq, Erow.
    change (alter (Qplus w) j row !! j' =
            Some (if (true && Nat.eqb j j')%bool then w + v else v)).
    destruct (Nat.eqb_spec j j') as [->|Hj].
    + rewrite list_lookup_alter_eq, Hv. reflexivity.
    + rewrite list_lookup_alter_ne by exact Hj. exact Hv.
  - rewrite list_lookup_alter_ne by exact Hi. rewrite Erow. simpl. exact Hv.
Qed.

Lemma accumulate_shape nx ny xr yr (H : list (list Q)) (s : Q * Q * Q) (R C : nat) :
  length H = R -> rect C H ->
  length (accumulate nx ny xr yr H s) = R /\ rect C (accumulate nx ny xr yr H s).
Proof.
  intros HR Hrect. destruct s as [[x y] w]. unfold accumulate.
  destruct (bin_of _ _ nx x); [|auto].
  destruct (bin_of _ _ ny y); [|auto].
  apply add_at_shape; assumption.
Qed.

Lemma accumulate_mle nx ny xr yr (H : list (list Q)) (s : Q * Q * Q) :
  0 <= s.2 -> mle H (accumulate nx ny xr yr H s).
Proof.
  destruct s as [[x y] w]. simpl. intros Hw. unfold accumulate.
  destruct (bin_of _ _ nx x) as [i|]; [|apply mle_refl].
  destruct (bin_of _ _ ny y) as [j|]; [|apply mle_refl].
  intros i' j' v Hv. rewrite (mlookup_add_at _ _ _ _ _ _ _ Hv).
  eexists. split; [reflexivity|]. destruct (_ && _)%bool; lra.
Qed.

Lemma foldl_accumulate_shape nx ny xr yr (l : list (Q * Q * Q)) :
  forall (H : list (list Q)) (R C : nat),
  length H = R -> rect C H ->
  length (foldl (accumulate nx ny xr yr) H l) = R /\
  rect C (foldl (accumulate nx ny xr yr) H l).
Proof.
  induction l as [|s l IH]; intros H R C HR Hrect; simpl; [auto|].
  destruct (accumulate_shape nx ny xr yr H s R C HR Hrect) as [H1 H2].
  apply IH; assumption.
Qed.

Lemma foldl_accumulate_mle nx ny xr yr (l : list (Q * Q * Q)) :
  forall (H : list (list Q)),
  Forall (fun s => 0 <= s.2) l -> mle H (foldl (accumulate nx ny xr yr) H l).
Proof.
  induction l as [|s l IH]; intros H Hall; simpl; [apply mle_refl|].
  apply Forall_cons in Hall as [Hs Hl].
  eapply mle_trans; [apply accumulate_mle; exact Hs|apply IH; exact Hl].
Qed.

(** A sample that falls in bin (i, j) leaves at least its weight there. *)
Lemma foldl_accumulate_hit nx ny xr yr (l : list (Q * Q * Q)) (x y w : Q) (i j : nat) :
  forall (H : list (list Q)) (v0 : Q),
  Forall (fun s => 0 <= s.2) l -> (x, y, w) ∈ l ->
  bin_of xr.1 xr.2 nx x = Some i -> bin_of yr.1 yr.2 ny y = Some j ->
  mlookup H i j = Some v0 -> 0 <= v0 ->
  exists v, mlookup (foldl (accumulate nx ny xr yr) H l) i j = Some v /\ w <= v.
Proof.
  induction l as [|s l IH]; intros H v0 Hall Hin Hi Hj Hv0 Hpos.
  - inversion Hin.
  - apply Forall_cons in Hall as [Hs Hl]. simpl.
    apply elem_of_cons in Hin as [<-|Hin].
    + pose proof (foldl_accumulate_mle nx ny xr yr l
                    (accumulate nx ny xr yr H (x, y, w)) Hl) as Hmle.
      assert (Hv1 : mlookup (accumulate nx ny xr yr H (x, y, w)) i j = Some (w + v0)).
      { unfold accumulate. rewrite Hi, Hj.
        rewrite (mlookup_add_at _ _ _ _ _ _ _ Hv0), !Nat.eqb_refl. reflexivity. }
      destruct (Hmle i j _ Hv1) as (v & Hv & Hle).
      exists v. split; [exact Hv|lra].
    + destruct (accumulate_mle nx ny xr yr H s Hs i j v0 Hv0) as (v1 & Hv1 & Hle).
      apply (IH _ v1); try assumption. lra.
Qed.

(** *** Bins *)

(** A value strictly inside the range falls in one of the [n] bins. *)
Lemma bin_of_inside (lo hi x : Q) (n : nat) :
  lo < x -> x < hi -> (0 < n)%nat -> exists i, bin_of lo hi n x = Some i /\ (i < n)%nat.
Proof.
  intros Hlo Hhi Hn. unfold bin_of.
  replace (Qltb x lo) with false by (symmetry; apply Qltb_ge; lra).
  replace (Qltb hi x) with false by (symmetry; apply Qltb_ge; lra).
  cbn [orb].
  destruct (Qeq_bool x hi) eqn:E; [apply Qeq_bool_iff in E; lra|].
  eexists. split; [reflexivity|].
  set (q := (x - lo) * inject_Z (Z.of_nat n) / (hi - lo)).
  assert (Hn' : 0 < inject_Z (Z.of_nat n)).
  { change 0 with (inject_Z 0). rewrite <- Zlt_Qlt. lia. }
  assert (Hq0 : 0 <= q).
  { unfold q. apply Qle_shift_div_l; [lra|]. rewrite Qmult_0_l.
    apply Qmult_le_0_compat; lra. }
  assert (Hq1 : q < inject_Z (Z.of_nat n)).
  { unfold q. apply Qlt_shift_div_r; [lra|].
    rewrite (Qmult_comm (inject_Z (Z.of_nat n))).
    apply Qmult_lt_compat_r; lra. }
  assert (H0 : (0 <= Qfloor q)%Z).
  { rewrite <- (Qfloor_Z 0). apply Qfloor_resp_le. exact Hq0. }
  assert (H1 : (Qfloor q < Z.of_nat n)%Z).
  { rewrite Zlt_Qlt. pose proof (Qfloor_le q). lra. }
  lia.
Qed.

(** *** The selected points *)

Lemma concat_mzip_with {A B D} (f : A -> B -> D) (a : list (list A)) (b : list (list B)) :
  Forall2 (fun ra rb => length ra = length rb) a b ->
  concat (mzip_with f a b) = zip_with f (concat a) (concat b).
Proof.
  unfold mzip_with. induction 1 as [|ra rb a b Hlen _ IH]; simpl; [reflexivity|].
  rewrite IH. symmetry. apply zip_with_app. exact Hlen.
Qed.

Lemma same_shape_Forall2 {A B} (a : list (list A)) (b : list (list B)) (F T : nat) :
  length a = F -> Forall (fun row => length row = T) a ->
  length b = F -> Forall (fun row => length row = T) b ->
  Forall2 (fun ra rb => length ra = length rb) a b.
Proof.
  intros Ha Hra Hb Hrb. apply Forall2_same_length_lookup_2.
  - congruence.
  - intros i ra rb H1 H2. rewrite Forall_lookup in Hra. rewrite Forall_lookup in Hrb.
    rewrite (Hra _ _ H1), (Hrb _ _ H2). reflexivity.
Qed.

Lemma concat_lookup_rect {A} (m : list (list A)) (T : nat) : forall k t v,
  Forall (fun row => length row = T) m ->
  mlookup m k t = Some v -> concat m !! (k * T + t)%nat = Some v.
Proof.
  induction m as [|row m IH]; intros k t v Hrect H.
  - unfold mlookup in H. rewrite lookup_nil in H. discriminate.
  - apply Forall_cons in Hrect as [Hrow Hm]. simpl. destruct k as [|k].
    + unfold mlookup in H. simpl in H.
      rewrite lookup_app_l; [exact H|]. apply lookup_lt_is_Some_1. eauto.
    + rewrite lookup_app_r by (rewrite Hrow; lia).
      replace (S k * T + t - length row)%nat with (k * T + t)%nat by (rewrite Hrow; lia).
      apply IH; assumption.
Qed.

Lemma concat_length_rect {A} (m : list (list A)) (T : nat) :
  Forall (fun row => length row = T) m -> length (concat m) = (length m * T)%nat.
Proof.
  induction 1 as [|row m Hrow _ IH]; simpl; [reflexivity|].
  rewrite length_app, IH, Hrow. reflexivity.
Qed.

Lemma select_cons {A} (keep : bool) (mask : list bool) (x : A) (l : list A) :
  select (keep :: mask) (x :: l) = if keep then x :: select mask l else select mask l.
Proof. destruct keep; reflexivity. Qed.

Lemma select_nil {A} (mask : list bool) : select mask (@nil A) = [].
Proof. destruct mask; reflexivity. Qed.

Lemma select_zip {A B} (mask : list bool) : forall (la : list A) (lb : list B),
  length la = length lb ->
  zip (select mask la) (select mask lb) = select mask (zip la lb).
Proof.
  induction mask as [|keep mask IH]; intros la lb Hlen; [reflexivity|].
  destruct la as [|x la], lb as [|y lb]; try discriminate.
  - rewrite !select_nil. reflexivity.
  - simpl in Hlen. injection Hlen as Hlen.
    change (zip (x :: la) (y :: lb)) with ((x, y) :: zip la lb).
    rewrite !select_cons. destruct keep.
    + change (zip (x :: select mask la) (y :: select mask lb))
        with ((x, y) :: zip (select mask la) (select mask lb)).
      rewrite IH by exact Hlen. reflexivity.
    + apply IH. exact Hlen.
Qed.


Lemma select_elem_kept {A} (mask : list bool) (l : list A) (n : nat) (x : A) :
  mask !! n = Some true -> l !! n = Some x -> x ∈ select mask l.
Proof.
  intros Hm Hl. unfold select. apply list_elem_of_omap.
  exists (true, x). split; [|reflexivity].
  apply list_elem_of_lookup. exists n.
  rewrite lookup_zip_with, Hm, Hl. reflexivity.
Qed.

Lemma select_elem {A} (mask : list bool) (l : list A) (x : A) :
  x ∈ select mask l -> x ∈ l.
Proof.
  unfold select. intros H. apply list_elem_of_omap in H as ([keep y] & Hin & Hy).
  destruct keep; [|discriminate]. injection Hy as ->.
  apply list_elem_of_lookup in Hin as [n Hn].
  rewrite lookup_zip_with in Hn.
  destruct (mask !! n); [|discriminate]. simpl in Hn.
  destruct (l !! n) as [z|] eqn:E; [|discriminate]. simpl in Hn.
  injection Hn as _ ->. apply list_elem_of_lookup. eauto.
Qed.

(** *** The 3 x 3 kernel *)

Lemma kernel3_nonneg (x y : nat) : 0 <= mget (flip2 (averaging_kernel 3)) x y.
Proof.
  destruct x as [|[|[|x]]]; destruct y as [|[|[|y]]];
    try (vm_compute; discriminate);
    unfold mget; simpl; try (destruct x; simpl); try (destruct y; simpl); lra.
Qed.

Lemma kernel3_center : 0 < mget (flip2 (averaging_kernel 3)) 1 1.
Proof. vm_compute. reflexivity. Qed.

Lemma mlookup_map {A B} (f : A -> B) (m : list (list A)) (k t : nat) :
  mlookup (map (map f) m) k t = f <$> mlookup m k t.
Proof.
  unfold mlookup. rewrite list_lookup_fmap.
  destruct (m !! k) as [row|]; [|reflexivity]. simpl.
  apply list_lookup_fmap.
Qed.

Lemma mlookup_mzip_with_inv {A B D} (f : A -> B -> D) a b k t v :
  mlookup (mzip_with f a b) k t = Some v ->
  exists x y, mlookup a k t = Some x /\ mlookup b k t = Some y /\ v = f x y.
Proof.
  unfold mlookup, mzip_with. rewrite lookup_zip_with.
  destruct (a !! k) as [ra|]; [|discriminate].
  destruct (b !! k) as [rb|]; [|discriminate].
  simpl. rewrite lookup_zip_with.
  destruct (ra !! t) as [x|]; [|discriminate].
  destruct (rb !! t) as [y|]; [|discriminate].
  simpl. intros [= <-]. eauto.
Qed.

Lemma mzip_with_shape {A B D} (f : A -> B -> D) a b (F T : nat) :
  length a = F -> Forall (fun row => length row = T) a ->
  length b = F -> Forall (fun row => length row = T) b ->
  length (mzip_with f a b) = F /\
  Forall (fun row => length row = T) (mzip_with f a b).
Proof.
  intros Ha Hra Hb Hrb. unfold mzip_with. split.
  - rewrite length_zip_with. lia.
  - apply Forall_lookup. intros i row Hrow.
    rewrite lookup_zip_with in Hrow.
    destruct (a !! i) as [ra|] eqn:Ea; [|discriminate].
    destruct (b !! i) as [rb|] eqn:Eb; [|discriminate].
    simpl in Hrow. injection Hrow as <-.
    rewrite Forall_lookup in Hra. rewrite Forall_lookup in Hrb.
    rewrite length_zip_with, (Hra _ _ Ea), (Hrb _ _ Eb). lia.
Qed.

Lemma map_map_shape {A B} (f : A -> B) (m : list (list A)) (F T : nat) :
  length m = F -> Forall (fun row => length row = T) m ->
  length (map (map f) m) = F /\ Forall (fun row => length row = T) (map (map f) m).
Proof.
  intros Hm Hr. split; [rewrite length_map; exact Hm|].
  apply Forall_fmap. eapply Forall_impl; [exact Hr|].
  intros row Hrow. simpl. rewrite length_map. exact Hrow.
Qed.

Lemma tfw_value (x w : Q) : x ^ 1 * Qabs w ^ 0 == x.
Proof. change (x * 1 == x). ring. Qed.

(** The samples the histogram is built from: their weights are not
    negative, and an in-bounds bin of positive weight is among them. *)
Lemma duet_points (A1 A2 wmat alpha delta : list (list Q)) (ad : adparam)
    (F T k t : nat) (a d m1 m2 : Q) :
  length A1 = F -> rect T A1 -> length A2 = F -> rect T A2 ->
  length wmat = F -> rect T wmat ->
  length alpha = F -> rect T alpha -> length delta = F -> rect T delta ->
  Forall (Forall (fun x => 0 <= x)) A1 -> Forall (Forall (fun x => 0 <= x)) A2 ->
  mlookup alpha k t = Some a -> mlookup delta k t = Some d ->
  mlookup A1 k t = Some m1 -> mlookup A2 k t = Some m2 ->
  amin ad < a -> a < amax ad -> dmin ad < d -> d < dmax ad -> 0 < m1 * m2 ->
  let mask := concat (duet_premask ad alpha delta) in
  let pts := zip (zip (select mask (flatten alpha)) (select mask (flatten delta)))
                 (select mask (flatten (duet_tfw A1 A2 wmat))) in
  Forall (fun s : Q * Q * Q => 0 <= s.2) pts /\
  exists w, 0 < w /\ (a, d, w) ∈ pts.
Proof.
  intros H1 R1 H2 R2 Hw Rw Ha Ra Hd Rd N1 N2 La Ld L1 L2 Ba1 Ba2 Bd1 Bd2 Hpos mask pts.
  unfold rect in *.
  assert (Ht : (t < T)%nat).
  { unfold mlookup in La. destruct (alpha !! k) as [row|] eqn:E; [|discriminate].
    simpl in La. rewrite Forall_lookup in Ra. rewrite <- (Ra _ _ E).
    apply lookup_lt_is_Some_1. eauto. }
  assert (Hk : (k < F)%nat).
  { unfold mlookup in La. destruct (alpha !! k) as [row|] eqn:E; [|discriminate].
    rewrite <- Ha. apply lookup_lt_is_Some_1. eauto. }
  destruct (mlookup_rect wmat F T k t Hw Rw Hk Ht) as [wm Lw].
  (* shapes *)
  destruct (mzip_with_shape Qmult A1 A2 F T H1 R1 H2 R2) as [S12 T12].
  destruct (mzip_with_shape (fun m w => m ^ 1 * Qabs w ^ 0) _ wmat F T S12 T12 Hw Rw)
    as [Sw Tw].
  destruct (map_map_shape (fun a => Qltb (amin ad) a && Qltb a (amax ad)) alpha F T Ha Ra)
    as [Sa Ta].
  destruct (map_map_shape (fun d => Qltb (dmin ad) d && Qltb d (dmax ad)) delta F T Hd Rd)
    as [Sd Td].
  destruct (mzip_with_shape andb _ _ F T Sa Ta Sd Td) as [Sm Tm].
  (* the kept position *)
  assert (Lm : mlookup (duet_premask ad alpha delta) k t = Some true).
  { unfold duet_premask.
    erewrite mlookup_mzip_with; [|rewrite mlookup_map, La; reflexivity
                                 |rewrite mlookup_map, Ld; reflexivity].
    f_equal.
    rewrite (proj2 (Qltb_lt _ _) Ba1), (proj2 (Qltb_lt _ _) Ba2),
            (proj2 (Qltb_lt _ _) Bd1), (proj2 (Qltb_lt _ _) Bd2). reflexivity. }
  assert (Lt' : mlookup (duet_tfw A1 A2 wmat) k t = Some ((m1 * m2) ^ 1 * Qabs wm ^ 0)).
  { unfold duet_tfw.
    apply (mlookup_mzip_with (fun m w => m ^ 1 * Qabs w ^ 0) _ _ k t (m1 * m2) wm);
      [|exact Lw].
    apply (mlookup_mzip_with Qmult _ _ k t m1 m2); assumption. }
  pose proof (concat_lookup_rect _ T k t _ Tm Lm) as Cm.
  pose proof (concat_lookup_rect _ T k t _ Ra La) as Ca.
  pose proof (concat_lookup_rect _ T k t _ Rd Ld) as Cd.
  pose proof (concat_lookup_rect _ T k t _ Tw Lt') as Ct.
  (* the three selections are one selection of triples *)
  assert (Epts : pts = select mask (zip (zip (flatten alpha) (flatten delta))
                                        (flatten (duet_tfw A1 A2 wmat)))).
  { assert (Lfa : length (flatten alpha) = (F * T)%nat).
    { unfold flatten. rewrite (concat_length_rect _ T Ra), Ha. reflexivity. }
    assert (Lfd : length (flatten delta) = (F * T)%nat).
    { unfold flatten. rewrite (concat_length_rect _ T Rd), Hd. reflexivity. }
    assert (Lft : length (flatten (duet_tfw A1 A2 wmat)) = (F * T)%nat).
    { unfold flatten, duet_tfw. rewrite (concat_length_rect _ T Tw), Sw. reflexivity. }
    unfold pts. rewrite select_zip by congruence.
    rewrite select_zip; [reflexivity|].
    rewrite length_zip_with. lia. }
  split.
  - apply Forall_forall. intros [[x y] w] Hin. simpl.
    rewrite Epts in Hin. apply select_elem in Hin.
    apply elem_of_zip_r in Hin. simpl in Hin.
    apply flatten_elem in Hin as (i & j & Hij).
    unfold duet_tfw in Hij.
    apply mlookup_mzip_with_inv in Hij as (x12 & w' & Hx & _ & ->).
    apply mlookup_mzip_with_inv in Hx as (x1 & x2 & Hx1 & Hx2 & ->).
    pose proof (mlookup_Forall _ _ _ _ _ N1 Hx1) as P1.
    pose proof (mlookup_Forall _ _ _ _ _ N2 Hx2) as P2.
    simpl in P1, P2. rewrite tfw_value. apply Qmult_le_0_compat; assumption.
  - exists ((m1 * m2) ^ 1 * Qabs wm ^ 0). split; [rewrite tfw_value; exact Hpos|].
    rewrite Epts. apply (select_elem_kept _ _ (k * T + t)); [exact Cm|].
    rewrite lookup_zip_with, lookup_zip_with.
    unfold flatten, duet_tfw. cbv zeta. rewrite Ca, Cd, Ct. reflexivity.
Qed.

(** *** Normalize, smooth, normalize *)

Lemma array_max_ge (l : list Q) (x : Q) : x ∈ l -> x <= array_max 0 l.
Proof.
  intros Hin. assert (Hne : l <> []) by (intros ->; inversion Hin).
  destruct (array_max_spec 0 l Hne) as [_ Hall].
  rewrite Forall_forall in Hall. apply Hall. exact Hin.
Qed.

Lemma mlookup_bounds {A} (m : list (list A)) (R C i j : nat) (v : A) :
  length m = R -> Forall (fun row => length row = C) m ->
  mlookup m i j = Some v -> (i < R)%nat /\ (j < C)%nat.
Proof.
  unfold mlookup. intros HR Hrect H.
  destruct (m !! i) as [row|] eqn:E; [|discriminate]. simpl in H.
  rewrite Forall_lookup in Hrect. split.
  - rewrite <- HR. apply lookup_lt_is_Some_1. eauto.
  - rewrite <- (Hrect _ _ E). apply lookup_lt_is_Some_1. eauto.
Qed.

(** Smoothing a matrix without negative entries over 3 x 3 neighbours
    leaves at least a ninth of every entry in place. *)
Lemma twoDsmooth3_positive (hist : list (list Q)) (R C i0 j0 : nat) (v : Q) :
  length hist = R -> rect C hist -> (1 <= R)%nat -> (2 <= C)%nat ->
  Forall (Forall (fun x => 0 <= x)) hist ->
  mlookup hist i0 j0 = Some v -> 0 < v ->
  exists S s, twoDsmooth hist 3 = Ok S /\ length S = R /\ rect C S /\
    mlookup S i0 j0 = Some s /\ 0 < s.
Proof.
  intros HR Hrect HR1 HC2 Hnn Hv Hpos.
  destruct (mlookup_bounds _ R C _ _ _ HR Hrect Hv) as [Hi0 Hj0].
  destruct (twoDsmooth_entries hist R C 3 HR Hrect HR1 HC2)
    as (aug & S & Haug & Hok & Hlen & Hr & Hent).
  change (Pos.to_nat 3 / 2)%nat with 1%nat in Haug.
  destruct (augMat_entry hist R C 1 1 HR Hrect HR1 HC2) as (aug' & Hok' & _ & _ & Haent).
  rewrite Haug in Hok'. injection Hok' as <-.
  exists S, (sum (conv_terms aug (flip2 (averaging_kernel 3)) i0 j0)).
  split; [exact Hok|]. split; [exact Hlen|]. split; [exact Hr|].
  split; [apply Hent; assumption|].
  set (W := flip2 (averaging_kernel 3)).
  assert (HWr : nrows W = 3%nat) by reflexivity.
  assert (HWc : ncols W = 3%nat) by reflexivity.
  assert (Hterms : Forall (fun x => 0 <= x) (conv_terms aug W i0 j0)).
  { apply Forall_forall. intros x Hx.
    apply conv_terms_elem in Hx as (a & b & Ha & Hb & ->).
    rewrite HWr in Ha. rewrite HWc in Hb.
    destruct (Haent (i0 + a)%nat (j0 + b)%nat ltac:(lia) ltac:(lia)) as (u & Hu & Hm).
    rewrite (mget_mlookup _ _ _ _ Hu).
    pose proof (mlookup_Forall _ _ _ _ _ Hnn Hm) as Hu0. simpl in Hu0.
    apply Qmult_le_0_compat; [exact Hu0|apply kernel3_nonneg]. }
  assert (Hcenter : v * mget W 1 1 ∈ conv_terms aug W i0 j0).
  { apply conv_terms_elem. exists 1%nat, 1%nat. rewrite HWr, HWc.
    split; [lia|]. split; [lia|].
    destruct (Haent (i0 + 1)%nat (j0 + 1)%nat ltac:(lia) ltac:(lia)) as (u & Hu & Hm).
    rewrite (mget_mlookup _ _ _ _ Hu).
    unfold aug_row, aug_col in Hm.
    replace (i0 + 1 <? 1)%nat with false in Hm by (symmetry; apply Nat.ltb_ge; lia).
    replace (i0 + 1 <? 1 + R)%nat with true in Hm by (symmetry; apply Nat.ltb_lt; lia).
    replace (j0 + 1 <? 1)%nat with false in Hm by (symmetry; apply Nat.ltb_ge; lia).
    replace (j0 + 1 <? 1 + C)%nat with true in Hm by (symmetry; apply Nat.ltb_lt; lia).
    replace (i0 + 1 - 1)%nat with i0 in Hm by lia.
    replace (j0 + 1 - 1)%nat with j0 in Hm by lia.
    rewrite Hv in Hm. injection Hm as <-. reflexivity. }
  pose proof (sum_ge_elem _ _ Hterms Hcenter) as Hge.
  pose proof kernel3_center as Hc. fold W in Hc.
  assert (0 < v * mget W 1 1) by (apply Qmult_lt_0_compat; assumption).
  lra.
Qed.

Lemma duet_normalize_smooth_spec (H : list (list Q)) (R C : nat) (ag dg : list Q) :
  length H = R -> rect C H -> (1 <= R)%nat -> (2 <= C)%nat ->
  Forall (Forall (fun x => 0 <= x)) H ->
  0 < array_max 0 (flatten H) ->
  exists hs, duet_normalize_smooth H ag dg = Ok (Finite hs) /\
    normalize_max H = Finite (hist_normalized hs) /\
    array_max 0 (flatten (hist_normalized hs)) == 1 /\
    twoDsmooth (hist_normalized hs) 3 = Ok (hist_smoothed hs) /\
    0 < array_max 0 (flatten (hist_smoothed hs)) /\
    normalize_max (hist_smoothed hs) = Finite (hist_final hs) /\
    array_max 0 (flatten (hist_final hs)) == 1.
Proof.
  intros HR Hrect HR1 HC2 Hnn Hpos.
  set (m := array_max 0 (flatten H)) in *.
  destruct (normalize_max_spec H Hpos) as (hist1 & Hn1 & Eh1 & Hmax1). fold m in Eh1.
  assert (Hne : flatten H <> []).
  { intros E. unfold m in Hpos. rewrite E in Hpos. simpl in Hpos. lra. }
  destruct (array_max_spec 0 (flatten H) Hne) as [Hin _]. fold m in Hin.
  apply flatten_elem in Hin as (i0 & j0 & Hm).
  destruct (map_map_shape (fun x => x / m) H R C HR Hrect) as [S1 R1].
  rewrite <- Eh1 in S1, R1.
  assert (Hnn1 : Forall (Forall (fun x => 0 <= x)) hist1).
  { rewrite Eh1. apply Forall_fmap. eapply Forall_impl; [exact Hnn|].
    intros row Hrow. cbv beta. apply Forall_fmap. eapply Forall_impl; [exact Hrow|].
    intros x Hx. cbv beta in Hx. unfold compose.
    apply Qle_shift_div_l; [exact Hpos|]. rewrite Qmult_0_l. exact Hx. }
  assert (Hm1 : mlookup hist1 i0 j0 = Some (m / m)).
  { rewrite Eh1, mlookup_map, Hm. reflexivity. }
  assert (Hmm : 0 < m / m) by (apply Qlt_shift_div_l; lra).
  destruct (twoDsmooth3_positive hist1 R C i0 j0 (m / m) S1 R1 HR1 HC2 Hnn1 Hm1 Hmm)
    as (hist2 & s & Hok2 & S2 & R2 & Hs & Hspos).
  assert (Hpos2 : 0 < array_max 0 (flatten hist2)).
  { assert (s <= array_max 0 (flatten hist2)).
    { apply array_max_ge. apply flatten_elem. eauto. }
    lra. }
  destruct (normalize_max_spec hist2 Hpos2) as (hist3 & Hn3 & _ & Hmax3).
  exists {| hist_normalized := hist1; hist_smoothed := hist2; hist_final := hist3;
            agrid := ag; dgrid := dg |}.
  simpl. split.
  { unfold duet_normalize_smooth. rewrite Hn1. simpl. rewrite Hok2.
    simpl. rewrite Hn3. reflexivity. }
  repeat split; assumption.
Qed.

(** C5 (as amended). When some time-frequency point has its attenuation
    and delay strictly in bounds and a positive weight, and the histogram
    has at least one attenuation bin and two delay bins, the build step
    of DUET completes: the accumulated histogram has a positive maximum,
    and the maximum is 1 after the first normalization and again after
    the normalization that follows the 3 x 3 smoothing. *)
Theorem duet_histogram_normalized (A1 A2 wmat alpha delta : list (list Q))
    (ad : adparam) (F T k t : nat) (a d m1 m2 : Q) :
  length A1 = F -> rect T A1 -> length A2 = F -> rect T A2 ->
  length wmat = F -> rect T wmat ->
  length alpha = F -> rect T alpha -> length delta = F -> rect T delta ->
  (1 <= anum ad)%nat -> (2 <= dnum ad)%nat ->
  Forall (Forall (fun x => 0 <= x)) A1 -> Forall (Forall (fun x => 0 <= x)) A2 ->
  mlookup alpha k t = Some a -> mlookup delta k t = Some d ->
  mlookup A1 k t = Some m1 -> mlookup A2 k t = Some m2 ->
  amin ad < a -> a < amax ad -> dmin ad < d -> d < dmax ad -> 0 < m1 * m2 ->
  exists H ag dg hs,
    duet_accumulate A1 A2 wmat alpha delta ad = Ok (H, ag, dg) /\
    0 < array_max 0 (flatten H) /\
    duet_histogram A1 A2 wmat alpha delta ad = Ok (Finite hs) /\
    normalize_max H = Finite (hist_normalized hs) /\
    array_max 0 (flatten (hist_normalized hs)) == 1 /\
    twoDsmooth (hist_normalized hs) 3 = Ok (hist_smoothed hs) /\
    normalize_max (hist_smoothed hs) = Finite (hist_final hs) /\
    array_max 0 (flatten (hist_final hs)) == 1.
Proof.
  intros H1 R1 H2 R2 Hw Rw Ha Ra Hd Rd Hnx Hny N1 N2 La Ld L1 L2 Ba1 Ba2 Bd1 Bd2 Hpos.
  destruct (duet_points A1 A2 wmat alpha delta ad F T k t a d m1 m2
              H1 R1 H2 R2 Hw Rw Ha Ra Hd Rd N1 N2 La Ld L1 L2 Ba1 Ba2 Bd1 Bd2 Hpos)
    as (Hall & w & Hwpos & Hin).
  set (pts := zip (zip (select (concat (duet_premask ad alpha delta)) (flatten alpha))
                       (select (concat (duet_premask ad alpha delta)) (flatten delta)))
                  (select (concat (duet_premask ad alpha delta))
                          (flatten (duet_tfw A1 A2 wmat)))) in *.
  set (nx := anum ad) in *. set (ny := dnum ad) in *.
  set (xr := (amin ad, amax ad)). set (yr := (dmin ad, dmax ad)).
  set (H := foldl (accumulate nx ny xr yr) (full nx ny 0) pts).
  assert (Hacc : duet_accumulate A1 A2 wmat alpha delta ad =
                 Ok (H, linspace (amin ad) (amax ad) nx, linspace (dmin ad) (dmax ad) ny)).
  { unfold duet_accumulate, histogram2d. fold nx ny.
    replace (nx =? 0)%nat with false by (symmetry; apply Nat.eqb_neq; lia).
    replace (ny =? 0)%nat with false by (symmetry; apply Nat.eqb_neq; lia).
    cbn [orb fst snd].
    replace (Qltb (amax ad) (amin ad)) with false by (symmetry; apply Qltb_ge; lra).
    replace (Qltb (dmax ad) (dmin ad)) with false by (symmetry; apply Qltb_ge; lra).
    cbn [orb]. unfold widen. cbn [fst snd].
    destruct (Qeq_bool (amin ad) (amax ad)) eqn:E1; [apply Qeq_bool_iff in E1; lra|].
    destruct (Qeq_bool (dmin ad) (dmax ad)) eqn:E2; [apply Qeq_bool_iff in E2; lra|].
    reflexivity. }
  destruct (bin_of_inside (amin ad) (amax ad) a nx Ba1 Ba2 ltac:(lia)) as (i & Hi & Hilt).
  destruct (bin_of_inside (dmin ad) (dmax ad) d ny Bd1 Bd2 ltac:(lia)) as (j & Hj & Hjlt).
  destruct (full_shape nx ny 0) as [S0 R0].
  destruct (foldl_accumulate_shape nx ny xr yr pts _ nx ny S0 R0) as [SH RH].
  fold H in SH, RH.
  assert (Hfull : forall i' j', (i' < nx)%nat -> (j' < ny)%nat ->
                    mlookup (full nx ny 0) i' j' = Some 0).
  { intros i' j' Hi' Hj'. unfold mlookup, full.
    rewrite lookup_replicate_2 by exact Hi'. simpl.
    apply lookup_replicate_2. exact Hj'. }
  destruct (foldl_accumulate_hit nx ny xr yr pts a d w i j (full nx ny 0) 0
              Hall Hin Hi Hj (Hfull i j Hilt Hjlt) ltac:(lra)) as (v & Hv & Hwv).
  fold H in Hv.
  assert (HnnH : Forall (Forall (fun x => 0 <= x)) H).
  { apply (Forall_mlookup _ H nx ny SH RH). intros i' j' Hi' Hj'.
    destruct (foldl_accumulate_mle nx ny xr yr pts (full nx ny 0) Hall i' j' 0
                (Hfull i' j' Hi' Hj')) as (v' & Hv' & Hle).
    exists v'. split; assumption. }
  assert (HposH : 0 < array_max 0 (flatten H)).
  { assert (v <= array_max 0 (flatten H)).
    { apply array_max_ge. apply flatten_elem. eauto. }
    lra. }
  destruct (duet_normalize_smooth_spec H nx ny
              (linspace (amin ad) (amax ad) nx) (linspace (dmin ad) (dmax ad) ny)
              SH RH Hnx Hny HnnH HposH)
    as (hs & Hns & Hn1 & Hm1 & Hsm & _ & Hn3 & Hm3).
  exists H, (linspace (amin ad) (amax ad) nx), (linspace (dmin ad) (dmax ad) ny), hs.
  split; [exact Hacc|]. split; [exact HposH|].
  split.
  { unfold duet_histogram. rewrite Hacc. simpl. exact Hns. }
  repeat split; assumption.
Qed.

Lemma duet_histogram_normalized_witness :
  let A1 : list (list Q) := [[1; 2]] in
  let A2 : list (list Q) := [[1; 1]] in
  let wmat : list (list Q) := [[1; 1]] in
  let alpha : list (list Q) := [[0.5; 0.2]] in
  let delta : list (list Q) := [[0.3; -0.5]] in
  let ad := {| amin := -1; amax := 1; anum := 2; dmin := -1; dmax := 1; dnum := 2 |} in
  exists H ag dg hs,
    duet_accumulate A1 A2 wmat alpha delta ad = Ok (H, ag, dg) /\
    0 < array_max 0 (flatten H) /\
    duet_histogram A1 A2 wmat alpha delta ad = Ok (Finite hs) /\
    normalize_max H = Finite (hist_normalized hs) /\
    array_max 0 (flatten (hist_normalized hs)) == 1 /\
    twoDsmooth (hist_normalized hs) 3 = Ok (hist_smoothed hs) /\
    normalize_max (hist_smoothed hs) = Finite (hist_final hs) /\
    array_max 0 (flatten (hist_final hs)) == 1.
Proof.
  apply (duet_histogram_normalized [[1; 2]] [[1; 1]] [[1; 1]] [[0.5; 0.2]] [[0.3; -0.5]]
           {| amin := -1; amax := 1; anum := 2; dmin := -1; dmax := 1; dnum := 2 |}
           1 2 0 0 0.5 0.3 1 1);
    try reflexivity; try (repeat constructor; discriminate); simpl; lia.
Defined.

(** C5, as stated, fails on silence: both spectrograms are zero, every
    point is in bounds (attenuation and delay 0) with weight 0, the
    accumulated histogram is zero, and its quotient by its maximum is
    not a number; no histogram of maximum 1 is produced. *)
Lemma duet_histogram_silent_input :
  let Z : list (list Q) := [[0; 0]] in
  let wmat : list (list Q) := [[1; 1]] in
  let ad := {| amin := -1; amax := 1; anum := 2; dmin := -1; dmax := 1; dnum := 2 |} in
  (exists H ag dg, duet_accumulate Z Z wmat Z Z ad = Ok (H, ag, dg) /\
                   array_max 0 (flatten H) == 0) /\
  ~ (exists hs, duet_histogram Z Z wmat Z Z ad = Ok (Finite hs) /\
                array_max 0 (flatten (hist_normalized hs)) == 1 /\
                array_max 0 (flatten (hist_final hs)) == 1).
Proof.
  split.
  - eexists _, _, _. split; [vm_compute; reflexivity|]. vm_compute. reflexivity.
  - intros (hs & H & _). vm_compute in H. discriminate.
Qed.

(** ** The DUET estimator on a mono mixture *)

Section DuetFacts.

Context {C : Type}.
Variable f_stft : list Q -> sparam -> list (list C) * list Q * list Q.
Variable f_istft : list (list C) -> sparam -> list Q.
Variable Cabs : C -> Q.
Variable atn_delay : C -> C -> Q -> Q * Q.
Variable ml_score : Q -> Q -> Q -> C -> C -> Q.
Variable demix : Q -> Q -> Q -> C -> C -> C.
Variable Czero : C.
Variable sqrt : Q -> Q.
Variable two_pi : Q.

(** The spectrogram of the first channel is computed, then the second
    row of the mixture is asked for and is not there. *)
Lemma duet_spectrograms_mono (x : list (list Q)) (sp : sparam) :
  length x = 1%nat ->
  duet_spectrograms f_stft two_pi x sp = Err InvalidChannelCount.
Proof.
  intros Hlen. destruct x as [|row [|row' x]]; try discriminate.
  unfold duet_spectrograms, channel. simpl.
  destruct (f_stft row sp) as [[X1 F] T']. reflexivity.
Qed.

(** C9. On a mixture with a single channel the estimator fails with
    [InvalidChannelCount], whatever the parameters; nothing is returned. *)
Theorem duet_mono_rejected (x : list (list Q)) (sp : sparam) (ad : adparam) (pr : Pr) :
  length x = 1%nat ->
  duet f_stft f_istft Cabs atn_delay ml_score demix Czero sqrt two_pi x sp ad pr
    = Err InvalidChannelCount.
Proof.
  intros Hlen. unfold duet.
  rewrite (duet_spectrograms_mono x sp Hlen). reflexivity.
Qed.

End DuetFacts.

Lemma duet_mono_rejected_witness :
  let f_stft := fun (_ : list Q) (_ : sparam) => (@nil (list Q), @nil Q, @nil Q) in
  let f_istft := fun (_ : list (list Q)) (_ : sparam) => @nil Q in
  let id1 := fun x : Q => x in
  let sp := {| winlen := 4; wintype := Hamming; overlap := 2; numfreq := 4;
               sampfreq := 44100 |} in
  let ad := {| amin := -3; amax := 3; anum := 50; dmin := -3; dmax := 3; dnum := 50 |} in
  let pr := {| thr := 0.2; a_mindist := 5; d_mindist := 5; num_sources := 2 |} in
  duet f_stft f_istft id1 (fun _ _ _ => (0, 0)) (fun _ _ _ _ _ => 0)
       (fun _ _ _ _ _ => 0) 0 id1 6.283 [[0; 0; 0; 0; 0; 0; 0; 0]] sp ad pr
    = Err InvalidChannelCount.
Proof.
  intros f_stft f_istft id1 sp ad pr.
  apply (duet_mono_rejected f_stft f_istft id1 (fun _ _ _ => (0, 0))
           (fun _ _ _ _ _ => 0) (fun _ _ _ _ _ => 0) 0 id1 6.283
           [[0; 0; 0; 0; 0; 0; 0; 0]] sp ad pr).
  reflexivity.
Defined.

(** ** Audio buffers *)

Lemma combine_channel_mismatch (f : Q -> Q -> Q) (self other : AudioSignal.t)
    (h : heap) (a b : list (list Q)) :
  read h (AudioSignal.audio_data self) = Ok a ->
  read h (AudioSignal.audio_data other) = Ok b ->
  nrows a <> nrows b ->
  AudioSignal.combine f self other h = Err ChannelMismatch.
Proof.
  intros Ha Hb Hne. unfold AudioSignal.combine. rewrite Ha, Hb. simpl.
  replace (nrows a =? nrows b)%nat with false by (symmetry; apply Nat.eqb_neq; exact Hne).
  reflexivity.
Qed.

Lemma combine_rate_mismatch (f : Q -> Q -> Q) (self other : AudioSignal.t)
    (h : heap) (a b : list (list Q)) :
  read h (AudioSignal.audio_data self) = Ok a ->
  read h (AudioSignal.audio_data other) = Ok b ->
  nrows a = nrows b ->
  AudioSignal.sample_rate self <> AudioSignal.sample_rate other ->
  AudioSignal.combine f self other h = Err RateMismatch.
Proof.
  intros Ha Hb He Hne. unfold AudioSignal.combine. rewrite Ha, Hb. simpl.
  rewrite He, Nat.eqb_refl. simpl.
  replace (AudioSignal.sample_rate self =? AudioSignal.sample_rate other)%Z with false
    by (symmetry; apply Z.eqb_neq; exact Hne).
  reflexivity.
Qed.

Lemma copy_inplace_frame (f : Q -> Q -> Q) (h h1 h2 : heap) (src combined : ndarray)
    (n : nat) (b : list (list Q)) :
  np_copy h src = Ok (combined, h1) ->
  inplace_rows f h1 combined n b = Ok h2 ->
  base combined = fresh (dom h) /\ h !! base combined = None /\
  forall l, l <> base combined -> h2 !! l = h !! l.
Proof.
  unfold np_copy, inplace_rows. intros Hc Hi.
  destruct (read h src) as [m|e]; [|discriminate].
  cbn [mbind result_bind] in Hc. injection Hc as <- <-. cbn [base] in *.
  rewrite lookup_insert_eq in Hi.
  destruct (_ && _)%bool; [|discriminate]. injection Hi as <-.
  split; [reflexivity|]. split.
  - apply not_elem_of_dom. apply is_fresh.
  - intros l Hl. rewrite !lookup_insert_ne by congruence. reflexivity.
Qed.

(** A successful Add or Subtract puts its result in a buffer that did
    not exist before and leaves every other buffer, the operands among
    them, as it was. *)
Lemma combine_frame (f : Q -> Q -> Q) (self other r : AudioSignal.t) (h h' : heap) :
  AudioSignal.combine f self other h = Ok (r, h') ->
  h !! base (AudioSignal.audio_data r) = None /\
  forall l, l <> base (AudioSignal.audio_data r) -> h' !! l = h !! l.
Proof.
  unfold AudioSignal.combine. intros H.
  destruct (read h (AudioSignal.audio_data self)) as [a|e]; simpl in H; [|discriminate].
  destruct (read h (AudioSignal.audio_data other)) as [b|e]; simpl in H; [|discriminate].
  destruct (negb (nrows a =? nrows b)%nat); [discriminate|].
  destruct (negb (AudioSignal.sample_rate self =? AudioSignal.sample_rate other)%Z);
    [discriminate|].
  destruct (AudioSignal.size b <? AudioSignal.size a)%nat.
  - destruct (np_copy h (AudioSignal.audio_data self)) as [[combined h1]|e] eqn:Ec;
      simpl in H; [|discriminate].
    destruct (inplace_rows f h1 combined (AudioSignal.size b) b) as [h2|e] eqn:Ei;
      simpl in H; [|discriminate].
    injection H as <- <-. simpl.
    destruct (copy_inplace_frame f h h1 h2 _ combined _ b Ec Ei) as (_ & H1 & H2).
    split; assumption.
  - destruct (np_copy h (AudioSignal.audio_data other)) as [[combined h1]|e] eqn:Ec;
      simpl in H; [|discriminate].
    destruct (inplace_rows f h1 combined (AudioSignal.size a) a) as [h2|e] eqn:Ei;
      simpl in H; [|discriminate].
    injection H as <- <-. simpl.
    destruct (copy_inplace_frame f h h1 h2 _ combined _ a Ec Ei) as (_ & H1 & H2).
    split; assumption.
Qed.

(** On two buffers of one shape the in-place operation is applied to a
    copy of [other] with [self] as its right operand: entry (i, j) of
    the result is [f other[i, j] self[i, j]]. *)
Lemma combine_equal_shape (f : Q -> Q -> Q) (self other : AudioSignal.t) (h : heap)
    (a b : list (list Q)) (F T : nat) :
  transposed (AudioSignal.audio_data self) = false ->
  transposed (AudioSignal.audio_data other) = false ->
  h !! base (AudioSignal.audio_data self) = Some a ->
  h !! base (AudioSignal.audio_data other) = Some b ->
  length a = F -> rect T a -> length b = F -> rect T b ->
  (1 <= F)%nat -> (1 <= T)%nat ->
  AudioSignal.sample_rate self = AudioSignal.sample_rate other ->
  exists r h' m, AudioSignal.combine f self other h = Ok (r, h') /\
    read h' (AudioSignal.audio_data r) = Ok m /\
    forall i j x y, mlookup a i j = Some x -> mlookup b i j = Some y ->
      mlookup m i j = Some (f y x).
Proof.
  intros Hts Hto Hs Ho Ha Ra Hb Rb HF HT Hrate.
  assert (Na : ncols a = T) by (apply ncols_rect; [lia|exact Ra]).
  assert (Nb : ncols b = T) by (apply ncols_rect; [lia|exact Rb]).
  unfold AudioSignal.combine, read. rewrite Hs, Ho, Hts, Hto. simpl.
  unfold nrows. rewrite Ha, Hb, Nat.eqb_refl, Hrate, Z.eqb_refl. simpl.
  unfold AudioSignal.size, nrows. rewrite Ha, Hb, Na, Nb, Nat.ltb_irrefl.
  unfold np_copy, read. rewrite Ho, Hto. simpl.
  unfold inplace_rows. simpl. rewrite lookup_insert_eq.
  unfold nrows. rewrite Ha, Hb, Na, Nb.
  replace (Nat.min (F * T) F) with F by nia.
  rewrite !Nat.eqb_refl. simpl.
  eexists _, _, _. split; [reflexivity|]. simpl.
  unfold read. simpl. rewrite lookup_insert_eq. split; [reflexivity|].
  intros i j x y Hx Hy.
  destruct (mlookup_bounds _ F T _ _ _ Ha Ra Hx) as [Hi Hj].
  unfold mlookup in *.
  destruct (b !! i) as [row|] eqn:Erow; [|discriminate]. simpl in Hy.
  rewrite list_lookup_imap, Erow. simpl.
  replace (i <? F)%nat with true by (symmetry; apply Nat.ltb_lt; exact Hi).
  rewrite list_lookup_imap, Hy. simpl. do 2 f_equal.
  replace (if (F =? 1)%nat then 0%nat else i) with i
    by (destruct (Nat.eqb_spec F 1); lia).
  replace (if (T =? 1)%nat then 0%nat else j) with j
    by (destruct (Nat.eqb_spec T 1); lia).
  apply mget_mlookup. unfold mlookup. exact Hx.
Qed.

(** Two mono buffers of three and two samples are not added: the slice
    [combined[0:2]] is taken along the channel axis, so it is the whole
    1 x 3 array, and the 1 x 2 operand cannot be broadcast to it. *)
Lemma add_unequal_length_rejected :
  let h : heap := <[2%positive := [[10; 20]]]> (<[1%positive := [[1; 2; 3]]]> ∅) in
  let self := {| AudioSignal.audio_data := {| base := 1%positive; transposed := false |};
                 AudioSignal.sample_rate := 44100 |} in
  let other := {| AudioSignal.audio_data := {| base := 2%positive; transposed := false |};
                  AudioSignal.sample_rate := 44100 |} in
  AudioSignal.add self other h = Err ShapeMismatch.
Proof. vm_compute. reflexivity. Qed.

(** The first version keeps one column per channel; there the slice is
    along time and a shorter mono buffer is added to the head of the
    longer one.  It does not compare sample rates. *)
Lemma first_version_add_zero_extends :
  let h : heap := <[2%positive := [[10]; [20]]]> (<[1%positive := [[1]; [2]; [3]]]> ∅) in
  let self := {| AudioSignal0.AudioData := {| base := 1%positive; transposed := false |};
                 AudioSignal0.nChannels := 1; AudioSignal0.SampleRate := 44100 |} in
  let other := {| AudioSignal0.AudioData := {| base := 2%positive; transposed := false |};
                  AudioSignal0.nChannels := 1; AudioSignal0.SampleRate := 8000 |} in
  exists r h',
    AudioSignal0.add self other h = Ok (r, h') /\
    read h' (AudioSignal0.AudioData r) = Ok [[1 + 10]; [2 + 20]; [3]].
Proof.
  eexists _, _. split; vm_compute; reflexivity.
Qed.

(** C8. Subtract on two mono buffers of one sample each, 0.5 and 0.25,
    at the same sample rate: the new buffer holds 0.25 - 0.5 = -0.25,
    the difference taken the wrong way round, where the contract asks
    for 0.5 - 0.25; both operands are as they were. *)
Theorem sub_equal_length_reversed :
  let h : heap := <[2%positive := [[0.25]]]> (<[1%positive := [[0.5]]]> ∅) in
  let self := {| AudioSignal.audio_data := {| base := 1%positive; transposed := false |};
                 AudioSignal.sample_rate := 44100 |} in
  let other := {| AudioSignal.audio_data := {| base := 2%positive; transposed := false |};
                  AudioSignal.sample_rate := 44100 |} in
  exists r h' x,
    AudioSignal.sub self other h = Ok (r, h') /\
    read h' (AudioSignal.audio_data r) = Ok [[x]] /\ x == -0.25 /\
    Forall2 (Forall2 Qeq) (zero_extended Qminus [[0.5]] [[0.25]]) [[0.25]] /\
    h' !! 1%positive = Some [[0.5]] /\ h' !! 2%positive = Some [[0.25]].
Proof.
  eexists _, _, _. split; [vm_compute; reflexivity|].
  split; [vm_compute; reflexivity|].
  split; [vm_compute; reflexivity|].
  split; [repeat constructor|].
  split; vm_compute; reflexivity.
Qed.

(** ** The similarity matrix *)

Section SimilarityFacts.

Variable sqrt : Q -> Q.
Variable EPSILON : Q.

Lemma partly_normalized_shape (buf : list (list Q)) (F T i : nat) :
  length buf = F -> rect T buf ->
  length (partly_normalized sqrt EPSILON buf i) = F /\
  rect T (partly_normalized sqrt EPSILON buf i).
Proof.
  intros HF HT. unfold partly_normalized. split; [rewrite length_map; exact HF|].
  unfold rect. apply Forall_fmap. eapply Forall_impl; [exact HT|].
  intros row Hrow. unfold compose. rewrite length_imap. exact Hrow.
Qed.

Lemma partly_normalized_0 (buf : list (list Q)) :
  partly_normalized sqrt EPSILON buf 0 = buf.
Proof.
  unfold partly_normalized. rewrite <- (map_id buf) at 2.
  apply map_ext. intros row. apply list_eq. intros j.
  rewrite list_lookup_imap. destruct (row !! j); reflexivity.
Qed.

Lemma partly_normalized_all (buf : list (list Q)) (T : nat) :
  rect T buf ->
  partly_normalized sqrt EPSILON buf T = normalized_columns sqrt EPSILON buf.
Proof.
  intros HT. unfold partly_normalized, normalized_columns.
  apply map_ext_in. intros row Hrow. apply list_eq. intros j.
  rewrite !list_lookup_imap. destruct (row !! j) as [x|] eqn:E; [|reflexivity].
  simpl. unfold rect in HT. rewrite Forall_forall in HT.
  assert (Hj : (j < T)%nat).
  { rewrite <- (HT row); [apply lookup_lt_is_Some_1; eauto|].
    apply list_elem_of_In. exact Hrow. }
  replace (j <? T)%nat with true by (symmetry; apply Nat.ltb_lt; exact Hj).
  reflexivity.
Qed.

(** Column [i] of the buffer has not been touched after [i] turns. *)
Lemma partly_normalized_column (buf : list (list Q)) (T i : nat) :
  rect T buf -> (i < T)%nat ->
  column (partly_normalized sqrt EPSILON buf i) i = column buf i.
Proof.
  intros HT Hi. unfold column, partly_normalized. rewrite map_map.
  apply map_ext_in. intros row Hrow.
  unfold rect in HT. rewrite Forall_forall in HT.
  assert (Hlen : length row = T) by (apply HT, list_elem_of_In; exact Hrow).
  destruct (lookup_lt_is_Some_2 row i ltac:(lia)) as [x Hx].
  rewrite (nth_lookup_Some _ _ _ x Hx).
  apply nth_lookup_Some. rewrite list_lookup_imap, Hx. simpl.
  rewrite Nat.ltb_irrefl. reflexivity.
Qed.

(** Writing the normalized column [i] is one more turn. *)
Lemma partly_normalized_step (buf : list (list Q)) (T i : nat) :
  rect T buf -> (i < T)%nat ->
  set_column (partly_normalized sqrt EPSILON buf i) i
             (normalize_vector sqrt EPSILON (column buf i))
  = partly_normalized sqrt EPSILON buf (S i).
Proof.
  intros HT Hi. unfold set_column, partly_normalized, normalize_vector, column.
  rewrite map_map. apply list_eq. intros f.
  rewrite lookup_zip_with, !list_lookup_fmap.
  destruct (buf !! f) as [row|] eqn:Erow; [|reflexivity]. simpl.
  f_equal. apply list_eq. intros j.
  unfold rect in HT. rewrite Forall_lookup in HT. pose proof (HT _ _ Erow) as Hlen.
  destruct (decide (j = i)) as [->|Hne].
  - rewrite list_lookup_insert_eq by (rewrite length_imap; lia).
    rewrite list_lookup_imap.
    destruct (lookup_lt_is_Some_2 row i ltac:(lia)) as [x Hx].
    rewrite Hx. simpl.
    replace (i <? S i)%nat with true by (symmetry; apply Nat.ltb_lt; lia).
    rewrite (nth_lookup_Some _ _ _ x Hx). reflexivity.
  - rewrite list_lookup_insert_ne by congruence.
    rewrite !list_lookup_imap. destruct (row !! j) as [x|]; [|reflexivity].
    simpl. f_equal.
    destruct (Nat.ltb_spec j i), (Nat.ltb_spec j (S i)); try reflexivity; lia.
Qed.

Lemma transpose_lookup (m : list (list Q)) (i : nat) :
  (i < ncols m)%nat -> transpose m !! i = Some (column m i).
Proof.
  intros Hi. unfold transpose. rewrite list_lookup_fmap, lookup_seq_lt by exact Hi.
  reflexivity.
Qed.

(** The loop over the rows of the transposed view, started at row [i]
    with [n] rows to go. *)
Lemma normalize_rows_spec (X : ndarray) (h : heap) (buf : list (list Q)) (F Tn : nat) :
  transposed X = true -> length buf = F -> rect Tn buf -> (1 <= F)%nat ->
  forall n i, (i + n = Tn)%nat ->
    normalize_rows sqrt EPSILON X n i
      (<[base X := partly_normalized sqrt EPSILON buf i]> h)
    = Ok (<[base X := partly_normalized sqrt EPSILON buf Tn]> h).
Proof.
  intros Htr HF HT HF1. induction n as [|n IH]; intros i Hin.
  - simpl. replace i with Tn by lia. reflexivity.
  - cbn [normalize_rows].
    destruct (partly_normalized_shape buf F Tn i HF HT) as [Sp Rp].
    assert (Nc : ncols (partly_normalized sqrt EPSILON buf i) = Tn).
    { apply ncols_rect; [lia|exact Rp]. }
    assert (Hget : get_row (<[base X := partly_normalized sqrt EPSILON buf i]> h) X i
                   = Ok (column buf i)).
    { unfold get_row, read. rewrite lookup_insert_eq, Htr.
      cbn [mbind result_bind].
      rewrite transpose_lookup by (rewrite Nc; lia).
      rewrite (partly_normalized_column buf Tn i HT ltac:(lia)). reflexivity. }
    assert (Hset : set_row (<[base X := partly_normalized sqrt EPSILON buf i]> h) X i
                     (normalize_vector sqrt EPSILON (column buf i))
                   = Ok (<[base X := partly_normalized sqrt EPSILON buf (S i)]> h)).
    { unfold set_row. rewrite lookup_insert_eq, Htr, Nc.
      replace (i <? Tn)%nat with true by (symmetry; apply Nat.ltb_lt; lia).
      unfold normalize_vector at 1. rewrite length_map.
      unfold column at 1. rewrite length_map. unfold nrows. rewrite Sp, HF, Nat.eqb_refl.
      cbn [andb]. rewrite insert_insert_eq.
      rewrite (partly_normalized_step buf Tn i HT ltac:(lia)). reflexivity. }
    rewrite Hget. cbn [mbind result_bind]. rewrite Hset. cbn [mbind result_bind].
    apply IH. lia.
Qed.

Lemma transpose_shape (m : list (list Q)) (F T : nat) :
  length m = F -> rect T m -> (1 <= F)%nat -> (1 <= T)%nat ->
  nrows (transpose m) = T /\ ncols (transpose m) = F.
Proof.
  intros HF HT HF1 HT1. unfold transpose, nrows.
  rewrite (ncols_rect m T) by (try lia; exact HT).
  split; [rewrite length_map, length_seq; reflexivity|].
  unfold ncols. destruct T as [|T]; [lia|]. simpl.
  unfold column. rewrite length_map. exact HF.
Qed.


End SimilarityFacts.

Lemma sqrt_floor_nonneg (q : Q) : 0 <= sqrt_floor q.
Proof.
  unfold sqrt_floor, Qle. simpl. pose proof (Z.sqrt_nonneg (Qnum q)). lia.
Qed.


(** On that input the first column, of norm 5, becomes (3/5, 4/5) up to
    the regularization, and the caller's array has changed. *)
Lemma ComputeSimilarityMatrix_example :
  let X := {| base := 1%positive; transposed := false |} in
  let h : heap := <[1%positive := [[3; 0]; [4; 2]]]> ∅ in
  exists S h' x,
    ComputeSimilarityMatrix sqrt_floor 0 X h = Ok (S, h') /\
    h' !! 1%positive = Some [[x; 0 / 2]; [4 / 5; 2 / 2]] /\ x == 3 / 5.
Proof.
  eexists _, _, _. split; [vm_compute; reflexivity|].
  split; vm_compute; reflexivity.
Qed.


(** ** The first maximum *)

Lemma argmax_from_spec (v : vector) : forall best besti i,
  let r := argmax_from best besti i v in
  (r = besti /\ forall j x, v !! j = Some x -> x <= best) \/
  (exists j m, r = (i + j)%nat /\ v !! j = Some m /\ best < m /\
     (forall j' x, v !! j' = Some x -> x <= m) /\
     (forall j' x, (j' < j)%nat -> v !! j' = Some x -> x < m)).
Proof.
  induction v as [|y v IH]; intros best besti i; simpl.
  - left. split; [reflexivity|]. intros j x Hx. discriminate.
  - destruct (Qltb best y) eqn:E.
    + apply Qltb_lt in E. right.
      destruct (IH y i (S i)) as [[Hr Hall]|(j & m & Hr & Hm & Hlt & Hall & Hfirst)].
      * exists 0%nat, y. split; [rewrite Hr; lia|]. split; [reflexivity|].
        split; [exact E|]. split.
        -- intros [|j'] x Hx; simpl in Hx.
           ++ injection Hx as <-. lra.
           ++ eapply Hall. exact Hx.
        -- intros j' x Hj'. lia.
      * exists (S j), m. split; [rewrite Hr; lia|]. split; [exact Hm|].
        split; [lra|]. split.
        -- intros [|j'] x Hx; simpl in Hx.
           ++ injection Hx as <-. lra.
           ++ eapply Hall. exact Hx.
        -- intros [|j'] x Hj' Hx; simpl in Hx.
           ++ injection Hx as <-. exact Hlt.
           ++ eapply Hfirst; [|exact Hx]. lia.
    + apply Qltb_ge in E.
      destruct (IH best besti (S i)) as [[Hr Hall]|(j & m & Hr & Hm & Hlt & Hall & Hfirst)].
      * left. split; [exact Hr|].
        intros [|j'] x Hx; simpl in Hx.
        -- injection Hx as <-. exact E.
        -- eapply Hall. exact Hx.
      * right. exists (S j), m. split; [rewrite Hr; lia|]. split; [exact Hm|].
        split; [exact Hlt|]. split.
        -- intros [|j'] x Hx; simpl in Hx.
           ++ injection Hx as <-. lra.
           ++ eapply Hall. exact Hx.
        -- intros [|j'] x Hj' Hx; simpl in Hx.
           ++ injection Hx as <-. lra.
           ++ eapply Hfirst; [|exact Hx]. lia.
Qed.

(** [argmax] of a non-empty vector is the first position of its largest
    entry. *)
Lemma argmax_spec (v : vector) :
  v <> [] ->
  exists m, v !! argmax v = Some m /\
    (forall j x, v !! j = Some x -> x <= m) /\
    (forall j x, (j < argmax v)%nat -> v !! j = Some x -> x < m).
Proof.
  destruct v as [|y v]; [congruence|]. intros _. unfold argmax.
  destruct (argmax_from_spec v y 0%nat 1%nat)
    as [[Hr Hall]|(j & m & Hr & Hm & Hlt & Hall & Hfirst)].
  - rewrite Hr. exists y. split; [reflexivity|]. split.
    + intros [|j] x Hx; simpl in Hx.
      * injection Hx as <-. lra.
      * eapply Hall. exact Hx.
    + intros j x Hj. lia.
  - rewrite Hr. exists m. split; [exact Hm|]. split.
    + intros [|j'] x Hx; simpl in Hx.
      * injection Hx as <-. lra.
      * eapply Hall. exact Hx.
    + intros [|j'] x Hj' Hx; simpl in Hx.
      * injection Hx as <-. exact Hlt.
      * eapply Hfirst; [|exact Hx]. simpl in Hj'. lia.
Qed.

(** ** Slices *)

(** A slice with bounds [0 <= a <= b]: entry [j] of the slice is entry
    [a + j] of the list. *)
Lemma py_slice_lookup {A} (l : list A) (a b : Z) (j : nat) :
  (0 <= a <= b)%Z ->
  py_slice a b l !! j =
    if decide (Z.of_nat j < Z.min b (Z.of_nat (length l)) - a)%Z
    then l !! (Z.to_nat a + j)%nat else None.
Proof.
  intros Hab. unfold py_slice, slice_bound.
  destruct (Z.ltb_spec a 0); [lia|]. destruct (Z.ltb_spec b 0); [lia|].
  rewrite lookup_take.
  destruct (decide (j < Z.to_nat (Z.min b (Z.of_nat (length l)))
                       - Z.to_nat (Z.min a (Z.of_nat (length l))))%nat) as [Hj|Hj];
    destruct (decide (Z.of_nat j < Z.min b (Z.of_nat (length l)) - a)%Z) as [Hj'|Hj'].
  - rewrite lookup_drop. f_equal. lia.
  - rewrite lookup_drop. apply lookup_ge_None. lia.
  - lia.
  - reflexivity.
Qed.


(** ** The repeating period *)

(** X1. For [1 <= min_period <= max_period] and a beat spectrum with
    more than [min_period] entries, [FindRepeatingPeriod] returns a lag
    [p] between the two bounds at which the beat spectrum is largest
    among the lags from [min_period] to [max_period], and the smallest
    such lag. *)
Theorem FindRepeatingPeriod_spec (b : vector) (min_period max_period : Z) :
  (1 <= min_period)%Z -> (min_period <= max_period)%Z ->
  (min_period < Z.of_nat (length b))%Z ->
  exists p m,
    FindRepeatingPeriod b min_period max_period = Ok p /\
    (min_period <= p <= max_period)%Z /\
    b !! Z.to_nat p = Some m /\
    forall q x, (min_period <= q <= max_period)%Z -> b !! Z.to_nat q = Some x ->
      x <= m /\ ((q < p)%Z -> x < m).
Proof.
  intros Hmin Hmax Hlen. unfold FindRepeatingPeriod.
  set (s := py_slice (min_period - 1) max_period (drop 1 b)).
  assert (Hlook : forall j, s !! j =
            if decide (Z.of_nat j < Z.min max_period (Z.of_nat (length b) - 1)
                                    - (min_period - 1))%Z
            then b !! (Z.to_nat min_period + j)%nat else None).
  { intros j. unfold s. rewrite py_slice_lookup by lia.
    rewrite length_drop.
    replace (Z.of_nat (length b - 1)) with (Z.of_nat (length b) - 1)%Z by lia.
    destruct (decide _); [|reflexivity].
    rewrite lookup_drop. f_equal. lia. }
  assert (Hne : s <> []).
  { intros E. pose proof (Hlook 0%nat) as H0. rewrite E in H0. simpl in H0.
    destruct (decide _) as [_|Hn]; [|lia].
    symmetry in H0. apply lookup_ge_None in H0. lia. }
  destruct (argmax_spec s Hne) as (m & Hm & Hall & Hfirst).
  destruct s as [|s0 s'] eqn:Es; [congruence|]. rewrite <- Es in *.
  exists (Z.of_nat (argmax s) + min_period)%Z, m.
  split; [reflexivity|].
  rewrite Hlook in Hm. destruct (decide _) as [Hj|]; [|discriminate].
  split; [lia|]. split.
  { rewrite <- Hm. f_equal. lia. }
  intros q x Hq Hx.
  assert (Hqlen : (Z.to_nat q < length b)%nat) by (eapply lookup_lt_Some; exact Hx).
  assert (Hs : s !! Z.to_nat (q - min_period) = Some x).
  { rewrite Hlook. destruct (decide _) as [_|Hn]; [|lia].
    rewrite <- Hx. f_equal. lia. }
  split; [eapply Hall; exact Hs|].
  intros Hqp. eapply Hfirst; [|exact Hs]. lia.
Qed.

Lemma FindRepeatingPeriod_spec_witness :
  exists p m,
    FindRepeatingPeriod [9; 1; 4; 7; 7; 2] 2 4 = Ok p /\
    (2 <= p <= 4)%Z /\
    [9; 1; 4; 7; 7; 2] !! Z.to_nat p = Some m /\
    forall q x, (2 <= q <= 4)%Z -> [9; 1; 4; 7; 7; 2] !! Z.to_nat q = Some x ->
      x <= m /\ ((q < p)%Z -> x < m).
Proof.
  apply (FindRepeatingPeriod_spec [9; 1; 4; 7; 7; 2] 2 4).
  - lia.
  - lia.
  - simpl. lia.
Defined.



(** ** Lists whose pairs are related *)

Lemma StronglySorted_lookup_lt {A} (R : A -> A -> Prop) (l : list A) :
  StronglySorted R l ->
  forall a b x y, (a < b)%nat -> l !! a = Some x -> l !! b = Some y -> R x y.
Proof.
  induction 1 as [|x0 l Hs IH Hall]; intros a b x y Hab Ha Hb.
  - discriminate.
  - destruct b as [|b]; [lia|]. simpl in Hb. destruct a as [|a]; simpl in Ha.
    + injection Ha as <-. rewrite Forall_lookup in Hall. eapply Hall. exact Hb.
    + eapply (IH a b); [lia|exact Ha|exact Hb].
Qed.

Lemma StronglySorted_from_lookup {A} (R : A -> A -> Prop) (l : list A) :
  (forall a b x y, (a < b)%nat -> l !! a = Some x -> l !! b = Some y -> R x y) ->
  StronglySorted R l.
Proof.
  induction l as [|x0 l IH]; intros H; constructor.
  - apply IH. intros a b x y Hab Ha Hb. apply (H (S a) (S b)); [lia|exact Ha|exact Hb].
  - apply Forall_lookup. intros j y Hy. apply (H 0%nat (S j)); [lia|reflexivity|exact Hy].
Qed.

Lemma StronglySorted_Permutation_symm {A} (R : A -> A -> Prop) :
  (forall x y, R x y -> R y x) ->
  forall l l', l ≡ₚ l' -> StronglySorted R l -> StronglySorted R l'.
Proof.
  intros Hsym l l' Hp. induction Hp as [|x l l' Hp IH|x y l|l1 l2 l3 Hp1 IH1 Hp2 IH2];
    intros Hs.
  - constructor.
  - apply StronglySorted_inv in Hs as [Hs Hall]. constructor; [apply IH, Hs|].
    rewrite <- Hp. exact Hall.
  - apply StronglySorted_inv in Hs as [Hs Hy].
    apply StronglySorted_inv in Hs as [Hs Hx].
    apply Forall_cons in Hy as [Hyx Hy].
    constructor; [constructor; assumption|].
    constructor; [apply Hsym, Hyx|exact Hx].
  - apply IH2, IH1, Hs.
Qed.

(** ** Vectors without negative entries *)

Lemma count_nonzero_cons (x : Q) (v : vector) :
  count_nonzero (x :: v) = ((if Qeq_bool x 0 then 0 else 1) + count_nonzero v)%nat.
Proof.
  unfold count_nonzero. rewrite filter_cons.
  destruct (Qeq_bool x 0); reflexivity.
Qed.

Lemma count_nonzero_le_length (v : vector) : (count_nonzero v <= length v)%nat.
Proof.
  induction v as [|x v IH]; [reflexivity|].
  rewrite count_nonzero_cons. simpl. destruct (Qeq_bool x 0); lia.
Qed.

Lemma sum_all_zero (v : vector) :
  (forall j x, v !! j = Some x -> x == 0) -> sum v == 0.
Proof.
  induction v as [|y v IH]; intros H; [reflexivity|].
  change (sum (y :: v)) with (y + sum v).
  rewrite (H 0%nat y eq_refl), IH; [reflexivity|].
  intros j x Hx. apply (H (S j)). exact Hx.
Qed.

Lemma count_nonzero_zero (v : vector) :
  count_nonzero v = 0%nat <-> forall j x, v !! j = Some x -> x == 0.
Proof.
  induction v as [|y v IH].
  - split; [intros _ j x Hx; discriminate|reflexivity].
  - rewrite count_nonzero_cons. destruct (Qeq_bool y 0) eqn:E.
    + apply Qeq_bool_eq in E. simpl. rewrite IH. split.
      * intros H [|j] x Hx; simpl in Hx; [injection Hx as <-; exact E|eapply H; exact Hx].
      * intros H j x Hx. apply (H (S j)). exact Hx.
    + split; [simpl; lia|]. intros H. apply Qeq_bool_neq in E.
      destruct E. apply (H 0%nat). reflexivity.
Qed.

Lemma nonneg_sum_zero (v : vector) :
  Forall (fun x => 0 <= x) v -> sum v == 0 -> count_nonzero v = 0%nat.
Proof.
  induction v as [|y v IH]; intros Hnn Hs; [reflexivity|].
  apply Forall_cons in Hnn as [Hy Hnn].
  change (sum (y :: v)) with (y + sum v) in Hs.
  pose proof (sum_nonneg v Hnn) as Hv.
  rewrite count_nonzero_cons, IH by (try assumption; lra).
  replace (Qeq_bool y 0) with true; [reflexivity|].
  symmetry. apply Qeq_eq_bool. lra.
Qed.

(** Zeroing an entry takes it out of the count of non-zero entries. *)
Lemma count_nonzero_insert_zero (v : vector) : forall i m,
  v !! i = Some m ->
  (count_nonzero (<[i := 0%Q]> v) + (if Qeq_bool m 0 then 0 else 1))%nat
  = count_nonzero v.
Proof.
  induction v as [|y v IH]; intros i m Hm; [discriminate|].
  destruct i as [|i]; simpl in Hm.
  - injection Hm as <-. simpl. rewrite !count_nonzero_cons. simpl. lia.
  - simpl. rewrite !count_nonzero_cons, <- (IH i m Hm). lia.
Qed.

Lemma sum_insert (v : vector) : forall i m y,
  v !! i = Some m -> sum (<[i := y]> v) == sum v - m + y.
Proof.
  induction v as [|x v IH]; intros i m y Hm; [discriminate|].
  destruct i as [|i]; simpl in Hm.
  - injection Hm as <-. simpl. ring.
  - change (sum (x :: <[i := y]> v) == sum (x :: v) - m + y).
    change (x + sum (<[i := y]> v) == x + sum v - m + y).
    rewrite (IH i m y Hm). ring.
Qed.

(** The first maximum of a vector without negative entries that does
    not sum to zero is at a positive entry. *)
Lemma argmax_positive (v : vector) :
  Forall (fun x => 0 <= x) v -> ~ sum v == 0 ->
  exists m, v !! argmax v = Some m /\ 0 < m.
Proof.
  intros Hnn Hs.
  assert (Hne : v <> []) by (intros ->; apply Hs; reflexivity).
  destruct (argmax_spec v Hne) as (m & Hm & Hall & _).
  exists m. split; [exact Hm|].
  destruct (Qlt_le_dec 0 m) as [Hpos|Hle]; [exact Hpos|].
  exfalso. apply Hs, sum_all_zero. intros j x Hx.
  rewrite Forall_lookup in Hnn. pose proof (Hnn j x Hx). pose proof (Hall j x Hx). lra.
Qed.

(** The position of the first maximum is determined by its two
    properties. *)
Lemma argmax_unique (v : vector) (z : nat) (m : Q) :
  v !! z = Some m ->
  (forall j x, v !! j = Some x -> x <= m) ->
  (forall j x, (j < z)%nat -> v !! j = Some x -> x < m) ->
  argmax v = z.
Proof.
  intros Hz Hall Hfirst.
  assert (Hne : v <> []) by (intros ->; discriminate).
  destruct (argmax_spec v Hne) as (m' & Hm' & Hall' & Hfirst').
  destruct (Nat.lt_trichotomy (argmax v) z) as [Hlt|[Heq|Hgt]]; [|exact Heq|].
  - pose proof (Hfirst _ _ Hlt Hm'). pose proof (Hall' _ _ Hz). lra.
  - pose proof (Hfirst' _ _ Hgt Hz). pose proof (Hall _ _ Hm'). lra.
Qed.

(** ** Thresholding *)

Lemma thresholded_lookup (data : vector) (min_thr : Q) (j : nat) (y : Q) :
  multiply data (ge_mask min_thr data) !! j = Some y ->
  exists x, data !! j = Some x /\
    ((min_thr <= x /\ y = x * 1) \/ (x < min_thr /\ y = x * 0)).
Proof.
  unfold multiply, ge_mask. rewrite lookup_zip_with, list_lookup_fmap.
  destruct (data !! j) as [x|]; [|discriminate]. simpl.
  intros Hy. injection Hy as <-. exists x. split; [reflexivity|].
  destruct (Qle_bool min_thr x) eqn:E.
  - left. split; [apply Qle_bool_iff; exact E|reflexivity].
  - right. split; [|reflexivity].
    apply Qnot_le_lt. intros Hle. apply Qle_bool_iff in Hle. congruence.
Qed.

Lemma thresholded_nonneg (data : vector) (min_thr : Q) :
  0 <= min_thr -> Forall (fun x => 0 <= x) (multiply data (ge_mask min_thr data)).
Proof.
  intros Hthr. apply Forall_lookup. intros j y Hy.
  destruct (thresholded_lookup _ _ _ _ Hy) as (x & _ & [[Hx ->]|[Hx ->]]); lra.
Qed.

Lemma thresholded_length (data : vector) (min_thr : Q) :
  length (multiply data (ge_mask min_thr data)) = length data.
Proof.
  unfold multiply, ge_mask. rewrite length_zip_with, length_map. lia.
Qed.

(** ** Peak picking, first version *)

Lemma far_apart_sym (d p q : Z) : far_apart d p q -> far_apart d q p.
Proof. unfold far_apart. lia. Qed.

(** What the loop keeps: the data have no negative entry and differ
    from the thresholded data [data0] only by zeroed entries; the peaks
    accepted so far sit at positive entries of [data0] and are pairwise
    far apart; the loop is entered only with data that do not sum to
    zero. *)
Lemma find_peaks_loop_accepts (K : nat) (d : Z) (data0 : vector) :
  forall fuel i data Pi r,
  length Pi = K -> (i < K)%nat ->
  Forall (fun x => 0 <= x) data ->
  (forall j x, data !! j = Some x -> ~ x == 0 -> data0 !! j = Some x) ->
  (forall a p, (a <= i)%nat -> Pi !! a = Some p ->
     (0 <= p)%Z /\ exists x, data0 !! Z.to_nat p = Some x /\ 0 < x) ->
  (forall a b p q, (a < b)%nat -> (b <= i)%nat ->
     Pi !! a = Some p -> Pi !! b = Some q -> far_apart d p q) ->
  ((i < K - 1)%nat -> ~ sum data == 0) ->
  REPET_sim.find_peaks_loop fuel i K d data Pi = Some (Ok r) ->
  length r = K /\
  (forall a p, r !! a = Some p ->
     (0 <= p)%Z /\ exists x, data0 !! Z.to_nat p = Some x /\ 0 < x) /\
  (forall a b p q, (a < b)%nat -> r !! a = Some p -> r !! b = Some q ->
     far_apart d p q).
Proof.
  induction fuel as [|fuel IH]; intros i data Pi r HPi Hi Hnn Horig Hcand Hfar Hsum Hrun;
    cbn [REPET_sim.find_peaks_loop] in Hrun;
    destruct (Nat.ltb_spec i (K - 1)) as [Hlt|Hge].
  - discriminate.
  - injection Hrun as <-. split; [exact HPi|]. split.
    + intros a p Ha. apply (Hcand a p); [|exact Ha].
      apply lookup_lt_Some in Ha. lia.
    + intros a b p q Hab Ha Hb. apply (Hfar a b p q Hab); [|exact Ha|exact Hb].
      apply lookup_lt_Some in Hb. lia.
  - destruct (argmax_positive data Hnn (Hsum Hlt)) as (m & Hm & Hmpos).
    set (itemp := argmax data) in *.
    assert (Hnn' : Forall (fun x => 0 <= x) (<[itemp := 0]> data)).
    { apply Forall_insert; [exact Hnn|lra]. }
    assert (Horig' : forall j x, <[itemp := 0]> data !! j = Some x -> ~ x == 0 ->
                                 data0 !! j = Some x).
    { intros j x Hx Hx0. destruct (decide (j = itemp)) as [->|Hne].
      - rewrite list_lookup_insert_eq in Hx by (eapply lookup_lt_Some; exact Hm).
        injection Hx as <-. destruct Hx0. reflexivity.
      - rewrite list_lookup_insert_ne in Hx by congruence. apply Horig; assumption. }
    destruct (Qeq_bool (sum (<[itemp := 0]> data)) 0) eqn:Esum; [discriminate|].
    apply Qeq_bool_neq in Esum.
    destruct (forallb _ _) eqn:Efar.
    + refine (IH _ _ _ _ _ _ _ _ _ _ _ Hrun); clear IH Hrun.
      * rewrite length_insert. exact HPi.
      * lia.
      * exact Hnn'.
      * exact Horig'.
      * intros a p Ha Hp. destruct (decide (a = S i)) as [->|Hne].
        -- rewrite list_lookup_insert_eq in Hp by lia. injection Hp as <-.
           split; [lia|]. exists m. rewrite Nat2Z.id. split; [|exact Hmpos].
           apply Horig; [exact Hm|lra].
        -- rewrite list_lookup_insert_ne in Hp by congruence.
           apply (Hcand a p); [lia|exact Hp].
      * intros a b p q Hab Hb Hp Hq. destruct (decide (b = S i)) as [->|Hne].
        -- rewrite list_lookup_insert_eq in Hq by lia. injection Hq as <-.
           rewrite list_lookup_insert_ne in Hp by lia.
           rewrite forallb_forall in Efar.
           assert (Hin : In (Z.abs (p - Z.of_nat itemp))
                            (map (fun p => Z.abs (p - Z.of_nat itemp)) (take (S i) Pi))).
           { apply (in_map (fun p => Z.abs (p - Z.of_nat itemp))).
             apply list_elem_of_In, elem_of_take. exists a. split; [exact Hp|lia]. }
           apply Efar in Hin. unfold far_apart.
           destruct (Z.ltb_spec (Z.abs (p - Z.of_nat itemp)) d); [discriminate|lia].
        -- rewrite list_lookup_insert_ne in Hq by congruence.
           rewrite list_lookup_insert_ne in Hp by lia.
           apply (Hfar a b p q Hab); [lia|exact Hp|exact Hq].
      * intros _. exact Esum.
    + replace (S i - 1)%nat with i in Hrun by lia.
      refine (IH _ _ _ _ _ _ _ _ _ _ _ Hrun); clear IH Hrun; try assumption.
      intros _. exact Esum.
  - injection Hrun as <-. split; [exact HPi|]. split.
    + intros a p Ha. apply (Hcand a p); [|exact Ha].
      apply lookup_lt_Some in Ha. lia.
    + intros a b p q Hab Ha Hb. apply (Hfar a b p q Hab); [|exact Ha|exact Hb].
      apply lookup_lt_Some in Hb. lia.
Qed.

(** The peaks [find_peaks] of REPET_sim.py returns. *)
Lemma find_peaks_sim_spec (fuel : nat) (data : vector) (min_thr : Q)
    (min_dist : Z) (max_num : nat) (Pi : list Z) :
  0 <= min_thr ->
  REPET_sim.find_peaks fuel data min_thr min_dist max_num = Some (Ok Pi) ->
  length Pi = max_num /\
  (forall p, p ∈ Pi ->
     (0 <= p)%Z /\ exists x, data !! Z.to_nat p = Some x /\ min_thr <= x /\ ~ x == 0) /\
  (forall a b p q, (a < b)%nat -> Pi !! a = Some p -> Pi !! b = Some q ->
     (p <= q)%Z /\ (min_dist <= q - p)%Z).
Proof.
  intros Hthr Hrun. unfold REPET_sim.find_peaks in Hrun.
  set (data1 := multiply data (ge_mask min_thr data)) in *.
  destruct (Nat.ltb_spec (count_nonzero data1) max_num) as [|Hcount]; [discriminate|].
  destruct (Nat.eqb_spec max_num 0) as [|HK]; [discriminate|].
  destruct (REPET_sim.find_peaks_loop _ _ _ _ _ _) as [[r|e]|] eqn:Eloop;
    [|discriminate..].
  injection Hrun as <-.
  pose proof (thresholded_nonneg data min_thr Hthr) as Hnn. fold data1 in Hnn.
  assert (Hs1 : ~ sum data1 == 0).
  { intros Hs. apply (nonneg_sum_zero _ Hnn) in Hs. lia. }
  destruct (argmax_positive data1 Hnn Hs1) as (m & Hm & Hmpos).
  assert (Hcnt : (count_nonzero (<[argmax data1 := 0%Q]> data1) + 1 = count_nonzero data1)%nat).
  { rewrite <- (count_nonzero_insert_zero data1 _ m Hm).
    replace (Qeq_bool m 0) with false; [reflexivity|].
    symmetry. destruct (Qeq_bool m 0) eqn:E; [|reflexivity].
    apply Qeq_bool_eq in E. lra. }
  apply (find_peaks_loop_accepts max_num min_dist data1) in Eloop.
  - destruct Eloop as (Hlen & Hcand & Hfar).
    pose proof (merge_sort_Permutation Z.le r) as Hperm.
    split; [rewrite Hperm; exact Hlen|]. split.
    + intros p Hp. rewrite Hperm in Hp. apply list_elem_of_lookup in Hp as [a Ha].
      destruct (Hcand a p Ha) as (Hp0 & x & Hx & Hxpos). split; [exact Hp0|].
      destruct (thresholded_lookup _ _ _ _ Hx) as (x0 & Hx0 & [[Hge ->]|[_ ->]]); [|lra].
      exists x0. split; [exact Hx0|]. split; [exact Hge|]. lra.
    + intros a b p q Hab Hp Hq.
      assert (Hle : (p <= q)%Z).
      { eapply (StronglySorted_lookup_lt Z.le (merge_sort Z.le r));
          [apply StronglySorted_merge_sort; apply _|exact Hab|exact Hp|exact Hq]. }
      split; [exact Hle|].
      assert (Hd : far_apart min_dist p q).
      { eapply (StronglySorted_lookup_lt (far_apart min_dist) (merge_sort Z.le r));
          [|exact Hab|exact Hp|exact Hq].
        apply (StronglySorted_Permutation_symm _ (far_apart_sym min_dist) r);
          [symmetry; exact Hperm|].
        apply StronglySorted_from_lookup. exact Hfar. }
      unfold far_apart in Hd. lia.
  - rewrite length_insert, length_replicate. reflexivity.
  - lia.
  - apply Forall_insert; [exact Hnn|lra].
  - intros j x Hx Hx0. destruct (decide (j = argmax data1)) as [->|Hne].
    + rewrite list_lookup_insert_eq in Hx by (eapply lookup_lt_Some; exact Hm).
      injection Hx as <-. destruct Hx0. reflexivity.
    + rewrite list_lookup_insert_ne in Hx by congruence. exact Hx.
  - intros a p Ha Hp. replace a with 0%nat in Hp by lia.
    rewrite list_lookup_insert_eq in Hp by (rewrite length_replicate; lia).
    injection Hp as <-. split; [lia|]. exists m. rewrite Nat2Z.id. split; assumption.
  - intros a b p q Hab Hb. lia.
  - intros HK2 Hs.
    apply nonneg_sum_zero in Hs; [lia|]. apply Forall_insert; [exact Hnn|lra].
Qed.

(** X3. The peaks [find_peaks] of REPET_sim.py returns, for a threshold
    that is not negative: there are [max_num] of them, in increasing
    order; each is the position of a non-zero entry that reaches the
    threshold; and two of them are always at least [min_dist] apart. *)
Theorem find_peaks_sim_accepts (fuel : nat) (data : vector) (min_thr : Q)
    (min_dist : Z) (max_num : nat) (Pi : list Z) :
  0 <= min_thr ->
  REPET_sim.find_peaks fuel data min_thr min_dist max_num = Some (Ok Pi) ->
  length Pi = max_num /\
  (forall p, p ∈ Pi ->
     (0 <= p)%Z /\ exists x, data !! Z.to_nat p = Some x /\ min_thr <= x /\ ~ x == 0) /\
  (forall a b p q, (a < b)%nat -> Pi !! a = Some p -> Pi !! b = Some q ->
     (p <= q)%Z /\ (min_dist <= q - p)%Z).
Proof. apply find_peaks_sim_spec. Qed.

Lemma find_peaks_sim_accepts_witness :
  let data : vector := [0.9; 0.8; 0.1; 0.7; 0.6; 0.3] in
  let Pi := [0%Z; 3%Z] in
  length Pi = 2%nat /\
  (forall p, p ∈ Pi ->
     (0 <= p)%Z /\ exists x, data !! Z.to_nat p = Some x /\ 0.5 <= x /\ ~ x == 0) /\
  (forall a b p q, (a < b)%nat -> Pi !! a = Some p -> Pi !! b = Some q ->
     (p <= q)%Z /\ (2 <= q - p)%Z).
Proof.
  apply (find_peaks_sim_accepts 6 [0.9; 0.8; 0.1; 0.7; 0.6; 0.3] 0.5 2 2 [0%Z; 3%Z]).
  - vm_compute. discriminate.
  - vm_compute. reflexivity.
Defined.

(** More turns than needed change nothing. *)
Lemma find_peaks_loop_fuel_mono (K : nat) (d : Z) :
  forall fuel i data Pi r,
  REPET_sim.find_peaks_loop fuel i K d data Pi = Some r ->
  forall fuel', (fuel <= fuel')%nat ->
  REPET_sim.find_peaks_loop fuel' i K d data Pi = Some r.
Proof.
  induction fuel as [|fuel IH]; intros i data Pi r Hrun fuel' Hle;
    destruct fuel' as [|fuel']; try lia;
    cbn [REPET_sim.find_peaks_loop] in *;
    destruct (i <? K - 1)%nat; try discriminate; try exact Hrun.
  destruct (Qeq_bool _ 0); [exact Hrun|].
  apply (IH _ _ _ _ Hrun). lia.
Qed.

(** On data without negative entries every turn that does not raise
    removes a non-zero entry, so the loop ends. *)
Lemma find_peaks_loop_terminates (K : nat) (d : Z) :
  forall fuel i data Pi,
  Forall (fun x => 0 <= x) data -> (count_nonzero data < fuel)%nat ->
  exists r, REPET_sim.find_peaks_loop fuel i K d data Pi = Some r.
Proof.
  induction fuel as [|fuel IH]; intros i data Pi Hnn Hfuel; [lia|].
  cbn [REPET_sim.find_peaks_loop].
  destruct (i <? K - 1)%nat; [|eauto].
  destruct (Qeq_bool (sum (<[argmax data := 0]> data)) 0) eqn:Esum; [eauto|].
  apply Qeq_bool_neq in Esum.
  assert (Hs : ~ sum data == 0).
  { intros Hs. apply Esum. apply (nonneg_sum_zero _ Hnn) in Hs.
    pose proof (proj1 (count_nonzero_zero data) Hs) as Hz. clear Hs. rename Hz into Hs.
    apply sum_all_zero. intros j x Hx.
    destruct (decide (j = argmax data)) as [->|Hne].
    - apply lookup_lt_Some in Hx as Hlt. rewrite length_insert in Hlt.
      rewrite list_lookup_insert_eq in Hx by exact Hlt. injection Hx as <-. reflexivity.
    - rewrite list_lookup_insert_ne in Hx by congruence. eapply Hs. exact Hx. }
  destruct (argmax_positive data Hnn Hs) as (m & Hm & Hmpos).
  pose proof (count_nonzero_insert_zero data _ m Hm) as Hcnt.
  replace (Qeq_bool m 0) with false in Hcnt
    by (symmetry; destruct (Qeq_bool m 0) eqn:E; [apply Qeq_bool_eq in E; lra|reflexivity]).
  apply IH; [apply Forall_insert; [exact Hnn|lra]|lia].
Qed.

(** X4. With a threshold that is not negative, [find_peaks] of
    REPET_sim.py ends: after at most as many turns of its loop as the
    data have entries it has returned or raised, and more turns do not
    change the outcome. *)
Theorem find_peaks_sim_terminates (data : vector) (min_thr : Q) (min_dist : Z)
    (max_num : nat) :
  0 <= min_thr ->
  exists r, forall fuel, (length data <= fuel)%nat ->
    REPET_sim.find_peaks fuel data min_thr min_dist max_num = Some r.
Proof.
  intros Hthr. unfold REPET_sim.find_peaks.
  set (data1 := multiply data (ge_mask min_thr data)).
  destruct (Nat.ltb_spec (count_nonzero data1) max_num) as [|Hcount]; [eauto|].
  destruct (Nat.eqb_spec max_num 0) as [|HK]; [eauto|].
  pose proof (thresholded_nonneg data min_thr Hthr) as Hnn. fold data1 in Hnn.
  assert (Hs1 : ~ sum data1 == 0).
  { intros Hs. apply (nonneg_sum_zero _ Hnn) in Hs. lia. }
  destruct (argmax_positive data1 Hnn Hs1) as (m & Hm & Hmpos).
  pose proof (count_nonzero_insert_zero data1 _ m Hm) as Hcnt.
  replace (Qeq_bool m 0) with false in Hcnt
    by (symmetry; destruct (Qeq_bool m 0) eqn:E; [apply Qeq_bool_eq in E; lra|reflexivity]).
  pose proof (count_nonzero_le_length data1) as Hcl.
  unfold data1 in Hcl at 2. rewrite (thresholded_length data min_thr) in Hcl.
  destruct (find_peaks_loop_terminates max_num min_dist (length data) 0
              (<[argmax data1 := 0]> data1)
              (<[0%nat := Z.of_nat (argmax data1)]> (replicate max_num 0%Z)))
    as [r Hr].
  { apply Forall_insert; [exact Hnn|lra]. }
  { lia. }
  exists (match r with Ok Pi => Ok (merge_sort Z.le Pi) | Err e => Err e end).
  intros fuel Hfuel.
  rewrite (find_peaks_loop_fuel_mono _ _ _ _ _ _ _ Hr fuel Hfuel).
  destruct r; reflexivity.
Qed.

Lemma find_peaks_sim_terminates_witness :
  let data : vector := [0.9; 0.8; 0.1] in
  exists r, forall fuel, (length data <= fuel)%nat ->
    REPET_sim.find_peaks fuel data 0.5 2 2 = Some r.
Proof.
  apply (find_peaks_sim_terminates [0.9; 0.8; 0.1] 0.5 2 2).
  vm_compute. discriminate.
Defined.

(** When no more non-zero entries are left than peaks are still to be
    found, the loop runs out of data and raises. *)
Lemma find_peaks_loop_exhausts (K : nat) (d : Z) :
  forall fuel i data Pi,
  Forall (fun x => 0 <= x) data ->
  (i < K - 1)%nat -> (1 <= count_nonzero data)%nat ->
  (count_nonzero data + i <= K - 1)%nat -> (count_nonzero data <= fuel)%nat ->
  REPET_sim.find_peaks_loop fuel i K d data Pi = Some (Err InsufficientPeaks).
Proof.
  induction fuel as [|fuel IH]; intros i data Pi Hnn Hi Hc1 Hck Hfuel; [lia|].
  cbn [REPET_sim.find_peaks_loop].
  replace (i <? K - 1)%nat with true by (symmetry; apply Nat.ltb_lt; exact Hi).
  destruct (Qeq_bool (sum (<[argmax data := 0]> data)) 0) eqn:Esum; [reflexivity|].
  apply Qeq_bool_neq in Esum.
  assert (Hs : ~ sum data == 0).
  { intros Hs. apply (nonneg_sum_zero _ Hnn) in Hs. lia. }
  destruct (argmax_positive data Hnn Hs) as (m & Hm & Hmpos).
  pose proof (count_nonzero_insert_zero data _ m Hm) as Hcnt.
  replace (Qeq_bool m 0) with false in Hcnt
    by (symmetry; destruct (Qeq_bool m 0) eqn:E; [apply Qeq_bool_eq in E; lra|reflexivity]).
  assert (Hnn' : Forall (fun x => 0 <= x) (<[argmax data := 0]> data))
    by (apply Forall_insert; [exact Hnn|lra]).
  assert (Hc1' : (1 <= count_nonzero (<[argmax data := 0%Q]> data))%nat).
  { destruct (count_nonzero (<[argmax data := 0%Q]> data)) eqn:E; [|lia].
    destruct Esum. apply sum_all_zero. apply (proj1 (count_nonzero_zero _)). exact E. }
  destruct (forallb _ _).
  - apply IH; [exact Hnn'|lia|exact Hc1'|lia|lia].
  - replace (S i - 1)%nat with i by lia.
    apply IH; [exact Hnn'|lia|exact Hc1'|lia|lia].
Qed.

(** X5. [find_peaks] of REPET_sim.py needs more candidates than peaks:
    when two or more peaks are asked for and no more entries than that
    are non-zero and reach the threshold, the call raises, however far
    apart the candidates are (the test for exhausted data comes before
    the test for enough peaks). *)
Theorem find_peaks_sim_needs_spare_candidate (fuel : nat) (data : vector)
    (min_thr : Q) (min_dist : Z) (max_num : nat) :
  0 <= min_thr -> (2 <= max_num)%nat ->
  (count_nonzero (multiply data (ge_mask min_thr data)) <= max_num)%nat ->
  (length data <= fuel)%nat ->
  REPET_sim.find_peaks fuel data min_thr min_dist max_num = Some (Err InsufficientPeaks).
Proof.
  intros Hthr HK Hcount Hfuel. unfold REPET_sim.find_peaks.
  set (data1 := multiply data (ge_mask min_thr data)) in *.
  destruct (Nat.ltb_spec (count_nonzero data1) max_num) as [|Hcount']; [reflexivity|].
  destruct (Nat.eqb_spec max_num 0) as [|_]; [lia|].
  pose proof (thresholded_nonneg data min_thr Hthr) as Hnn. fold data1 in Hnn.
  assert (Hs1 : ~ sum data1 == 0).
  { intros Hs. apply (nonneg_sum_zero _ Hnn) in Hs. lia. }
  destruct (argmax_positive data1 Hnn Hs1) as (m & Hm & Hmpos).
  pose proof (count_nonzero_insert_zero data1 _ m Hm) as Hcnt.
  replace (Qeq_bool m 0) with false in Hcnt
    by (symmetry; destruct (Qeq_bool m 0) eqn:E; [apply Qeq_bool_eq in E; lra|reflexivity]).
  pose proof (count_nonzero_le_length data1) as Hcl.
  unfold data1 in Hcl at 2. rewrite (thresholded_length data min_thr) in Hcl.
  rewrite find_peaks_loop_exhausts; [reflexivity| |lia|lia|lia|lia].
  apply Forall_insert; [exact Hnn|lra].
Qed.

Lemma find_peaks_sim_needs_spare_candidate_witness :
  REPET_sim.find_peaks 5 [0.9; 0; 0; 0; 0.8] 0.5 1 2 = Some (Err InsufficientPeaks).
Proof.
  apply (find_peaks_sim_needs_spare_candidate 5 [0.9; 0; 0; 0; 0.8] 0.5 1 2).
  - vm_compute. discriminate.
  - lia.
  - vm_compute. lia.
  - simpl. lia.
Defined.

Lemma nonpos_sum_zero (v : vector) :
  Forall (fun x => x <= 0) v -> sum v == 0 -> count_nonzero v = 0%nat.
Proof.
  induction v as [|y v IH]; intros Hnp Hs; [reflexivity|].
  apply Forall_cons in Hnp as [Hy Hnp].
  change (sum (y :: v)) with (y + sum v) in Hs.
  assert (Hv : sum v <= 0).
  { clear -Hnp. induction Hnp as [|x l Hx _ IHl]; [simpl; lra|].
    change (sum (x :: l)) with (x + sum l). lra. }
  rewrite count_nonzero_cons, IH by (try assumption; lra).
  replace (Qeq_bool y 0) with true; [reflexivity|].
  symmetry. apply Qeq_eq_bool. lra.
Qed.

(** With the first peak at a zero entry that is the largest entry left,
    every turn finds that entry again, rejects it as too close to the
    first peak, and leaves the data as they are. *)
Lemma find_peaks_loop_stuck (K : nat) (d : Z) (z : nat) :
  (2 <= K)%nat -> (1 <= d)%Z ->
  forall fuel data Pi,
  Pi !! 0%nat = Some (Z.of_nat z) ->
  (exists m, data !! z = Some m /\ m == 0) ->
  (forall j x, data !! j = Some x -> x <= 0) ->
  (forall j x, (j < z)%nat -> data !! j = Some x -> x < 0) ->
  ~ sum data == 0 ->
  REPET_sim.find_peaks_loop fuel 0 K d data Pi = None.
Proof.
  intros HK Hd. induction fuel as [|fuel IH]; intros data Pi HPi (m & Hm & Hm0) Hall Hfirst Hs;
    cbn [REPET_sim.find_peaks_loop];
    replace (0 <? K - 1)%nat with true by (symmetry; apply Nat.ltb_lt; lia);
    [reflexivity|].
  assert (Hz : argmax data = z).
  { apply (argmax_unique data z m Hm).
    - intros j x Hx. pose proof (Hall j x Hx). lra.
    - intros j x Hj Hx. pose proof (Hfirst j x Hj Hx). lra. }
  rewrite Hz.
  destruct Pi as [|p0 Pi]; [discriminate|]. simpl in HPi. injection HPi as ->.
  cbn [take map forallb].
  replace (Z.abs (Z.of_nat z - Z.of_nat z) <? d)%Z with true
    by (symmetry; apply Z.ltb_lt; lia).
  cbn [negb andb].
  assert (Hs' : sum (<[z := 0]> data) == sum data).
  { rewrite (sum_insert data z m 0 Hm). lra. }
  replace (Qeq_bool (sum (<[z := 0]> data)) 0) with false.
  2:{ symmetry. destruct (Qeq_bool (sum (<[z := 0]> data)) 0) eqn:E; [|reflexivity].
      apply Qeq_bool_eq in E. destruct Hs. lra. }
  replace (1 - 1)%nat with 0%nat by lia.
  apply IH.
  - reflexivity.
  - exists 0. split; [|reflexivity].
    apply list_lookup_insert_eq. eapply lookup_lt_Some. exact Hm.
  - intros j x Hx. destruct (decide (j = z)) as [->|Hne].
    + rewrite list_lookup_insert_eq in Hx by (eapply lookup_lt_Some; exact Hm).
      injection Hx as <-. lra.
    + rewrite list_lookup_insert_ne in Hx by congruence. eapply Hall. exact Hx.
  - intros j x Hj Hx. rewrite list_lookup_insert_ne in Hx by lia.
    eapply Hfirst; [exact Hj|exact Hx].
  - lra.
Qed.

(** X6. With a negative threshold [find_peaks] of REPET_sim.py may
    never return: when no entry is positive, one is zero, all reach the
    threshold, two or more peaks at least one position apart are asked
    for, and at least as many entries as peaks asked for are not zero
    (so that the test for enough peaks passes), the loop finds the same
    zero entry for ever. *)
Theorem find_peaks_sim_may_not_end (data : vector) (min_thr : Q) (min_dist : Z)
    (max_num : nat) :
  Forall (fun x => min_thr <= x /\ x <= 0) data ->
  (exists j x, data !! j = Some x /\ x == 0) ->
  (2 <= max_num)%nat ->
  (max_num <= count_nonzero (multiply data (ge_mask min_thr data)))%nat ->
  (1 <= min_dist)%Z ->
  forall fuel, REPET_sim.find_peaks fuel data min_thr min_dist max_num = None.
Proof.
  intros Hdata (j0 & x0 & Hx0 & Hx00) HK Hcount Hd fuel. unfold REPET_sim.find_peaks.
  set (data1 := multiply data (ge_mask min_thr data)) in *.
  replace (count_nonzero data1 <? max_num)%nat with false
    by (symmetry; apply Nat.ltb_ge; exact Hcount).
  replace (max_num =? 0)%nat with false by (symmetry; apply Nat.eqb_neq; lia).
  assert (Hall : forall j x, data1 !! j = Some x -> x <= 0).
  { intros j x Hx. destruct (thresholded_lookup _ _ _ _ Hx) as (y & Hy & [[_ ->]|[_ ->]]);
      [|lra].
    rewrite Forall_lookup in Hdata. destruct (Hdata j y Hy). lra. }
  assert (Hzero : exists x, data1 !! j0 = Some x /\ x == 0).
  { unfold data1, multiply, ge_mask.
    rewrite lookup_zip_with, list_lookup_fmap, Hx0. simpl. eexists. split; [reflexivity|].
    destruct (Qle_bool min_thr x0); lra. }
  destruct Hzero as (x1 & Hx1 & Hx10).
  assert (Hne : data1 <> []) by (intros E; rewrite E in Hx1; discriminate).
  destruct (argmax_spec data1 Hne) as (m & Hm & Hmax & Hfirst).
  assert (Hm0 : m == 0).
  { pose proof (Hall _ _ Hm). pose proof (Hmax _ _ Hx1). lra. }
  assert (Hs1 : ~ sum data1 == 0).
  { intros Hs. apply nonpos_sum_zero in Hs; [lia|].
    apply Forall_lookup. exact Hall. }
  rewrite (find_peaks_loop_stuck max_num min_dist (argmax data1) HK Hd); [reflexivity| | | | |].
  - apply list_lookup_insert_eq. rewrite length_replicate. lia.
  - exists 0. split; [|reflexivity].
    apply list_lookup_insert_eq. eapply lookup_lt_Some. exact Hm.
  - intros j x Hx. destruct (decide (j = argmax data1)) as [->|Hneq].
    + rewrite list_lookup_insert_eq in Hx by (eapply lookup_lt_Some; exact Hm).
      injection Hx as <-. lra.
    + rewrite list_lookup_insert_ne in Hx by congruence. eapply Hall. exact Hx.
  - intros j x Hj Hx. rewrite list_lookup_insert_ne in Hx by lia.
    pose proof (Hfirst j x Hj Hx). lra.
  - rewrite (sum_insert data1 _ m 0 Hm). lra.
Qed.

Lemma find_peaks_sim_may_not_end_witness :
  REPET_sim.find_peaks 1000 [-1; -1; 0] (-2) 1 2 = None.
Proof.
  refine (find_peaks_sim_may_not_end [-1; -1; 0] (-2) 1 2 _ _ _ _ _ 1000%nat).
  - repeat constructor; vm_compute; discriminate.
  - exists 2%nat, 0. split; reflexivity.
  - lia.
  - vm_compute. lia.
  - lia.
Defined.

(** ** Audio buffers: the other methods *)

Lemma fresh_unbound (h : heap) : h !! fresh (dom h) = None.
Proof. apply not_elem_of_dom, is_fresh. Qed.

Lemma read_bound (h : heap) (a : ndarray) (m : list (list Q)) :
  read h a = Ok m -> base a <> fresh (dom h).
Proof.
  unfold read. intros H E. rewrite E, fresh_unbound in H. discriminate.
Qed.

Lemma read_insert_ne (h : heap) (a : ndarray) (l : loc) (buf : list (list Q)) :
  base a <> l -> read (<[l := buf]> h) a = read h a.
Proof. intros Hne. unfold read. rewrite lookup_insert_ne by congruence. reflexivity. Qed.

Lemma read_insert_eq (h : heap) (l : loc) (buf : list (list Q)) :
  read (<[l := buf]> h) {| base := l; transposed := false |} = Ok buf.
Proof. unfold read. cbn [base transposed]. rewrite lookup_insert_eq. reflexivity. Qed.

Lemma match_nonempty {A B} (l : list A) (x y : B) :
  l <> [] -> match l with [] => y | _ :: _ => x end = x.
Proof. destruct l; congruence. Qed.

Lemma Qabs_div_le_1 (x M : Q) : 0 < M -> Qabs x <= M -> Qabs (x / M) <= 1.
Proof.
  intros HM Hx. apply Qabs_Qle_condition in Hx as [Hlo Hhi].
  apply Qabs_Qle_condition. split.
  - apply Qle_shift_div_l; [exact HM|]. lra.
  - apply Qle_shift_div_r; [exact HM|]. lra.
Qed.

(** X7. [peak_normalize] leaves a signal whose samples all have
    magnitude at most 1: every sample is the old one divided by the
    larger of 1 and the peak magnitude.  The array the signal held
    before is not written to, and normalizing a second time changes
    nothing. *)
Theorem peak_normalize_bounded (self : AudioSignal.t) (h : heap) (a : list (list Q)) :
  read h (AudioSignal.audio_data self) = Ok a -> flatten a <> [] ->
  let peak := array_max 0 (map Qabs (flatten a)) in
  let c := if Qltb 1 peak then peak else 1 in
  exists s' h' a',
    AudioSignalMethods.peak_normalize self h = Ok (s', h') /\
    read h' (AudioSignal.audio_data s') = Ok a' /\
    Forall2 (Forall2 (fun x y => y == x / c)) a a' /\
    Forall (Forall (fun y => Qabs y <= 1)) a' /\
    read h' (AudioSignal.audio_data self) = Ok a /\
    AudioSignalMethods.peak_normalize s' h' = Ok (s', h').
Proof.
  intros Hread Hne peak c.
  assert (Hne' : map Qabs (flatten a) <> []).
  { intros E. apply Hne. destruct (flatten a); [reflexivity|discriminate]. }
  destruct (array_max_spec 0 _ Hne') as [Hin Hmax]. fold peak in Hin, Hmax.
  assert (Hbound : Forall (Forall (fun x => Qabs x <= peak)) a).
  { apply Forall_concat. apply Forall_forall. intros x Hx.
    rewrite Forall_forall in Hmax. apply Hmax.
    apply list_elem_of_fmap. exists x. split; [reflexivity|exact Hx]. }
  assert (Hnoop : forall s0 h0 a0, read h0 (AudioSignal.audio_data s0) = Ok a0 ->
            flatten a0 <> [] -> Forall (Forall (fun y => Qabs y <= 1)) a0 ->
            AudioSignalMethods.peak_normalize s0 h0 = Ok (s0, h0)).
  { intros s0 h0 a0 Hr0 Hne0 Hb0. unfold AudioSignalMethods.peak_normalize.
    rewrite Hr0. cbn [mbind result_bind]. rewrite match_nonempty by exact Hne0.
    assert (Hne0' : map Qabs (flatten a0) <> []).
    { intros E. apply Hne0. destruct (flatten a0); [reflexivity|discriminate]. }
    destruct (array_max_spec 0 _ Hne0') as [Hin0 _].
    apply list_elem_of_fmap in Hin0 as (y & Hy & Hyin).
    assert (Hle : array_max 0 (map Qabs (flatten a0)) <= 1).
    { rewrite Hy. apply Forall_concat in Hb0. rewrite Forall_forall in Hb0.
      apply Hb0. exact Hyin. }
    replace (Qltb 1 (array_max 0 (map Qabs (flatten a0)))) with false; [reflexivity|].
    symmetry. apply Qltb_ge. exact Hle. }
  assert (Hcall : AudioSignalMethods.peak_normalize self h =
            if Qltb 1 peak then
              Ok ({| AudioSignal.audio_data := {| base := fresh (dom h); transposed := false |};
                     AudioSignal.sample_rate := AudioSignal.sample_rate self |},
                  <[fresh (dom h) := map (map (fun x => x / peak)) a]> h)
            else Ok (self, h)).
  { unfold AudioSignalMethods.peak_normalize. rewrite Hread. cbn [mbind result_bind].
    rewrite match_nonempty by exact Hne. reflexivity. }
  unfold c. destruct (Qltb 1 peak) eqn:Epeak.
  - apply Qltb_lt in Epeak.
    assert (Hb' : Forall (Forall (fun y => Qabs y <= 1))
                    (map (map (fun x => x / peak)) a)).
    { apply Forall_fmap. eapply Forall_impl; [exact Hbound|]. intros row Hrow.
      apply Forall_fmap. eapply Forall_impl; [exact Hrow|]. intros x Hx. simpl.
      apply Qabs_div_le_1; [lra|exact Hx]. }
    eexists _, _, _. split; [exact Hcall|]. cbn [AudioSignal.audio_data].
    split; [apply read_insert_eq|]. split; [|split; [exact Hb'|split]].
    + apply Forall2_fmap_r. apply Forall_Forall2_diag. apply Forall_forall. intros row _.
      apply Forall2_fmap_r. apply Forall_Forall2_diag. apply Forall_forall. intros x _.
      reflexivity.
    + rewrite read_insert_ne by (eapply read_bound; exact Hread). exact Hread.
    + apply (Hnoop _ _ (map (map (fun x => x / peak)) a)).
      * apply read_insert_eq.
      * rewrite flatten_map_map. intros E. apply Hne.
        destruct (flatten a); [reflexivity|discriminate].
      * exact Hb'.
  - apply Qltb_ge in Epeak.
    assert (Hb' : Forall (Forall (fun y => Qabs y <= 1)) a).
    { eapply Forall_impl; [exact Hbound|]. intros row Hrow.
      eapply Forall_impl; [exact Hrow|]. intros x Hx. simpl in Hx. lra. }
    exists self, h, a. split; [exact Hcall|]. split; [exact Hread|].
    split; [|split; [exact Hb'|split; [exact Hread|]]].
    + apply Forall_Forall2_diag. apply Forall_forall. intros row _.
      apply Forall_Forall2_diag. apply Forall_forall. intros x _. field.
    + apply (Hnoop _ _ a Hread); [exact Hne|exact Hb'].
Qed.

Lemma peak_normalize_bounded_witness :
  let self := {| AudioSignal.audio_data := {| base := 1%positive; transposed := false |};
                 AudioSignal.sample_rate := 44100 |} in
  let a : list (list Q) := [[0.5; -2]; [1; 0]] in
  let h : heap := <[1%positive := a]> ∅ in
  let peak := array_max 0 (map Qabs (flatten a)) in
  let c := if Qltb 1 peak then peak else 1 in
  exists s' h' a',
    AudioSignalMethods.peak_normalize self h = Ok (s', h') /\
    read h' (AudioSignal.audio_data s') = Ok a' /\
    Forall2 (Forall2 (fun x y => y == x / c)) a a' /\
    Forall (Forall (fun y => Qabs y <= 1)) a' /\
    read h' (AudioSignal.audio_data self) = Ok a /\
    AudioSignalMethods.peak_normalize s' h' = Ok (s', h').
Proof.
  apply (peak_normalize_bounded
           {| AudioSignal.audio_data := {| base := 1%positive; transposed := false |};
              AudioSignal.sample_rate := 44100 |}
           (<[1%positive := [[0.5; -2]; [1; 0]]]> ∅) [[0.5; -2]; [1; 0]]).
  - vm_compute. reflexivity.
  - simpl. discriminate.
Defined.

(** X8. [get_channel] is 1-based on [1 .. num_channels], but it also
    accepts an index from [1 - num_channels] to 0 and then counts from
    the end ([get_channel(0)] is the last channel); every other index
    raises. *)
Theorem get_channel_wraps (self : AudioSignal.t) (h : heap) (a : list (list Q)) (n : Z) :
  read h (AudioSignal.audio_data self) = Ok a ->
  let C := Z.of_nat (nrows a) in
  ((1 <= n <= C)%Z ->
     exists row, a !! Z.to_nat (n - 1) = Some row /\
       AudioSignalMethods.get_channel self n h = Ok row) /\
  ((- C < n <= 0)%Z ->
     exists row, a !! Z.to_nat (C + n - 1) = Some row /\
       AudioSignalMethods.get_channel self n h = Ok row) /\
  ((C < n)%Z \/ (n <= - C)%Z ->
     AudioSignalMethods.get_channel self n h = Err IndexOutOfBounds).
Proof.
  intros Hread C. unfold AudioSignalMethods.get_channel. rewrite Hread.
  cbn [mbind result_bind]. fold C. unfold py_index. fold C. unfold nrows in C.
  split; [|split].
  - intros Hn. destruct (Z.ltb_spec C n); [lia|].
    destruct (Z.ltb_spec (n - 1) 0); [lia|].
    destruct (Z.leb_spec 0 (n - 1)); [|lia]. destruct (Z.ltb_spec (n - 1) C); [|lia].
    cbn [andb].
    destruct (lookup_lt_is_Some_2 a (Z.to_nat (n - 1)) ltac:(lia)) as [row Hrow].
    exists row. rewrite Hrow. split; reflexivity.
  - intros Hn. destruct (Z.ltb_spec C n); [lia|].
    destruct (Z.ltb_spec (n - 1) 0); [|lia].
    destruct (Z.leb_spec 0 (n - 1 + C)); [|lia].
    destruct (Z.ltb_spec (n - 1 + C) C); [|lia].
    cbn [andb]. replace (n - 1 + C)%Z with (C + n - 1)%Z by lia.
    destruct (lookup_lt_is_Some_2 a (Z.to_nat (C + n - 1)) ltac:(lia)) as [row Hrow].
    exists row. rewrite Hrow. split; reflexivity.
  - intros [Hn|Hn].
    + destruct (Z.ltb_spec C n); [reflexivity|lia].
    + destruct (Z.ltb_spec C n); [reflexivity|].
      destruct (Z.ltb_spec (n - 1) 0); [|lia].
      destruct (Z.leb_spec 0 (n - 1 + C)); [lia|]. reflexivity.
Qed.

Lemma get_channel_wraps_witness :
  let self := {| AudioSignal.audio_data := {| base := 1%positive; transposed := false |};
                 AudioSignal.sample_rate := 44100 |} in
  let a : list (list Q) := [[1; 2; 3]; [4; 5; 6]] in
  let h : heap := <[1%positive := a]> ∅ in
  let C := Z.of_nat (nrows a) in
  ((1 <= 0 <= C)%Z ->
     exists row, a !! Z.to_nat (0 - 1) = Some row /\
       AudioSignalMethods.get_channel self 0 h = Ok row) /\
  ((- C < 0 <= 0)%Z ->
     exists row, a !! Z.to_nat (C + 0 - 1) = Some row /\
       AudioSignalMethods.get_channel self 0 h = Ok row) /\
  ((C < 0)%Z \/ (0 <= - C)%Z ->
     AudioSignalMethods.get_channel self 0 h = Err IndexOutOfBounds).
Proof.
  apply (get_channel_wraps
           {| AudioSignal.audio_data := {| base := 1%positive; transposed := false |};
              AudioSignal.sample_rate := 44100 |}
           (<[1%positive := [[1; 2; 3]; [4; 5; 6]]]> ∅) [[1; 2; 3]; [4; 5; 6]] 0).
  vm_compute. reflexivity.
Defined.

(** X9. [truncate_samples] cuts along the channel axis: for
    [0 <= n_samples <= signal_length] the signal keeps its first
    [n_samples] channels, each with all its samples; with at least as
    many samples asked for as there are channels nothing is removed. *)
Theorem truncate_samples_cuts_channels (self : AudioSignal.t) (h : heap)
    (a : list (list Q)) (C L : nat) (n_samples : Z) :
  read h (AudioSignal.audio_data self) = Ok a ->
  length a = C -> rect L a -> (1 <= C)%nat ->
  (0 <= n_samples <= Z.of_nat L)%Z ->
  exists m,
    AudioSignalMethods.truncate_samples self n_samples h = Ok m /\
    m = take (Z.to_nat n_samples) a /\
    rect L m /\
    ((Z.of_nat C <= n_samples)%Z -> m = a).
Proof.
  intros Hread HC HL HC1 Hn. unfold AudioSignalMethods.truncate_samples.
  rewrite Hread. cbn [mbind result_bind].
  rewrite (ncols_rect a L) by (try lia; exact HL).
  destruct (Z.ltb_spec (Z.of_nat L) n_samples); [lia|].
  assert (Hs : py_slice 0 n_samples a = take (Z.to_nat n_samples) a).
  { unfold py_slice, slice_bound. cbn [Z.ltb Z.compare Z.min].
    destruct (Z.ltb_spec n_samples 0); [lia|].
    replace (0 `min` Z.of_nat (length a))%Z with 0%Z by lia.
    change (Z.to_nat 0) with 0%nat. rewrite drop_0, Nat.sub_0_r.
    destruct (Z.min_spec n_samples (Z.of_nat (length a))) as [[_ ->]|[Hle ->]];
      [reflexivity|].
    rewrite Nat2Z.id, firstn_all. symmetry. apply take_ge. lia. }
  eexists. split; [reflexivity|]. rewrite Hs. split; [reflexivity|]. split.
  - unfold rect in *. apply Forall_take. exact HL.
  - intros Hge. apply take_ge. lia.
Qed.

Lemma truncate_samples_cuts_channels_witness :
  let self := {| AudioSignal.audio_data := {| base := 1%positive; transposed := false |};
                 AudioSignal.sample_rate := 44100 |} in
  let a : list (list Q) := [[1; 2; 3]; [4; 5; 6]] in
  let h : heap := <[1%positive := a]> ∅ in
  exists m,
    AudioSignalMethods.truncate_samples self 2 h = Ok m /\
    m = take (Z.to_nat 2) a /\
    rect 3 m /\
    ((Z.of_nat 2 <= 2)%Z -> m = a).
Proof.
  apply (truncate_samples_cuts_channels
           {| AudioSignal.audio_data := {| base := 1%positive; transposed := false |};
              AudioSignal.sample_rate := 44100 |}
           (<[1%positive := [[1; 2; 3]; [4; 5; 6]]]> ∅) [[1; 2; 3]; [4; 5; 6]] 2 3 2).
  - vm_compute. reflexivity.
  - reflexivity.
  - repeat constructor.
  - lia.
  - lia.
Defined.

Lemma ncols_app (a b : list (list Q)) : (0 < length a)%nat -> ncols (a ++ b) = ncols a.
Proof. destruct a; simpl; [lia|reflexivity]. Qed.

(** X10. [concat] of nussl/AudioSignal.py joins along the channel axis:
    two signals of [C] channels and equal length [L] give a signal of
    [2 * C] channels and the same length, the rows of the second below
    those of the first; two signals of different lengths are rejected. *)
Theorem concat_stacks_channels (self other : AudioSignal.t) (h : heap)
    (a b : list (list Q)) (C La Lb : nat) :
  read h (AudioSignal.audio_data self) = Ok a ->
  read h (AudioSignal.audio_data other) = Ok b ->
  length a = C -> rect La a -> length b = C -> rect Lb b -> (1 <= C)%nat ->
  (La = Lb ->
     exists s' h',
       AudioSignalMethods.concat self other h = Ok (s', h') /\
       read h' (AudioSignal.audio_data s') = Ok (a ++ b) /\
       AudioSignalMethods.num_channels s' h' = Ok (2 * C)%nat /\
       AudioSignalMethods.signal_length s' h' = Ok La) /\
  (La <> Lb -> AudioSignalMethods.concat self other h = Err ShapeMismatch).
Proof.
  intros Ha Hb HCa HLa HCb HLb HC1.
  assert (Na : ncols a = La) by (apply ncols_rect; [lia|exact HLa]).
  assert (Nb : ncols b = Lb) by (apply ncols_rect; [lia|exact HLb]).
  assert (Hcall : AudioSignalMethods.concat self other h =
            if (La =? Lb)%nat then
              Ok ({| AudioSignal.audio_data := {| base := fresh (dom h); transposed := false |};
                     AudioSignal.sample_rate := AudioSignal.sample_rate self |},
                  <[fresh (dom h) := a ++ b]> h)
            else Err ShapeMismatch).
  { unfold AudioSignalMethods.concat. rewrite Ha, Hb. cbn [mbind result_bind].
    unfold nrows. rewrite HCa, HCb, Nat.eqb_refl, Na, Nb. cbn [negb].
    destruct (La =? Lb)%nat; reflexivity. }
  split.
  - intros ->. rewrite Nat.eqb_refl in Hcall.
    eexists _, _. split; [exact Hcall|].
    unfold AudioSignalMethods.num_channels, AudioSignalMethods.signal_length, shape.
    cbn [AudioSignal.audio_data]. rewrite read_insert_eq. cbn [mbind result_bind].
    split; [reflexivity|].
    unfold nrows. rewrite length_app, HCa, HCb, ncols_app, Na by lia.
    split; [f_equal; lia|reflexivity].
  - intros Hne. rewrite Hcall.
    destruct (Nat.eqb_spec La Lb); [contradiction|reflexivity].
Qed.

Lemma concat_stacks_channels_witness :
  let self := {| AudioSignal.audio_data := {| base := 1%positive; transposed := false |};
                 AudioSignal.sample_rate := 44100 |} in
  let other := {| AudioSignal.audio_data := {| base := 2%positive; transposed := false |};
                  AudioSignal.sample_rate := 44100 |} in
  let a : list (list Q) := [[1; 2; 3]] in
  let b : list (list Q) := [[4; 5; 6]] in
  let h : heap := <[2%positive := b]> (<[1%positive := a]> ∅) in
  (3%nat = 3%nat ->
     exists s' h',
       AudioSignalMethods.concat self other h = Ok (s', h') /\
       read h' (AudioSignal.audio_data s') = Ok (a ++ b) /\
       AudioSignalMethods.num_channels s' h' = Ok (2 * 1)%nat /\
       AudioSignalMethods.signal_length s' h' = Ok 3%nat) /\
  (3%nat <> 3%nat -> AudioSignalMethods.concat self other h = Err ShapeMismatch).
Proof.
  apply (concat_stacks_channels
           {| AudioSignal.audio_data := {| base := 1%positive; transposed := false |};
              AudioSignal.sample_rate := 44100 |}
           {| AudioSignal.audio_data := {| base := 2%positive; transposed := false |};
              AudioSignal.sample_rate := 44100 |}
           (<[2%positive := [[4; 5; 6]]]> (<[1%positive := [[1; 2; 3]]]> ∅))
           [[1; 2; 3]] [[4; 5; 6]] 1 3 3).
  - vm_compute. reflexivity.
  - vm_compute. reflexivity.
  - reflexivity.
  - repeat constructor.
  - reflexivity.
  - repeat constructor.
  - lia.
Defined.

Lemma fold_left_Zmax_spec (l : list Z) : forall x,
  let m := fold_left Z.max l x in
  (x <= m)%Z /\ Forall (fun y => (y <= m)%Z) l /\ (m = x \/ m ∈ l).
Proof.
  induction l as [|y l IH]; intros x; simpl.
  - split; [lia|]. split; [constructor|left; reflexivity].
  - destruct (IH (Z.max x y)) as (H1 & H2 & H3). split; [lia|]. split.
    + constructor; [lia|exact H2].
    + destruct H3 as [H3|H3]; [|right; right; exact H3].
      rewrite H3. destruct (Z.max_spec x y) as [[_ E]|[_ E]]; rewrite E.
      * right. left.
      * left. reflexivity.
Qed.

(** X11. [load_audio_from_array] on an integer array checks the largest
    value only: the array is accepted exactly when no entry is above
    32767, whatever its smallest entry; the samples are then the
    entries divided by 32768, so all below 1, in a new array. *)
Theorem load_audio_from_array_int16 (m : list (list Z)) (sr : Z) (h : heap) :
  concat m <> [] ->
  (Forall (Forall (fun z => (z <= 32767)%Z)) m ->
     exists s h',
       AudioSignalMethods.load_audio_from_array (IntArray m) sr h = Ok (s, h') /\
       read h' (AudioSignal.audio_data s)
         = Ok (map (map (fun z => inject_Z z / 32768)) m) /\
       Forall (Forall (fun z => inject_Z z / 32768 < 1)) m /\
       AudioSignal.sample_rate s = sr /\
       (forall l buf, h !! l = Some buf -> h' !! l = Some buf)) /\
  (~ Forall (Forall (fun z => (z <= 32767)%Z)) m ->
     AudioSignalMethods.load_audio_from_array (IntArray m) sr h = Err InvalidRange).
Proof.
  intros Hne. unfold AudioSignalMethods.load_audio_from_array.
  destruct (concat m) as [|x rest] eqn:Ec; [congruence|].
  destruct (fold_left_Zmax_spec rest x) as (H1 & H2 & H3).
  split.
  - intros Hall.
    assert (Hflat : Forall (fun z => (z <= 32767)%Z) (x :: rest)).
    { rewrite <- Ec. apply Forall_concat. exact Hall. }
    assert (Hmax : (fold_left Z.max rest x <= 32767)%Z).
    { rewrite Forall_forall in Hflat. destruct H3 as [->|H3].
      - apply Hflat. left.
      - apply Hflat. right. exact H3. }
    destruct (Z.ltb_spec 32767 (fold_left Z.max rest x)); [lia|].
    eexists _, _. split; [reflexivity|]. cbn [AudioSignal.audio_data AudioSignal.sample_rate].
    split; [apply read_insert_eq|]. split; [|split; [reflexivity|]].
    + eapply Forall_impl; [exact Hall|]. intros row Hrow.
      eapply Forall_impl; [exact Hrow|]. intros z Hz. simpl in Hz.
      apply Qlt_shift_div_r; [reflexivity|].
      unfold Qlt. simpl. lia.
    + intros l buf Hl. rewrite lookup_insert_ne; [exact Hl|].
      intros E. rewrite <- E, fresh_unbound in Hl. discriminate.
  - intros Hnall. destruct (Z.ltb_spec 32767 (fold_left Z.max rest x)); [reflexivity|].
    destruct Hnall. apply Forall_concat. rewrite Ec.
    constructor; [lia|]. eapply Forall_impl; [exact H2|]. intros z Hz. simpl in Hz. lia.
Qed.

Lemma load_audio_from_array_int16_witness :
  let m : list (list Z) := [[16384; -65536]]%Z in
  let h : heap := ∅ in
  (Forall (Forall (fun z => (z <= 32767)%Z)) m ->
     exists s h',
       AudioSignalMethods.load_audio_from_array (IntArray m) 44100 h = Ok (s, h') /\
       read h' (AudioSignal.audio_data s)
         = Ok (map (map (fun z => inject_Z z / 32768)) m) /\
       Forall (Forall (fun z => inject_Z z / 32768 < 1)) m /\
       AudioSignal.sample_rate s = 44100%Z /\
       (forall l buf, h !! l = Some buf -> h' !! l = Some buf)) /\
  (~ Forall (Forall (fun z => (z <= 32767)%Z)) m ->
     AudioSignalMethods.load_audio_from_array (IntArray m) 44100 h = Err InvalidRange).
Proof.
  apply (load_audio_from_array_int16 [[16384; -65536]]%Z 44100 ∅).
  simpl. discriminate.
Defined.

Lemma column_app (a b : list (list Q)) (j : nat) :
  column (a ++ b) j = column a j ++ column b j.
Proof. unfold column. apply map_app. Qed.

(** X12. [concat] of the first version of the audio buffer joins along
    time: the result has as many rows as the two signals together, and
    each of its channels is the channel of the first signal followed by
    that of the second. *)
Theorem concat_appends_in_time (self other : AudioSignal0.t) (h : heap)
    (a b : list (list Q)) (La Lb C : nat) :
  AudioSignal0.nChannels self = AudioSignal0.nChannels other ->
  read h (AudioSignal0.AudioData self) = Ok a ->
  read h (AudioSignal0.AudioData other) = Ok b ->
  length a = La -> rect C a -> length b = Lb -> rect C b ->
  (1 <= La)%nat -> (1 <= Lb)%nat ->
  exists s' h',
    AudioSignal0Methods.concat self other h = Ok (s', h') /\
    AudioSignal0Methods.len s' h' = Ok (La + Lb)%nat /\
    forall n, (1 <= n <= Z.of_nat C)%Z ->
      exists ca cb,
        AudioSignal0Methods.getChannel self n h = Ok ca /\
        AudioSignal0Methods.getChannel other n h = Ok cb /\
        AudioSignal0Methods.getChannel s' n h' = Ok (ca ++ cb).
Proof.
  intros Hnch Ha Hb HLa HCa HLb HCb HLa1 HLb1.
  assert (Na : ncols a = C) by (apply ncols_rect; [lia|exact HCa]).
  assert (Nb : ncols b = C) by (apply ncols_rect; [lia|exact HCb]).
  assert (Hcall : AudioSignal0Methods.concat self other h =
            Ok ({| AudioSignal0.AudioData := {| base := fresh (dom h); transposed := false |};
                   AudioSignal0.nChannels := AudioSignal0.nChannels self;
                   AudioSignal0.SampleRate := AudioSignal0.SampleRate self |},
                <[fresh (dom h) := a ++ b]> h)).
  { unfold AudioSignal0Methods.concat. rewrite Hnch, Nat.eqb_refl. cbn [negb].
    rewrite Ha, Hb. cbn [mbind result_bind]. rewrite Na, Nb, Nat.eqb_refl. reflexivity. }
  eexists _, _. split; [exact Hcall|].
  unfold AudioSignal0Methods.len, AudioSignal0Methods.getChannel.
  cbn [AudioSignal0.AudioData]. rewrite read_insert_eq, Ha, Hb. cbn [mbind result_bind].
  split; [rewrite length_app, HLa, HLb; reflexivity|].
  intros n Hn. rewrite ncols_app, Na, Nb by lia.
  unfold py_index. destruct (Z.ltb_spec (n - 1) 0); [lia|].
  destruct (Z.leb_spec 0 (n - 1)); [|lia]. destruct (Z.ltb_spec (n - 1) (Z.of_nat C)); [|lia].
  cbn [andb]. eexists _, _. split; [reflexivity|]. split; [reflexivity|].
  rewrite column_app. reflexivity.
Qed.

Lemma concat_appends_in_time_witness :
  let self := {| AudioSignal0.AudioData := {| base := 1%positive; transposed := false |};
                 AudioSignal0.nChannels := 2; AudioSignal0.SampleRate := 44100 |} in
  let other := {| AudioSignal0.AudioData := {| base := 2%positive; transposed := false |};
                  AudioSignal0.nChannels := 2; AudioSignal0.SampleRate := 44100 |} in
  let h : heap := <[2%positive := [[5; 6]]]> (<[1%positive := [[1; 2]; [3; 4]]]> ∅) in
  exists s' h',
    AudioSignal0Methods.concat self other h = Ok (s', h') /\
    AudioSignal0Methods.len s' h' = Ok (2 + 1)%nat /\
    forall n, (1 <= n <= Z.of_nat 2)%Z ->
      exists ca cb,
        AudioSignal0Methods.getChannel self n h = Ok ca /\
        AudioSignal0Methods.getChannel other n h = Ok cb /\
        AudioSignal0Methods.getChannel s' n h' = Ok (ca ++ cb).
Proof.
  apply (concat_appends_in_time
           {| AudioSignal0.AudioData := {| base := 1%positive; transposed := false |};
              AudioSignal0.nChannels := 2; AudioSignal0.SampleRate := 44100 |}
           {| AudioSignal0.AudioData := {| base := 2%positive; transposed := false |};
              AudioSignal0.nChannels := 2; AudioSignal0.SampleRate := 44100 |}
           (<[2%positive := [[5; 6]]]> (<[1%positive := [[1; 2]; [3; 4]]]> ∅))
           [[1; 2]; [3; 4]] [[5; 6]] 2 1 2).
  - reflexivity.
  - vm_compute. reflexivity.
  - vm_compute. reflexivity.
  - reflexivity.
  - repeat constructor.
  - reflexivity.
  - repeat constructor.
  - lia.
  - lia.
Defined.

(** X13. [MakeAudioSignals] computes the foreground with the
    subtraction of the first audio buffer, which on two signals of one
    shape (the background is built with the shape of the mixture)
    subtracts the mixture from the background: every sample of the
    foreground is background minus mixture. *)
Theorem MakeAudioSignals_foreground_reversed (Mixture bkgd : AudioSignal0.t) (h : heap)
    (a b : list (list Q)) (F Tn : nat) :
  AudioSignal0.nChannels Mixture = AudioSignal0.nChannels bkgd ->
  transposed (AudioSignal0.AudioData Mixture) = false ->
  transposed (AudioSignal0.AudioData bkgd) = false ->
  h !! base (AudioSignal0.AudioData Mixture) = Some a ->
  h !! base (AudioSignal0.AudioData bkgd) = Some b ->
  length a = F -> rect Tn a -> length b = F -> rect Tn b ->
  (1 <= F)%nat -> (1 <= Tn)%nat ->
  exists fgnd h' m,
    MakeAudioSignals Mixture bkgd h = Ok ([bkgd; fgnd], h') /\
    read h' (AudioSignal0.AudioData fgnd) = Ok m /\
    forall i j x y, mlookup a i j = Some x -> mlookup b i j = Some y ->
      mlookup m i j = Some (y - x).
Proof.
  intros Hnch Hts Hto Hs Ho Ha Ra Hb Rb HF HT.
  assert (Na : ncols a = Tn) by (apply ncols_rect; [lia|exact Ra]).
  assert (Nb : ncols b = Tn) by (apply ncols_rect; [lia|exact Rb]).
  unfold MakeAudioSignals, AudioSignal0.sub, AudioSignal0.combine.
  rewrite Hnch, Nat.eqb_refl. cbn [negb].
  unfold read at 1 2. rewrite Hs, Ho, Hts, Hto. cbn [mbind result_bind].
  unfold AudioSignal.size, nrows. rewrite Ha, Hb, Na, Nb, Nat.ltb_irrefl.
  unfold np_copy at 1. unfold read at 1. rewrite Ho, Hto. cbn [mbind result_bind].
  set (l1 := fresh (dom h)).
  unfold inplace_rows. cbn [base]. rewrite lookup_insert_eq.
  unfold nrows. rewrite Ha, Hb, Na, Nb.
  replace (Nat.min (F * Tn) F) with F by nia.
  rewrite !Nat.eqb_refl. cbn [orb andb mbind result_bind].
  rewrite insert_insert_eq.
  set (m := imap _ b).
  unfold AudioSignal0.of_array, np_copy. rewrite read_insert_eq. cbn [mbind result_bind].
  set (l2 := fresh (dom (<[l1 := m]> h))).
  unfold shape. rewrite read_insert_eq. cbn [mbind result_bind].
  eexists _, _, m. split; [reflexivity|]. cbn [AudioSignal0.AudioData].
  split; [apply read_insert_eq|].
  intros i j x y Hx Hy.
  destruct (mlookup_bounds _ F Tn _ _ _ Ha Ra Hx) as [Hi Hj].
  unfold m, mlookup in *.
  destruct (b !! i) as [row|] eqn:Erow; [|discriminate]. simpl in Hy.
  rewrite list_lookup_imap, Erow. simpl.
  replace (i <? F)%nat with true by (symmetry; apply Nat.ltb_lt; exact Hi).
  rewrite list_lookup_imap, Hy. simpl. do 2 f_equal.
  replace (if (F =? 1)%nat then 0%nat else i) with i
    by (destruct (Nat.eqb_spec F 1); lia).
  replace (if (Tn =? 1)%nat then 0%nat else j) with j
    by (destruct (Nat.eqb_spec Tn 1); lia).
  apply mget_mlookup. unfold mlookup. exact Hx.
Qed.

Lemma MakeAudioSignals_foreground_reversed_witness :
  let Mixture := {| AudioSignal0.AudioData := {| base := 1%positive; transposed := false |};
                    AudioSignal0.nChannels := 1; AudioSignal0.SampleRate := 44100 |} in
  let bkgd := {| AudioSignal0.AudioData := {| base := 2%positive; transposed := false |};
                 AudioSignal0.nChannels := 1; AudioSignal0.SampleRate := 44100 |} in
  let a : list (list Q) := [[0.5]; [0.75]] in
  let b : list (list Q) := [[0.25]; [0.5]] in
  let h : heap := <[2%positive := b]> (<[1%positive := a]> ∅) in
  exists fgnd h' m,
    MakeAudioSignals Mixture bkgd h = Ok ([bkgd; fgnd], h') /\
    read h' (AudioSignal0.AudioData fgnd) = Ok m /\
    forall i j x y, mlookup a i j = Some x -> mlookup b i j = Some y ->
      mlookup m i j = Some (y - x).
Proof.
  apply (MakeAudioSignals_foreground_reversed
           {| AudioSignal0.AudioData := {| base := 1%positive; transposed := false |};
              AudioSignal0.nChannels := 1; AudioSignal0.SampleRate := 44100 |}
           {| AudioSignal0.AudioData := {| base := 2%positive; transposed := false |};
              AudioSignal0.nChannels := 1; AudioSignal0.SampleRate := 44100 |}
           (<[2%positive := [[0.25]; [0.5]]]> (<[1%positive := [[0.5]; [0.75]]]> ∅))
           [[0.5]; [0.75]] [[0.25]; [0.5]] 2 1).
  - reflexivity.
  - reflexivity.
  - reflexivity.
  - vm_compute. reflexivity.
  - vm_compute. reflexivity.
  - reflexivity.
  - repeat constructor.
  - reflexivity.
  - repeat constructor.
  - lia.
  - lia.
Defined.

(** ** Medians *)

Lemma insert_sorted_Permutation (x : Q) (l : vector) : insert_sorted x l ≡ₚ x :: l.
Proof.
  induction l as [|y l IH]; simpl; [reflexivity|].
  destruct (Qle_bool x y); [reflexivity|].
  rewrite IH. apply Permutation_swap.
Qed.

Lemma np_sort_Permutation (v : vector) : np_sort v ≡ₚ v.
Proof.
  induction v as [|x v IH]; simpl; [reflexivity|].
  rewrite insert_sorted_Permutation, IH. reflexivity.
Qed.

Lemma insert_sorted_Sorted (x : Q) (l : vector) :
  StronglySorted Qle l -> StronglySorted Qle (insert_sorted x l).
Proof.
  induction 1 as [|y l Hs IH Hall]; simpl.
  - repeat constructor.
  - destruct (Qle_bool x y) eqn:E.
    + apply Qle_bool_iff in E. constructor; [constructor; assumption|].
      constructor; [exact E|]. eapply Forall_impl; [exact Hall|].
      intros z Hz. simpl in Hz. lra.
    + assert (Hyx : y <= x).
      { destruct (Qlt_le_dec x y) as [Hlt|Hle]; [|exact Hle].
        assert (Qle_bool x y = true) by (apply Qle_bool_iff; lra). congruence. }
      constructor; [exact IH|].
      rewrite insert_sorted_Permutation. constructor; assumption.
Qed.

Lemma np_sort_Sorted (v : vector) : StronglySorted Qle (np_sort v).
Proof.
  induction v as [|x v IH]; simpl; [constructor|].
  apply insert_sorted_Sorted. exact IH.
Qed.

Lemma median_None (v : vector) : median v = None <-> v = [].
Proof.
  unfold median. pose proof (np_sort_Permutation v) as Hp.
  apply Permutation_length in Hp. rewrite Hp.
  destruct v as [|x v]; [split; reflexivity|].
  change (length (x :: v)) with (S (length v)). cbn [Nat.eqb].
  split; [|discriminate]. destruct (Nat.even _); discriminate.
Qed.

(** A median lies between any two bounds of the entries. *)
Lemma median_bounds (v : vector) (lo hi m : Q) :
  Forall (fun x => lo <= x /\ x <= hi) v -> median v = Some m -> lo <= m /\ m <= hi.
Proof.
  intros Hall Hm. unfold median in Hm.
  pose proof (np_sort_Permutation v) as Hp. rewrite <- Hp in Hall.
  set (s := np_sort v) in *.
  assert (Hnth : forall i, (i < length s)%nat -> lo <= nth i s 0 /\ nth i s 0 <= hi).
  { intros i Hi. rewrite Forall_forall in Hall. apply Hall.
    apply list_elem_of_In, nth_In. exact Hi. }
  destruct (Nat.eqb_spec (length s) 0) as [|Hn]; [discriminate|].
  assert (H2 : (length s / 2 < length s)%nat) by (apply Nat.div_lt; lia).
  pose proof (Hnth (length s / 2 - 1)%nat ltac:(lia)) as Ha.
  pose proof (Hnth (length s / 2)%nat H2) as Hb.
  set (a := nth (length s / 2 - 1) s 0) in *.
  set (b := nth (length s / 2) s 0) in *.
  destruct (Nat.even (length s)); injection Hm as <-.
  - split.
    + apply Qle_shift_div_l; [reflexivity|]. lra.
    + apply Qle_shift_div_r; [reflexivity|]. lra.
  - exact Hb.
Qed.

Lemma median_is_Some (v : vector) : v <> [] -> exists m, median v = Some m.
Proof.
  intros Hne. destruct (median v) as [m|] eqn:E; [eauto|].
  apply median_None in E. contradiction.
Qed.

(** ** Reshaping *)

Lemma reshape_rows_concat {A} (m : list (list A)) (c : nat) :
  Forall (fun row => length row = c) m ->
  reshape_rows (length m) c (concat m) = m.
Proof.
  induction 1 as [|row m Hrow _ IH]; [reflexivity|]. simpl.
  rewrite take_app_length' by (symmetry; exact Hrow).
  rewrite drop_app_length' by (symmetry; exact Hrow). rewrite IH. reflexivity.
Qed.

Lemma reshape_rows_shape {A} (r c : nat) : forall (l : list A),
  length l = (r * c)%nat ->
  length (reshape_rows r c l) = r /\
  Forall (fun row => length row = c) (reshape_rows r c l).
Proof.
  induction r as [|r IH]; intros l Hl; simpl; [split; [reflexivity|constructor]|].
  destruct (IH (drop c l)) as [H1 H2]; [rewrite length_drop; lia|].
  split; [rewrite H1; reflexivity|].
  constructor; [rewrite length_take; lia|exact H2].
Qed.

Lemma reshape_rows_lookup {A} (r c : nat) : forall (l : list A) (i j : nat),
  (i < r)%nat -> (j < c)%nat ->
  mlookup (reshape_rows r c l) i j = l !! (i * c + j)%nat.
Proof.
  induction r as [|r IH]; intros l i j Hi Hj; [lia|]. simpl.
  destruct i as [|i].
  - unfold mlookup. simpl. rewrite lookup_take_lt by exact Hj. reflexivity.
  - change (mlookup (take c l :: reshape_rows r c (drop c l)) (S i) j)
      with (mlookup (reshape_rows r c (drop c l)) i j).
    rewrite IH by lia. rewrite lookup_drop. f_equal. lia.
Qed.

(** ** The soft mask *)

Lemma minimum_spec (x y : Q) : minimum x y <= x /\ minimum x y <= y /\
  (minimum x y = x \/ minimum x y = y).
Proof.
  unfold minimum. destruct (Qle_bool x y) eqn:E.
  - apply Qle_bool_iff in E. split; [lra|]. split; [exact E|]. left. reflexivity.
  - split; [|split; [lra|right; reflexivity]].
    destruct (Qlt_le_dec x y) as [Hlt|Hle]; [|exact Hle].
    assert (Qle_bool x y = true) by (apply Qle_bool_iff; lra). congruence.
Qed.

(** A mask entry is in (0, 1] when model and magnitude are not
    negative. *)
Lemma mask_entry_range (EPSILON w v : Q) :
  0 < EPSILON -> 0 <= w -> 0 <= v ->
  0 < (minimum w v + EPSILON) / (v + EPSILON) /\
  (minimum w v + EPSILON) / (v + EPSILON) <= 1.
Proof.
  intros He Hw Hv. destruct (minimum_spec w v) as (H1 & H2 & H3).
  assert (H0 : 0 <= minimum w v) by (destruct H3 as [-> | ->]; assumption).
  split.
  - apply Qlt_shift_div_l; lra.
  - apply Qle_shift_div_r; lra.
Qed.

(** The last lines of the two mask functions, entry by entry. *)
Lemma soft_mask_spec (EPSILON : Q) (W V : list (list Q)) (Lf Lt : nat) :
  length W = Lf -> rect Lt W -> length V = Lf -> rect Lt V -> (1 <= Lf)%nat ->
  Forall (Forall (fun v => ~ v + EPSILON == 0)) V ->
  exists M, soft_mask EPSILON W V = Ok (Finite M) /\
    length M = Lf /\ rect Lt M /\
    forall f t w v, mlookup W f t = Some w -> mlookup V f t = Some v ->
      mlookup M f t = Some ((minimum w v + EPSILON) / (v + EPSILON)).
Proof.
  intros HW RW HV RV HLf Hden.
  assert (NV : ncols V = Lt) by (apply ncols_rect; [lia|exact RV]).
  pose proof (same_shape_Forall2 W V Lf Lt HW RW HV RV) as Hsame.
  destruct (mzip_with_shape minimum W V Lf Lt HW RW HV RV) as [HX RX].
  unfold soft_mask, flatten.
  rewrite (concat_length_rect W Lt RW), (concat_length_rect V Lt RV), HW, HV, Nat.eqb_refl.
  cbn [negb]. rewrite <- (concat_mzip_with minimum W V Hsame).
  unfold reshape. rewrite (concat_length_rect _ Lt RX), HX.
  unfold nrows. rewrite HV, NV, Nat.eqb_refl. cbn [mbind result_bind].
  assert (Hr : reshape_rows Lf Lt (concat (mzip_with minimum W V)) = mzip_with minimum W V).
  { rewrite <- HX at 1. apply reshape_rows_concat. exact RX. }
  rewrite Hr.
  replace (existsb _ _) with false.
  2:{ symmetry. apply not_true_is_false. intros Hex.
      apply existsb_exists in Hex as (v & Hin & Hv). apply Qeq_bool_eq in Hv.
      apply Forall_concat in Hden. rewrite Forall_forall in Hden.
      apply (Hden v); [apply list_elem_of_In; exact Hin|exact Hv]. }
  eexists. split; [reflexivity|].
  destruct (mzip_with_shape (fun w v => (w + EPSILON) / (v + EPSILON))
              (mzip_with minimum W V) V Lf Lt HX RX HV RV) as [HM RM].
  split; [exact HM|]. split; [exact RM|].
  intros f t w v Hw Hv.
  apply (mlookup_mzip_with (fun w v => (w + EPSILON) / (v + EPSILON))); [|exact Hv].
  apply (mlookup_mzip_with minimum); assumption.
Qed.

(** ** Arrays given by a formula *)

Lemma mapM_result_ok {A B} (f : A -> result B) (g : A -> B) (l : list A) :
  (forall x, x ∈ l -> f x = Ok (g x)) -> mapM f l = Ok (map g l).
Proof.
  induction l as [|x l IH]; intros H; [reflexivity|].
  cbn [mapM]. rewrite (H x) by left. cbn [mbind result_bind].
  rewrite IH by (intros y Hy; apply H; right; exact Hy). reflexivity.
Qed.

Lemma mapM_option_ok {A B} (f : A -> option B) (g : A -> B) (l : list A) :
  (forall x, x ∈ l -> f x = Some (g x)) -> mapM f l = Some (map g l).
Proof.
  intros H. apply mapM_Some. apply Forall2_fmap_r, Forall_Forall2_diag, Forall_forall.
  exact H.
Qed.

Lemma mapM_id_Some {A B} (g : A -> B) (l : list A) :
  mapM id (map (fun x => Some (g x)) l) = Some (map g l).
Proof.
  apply mapM_Some. induction l as [|x l IH]; simpl; constructor; [reflexivity|exact IH].
Qed.

Lemma nth_map_seq {A} (g : nat -> A) (n i : nat) (d : A) :
  (i < n)%nat -> nth i (map g (seq 0 n)) d = g i.
Proof.
  intros Hi. apply nth_lookup_Some with (d := d).
  rewrite list_lookup_fmap, lookup_seq_lt by exact Hi. reflexivity.
Qed.

Lemma mlookup_tabulate {A} (g : nat -> nat -> A) (R C i j : nat) :
  (i < R)%nat -> (j < C)%nat ->
  mlookup (map (fun i => map (g i) (seq 0 C)) (seq 0 R)) i j = Some (g i j).
Proof.
  intros Hi Hj. unfold mlookup.
  rewrite list_lookup_fmap, lookup_seq_lt by exact Hi. simpl.
  rewrite list_lookup_fmap, lookup_seq_lt by exact Hj. reflexivity.
Qed.

Lemma tabulate_shape {A} (g : nat -> nat -> A) (R C : nat) :
  length (map (fun i => map (g i) (seq 0 C)) (seq 0 R)) = R /\
  Forall (fun row => length row = C) (map (fun i => map (g i) (seq 0 C)) (seq 0 R)).
Proof.
  split; [rewrite length_map, length_seq; reflexivity|].
  apply Forall_fmap, Forall_forall. intros i _. simpl.
  rewrite length_map, length_seq. reflexivity.
Qed.

Lemma transpose_tabulate (g : nat -> nat -> Q) (R C : nat) :
  (1 <= R)%nat ->
  transpose (map (fun i => map (g i) (seq 0 C)) (seq 0 R))
  = map (fun j => map (fun i => g i j) (seq 0 R)) (seq 0 C).
Proof.
  intros HR. unfold transpose.
  destruct (tabulate_shape g R C) as [HL HC].
  rewrite (ncols_rect _ C) by (try exact HC; lia).
  apply map_ext_in. intros j Hj. apply in_seq in Hj.
  unfold column. rewrite map_map. apply map_ext_in. intros i Hi. apply in_seq in Hi.
  apply nth_map_seq. lia.
Qed.

Lemma nth_column (V : list (list Q)) (f k : nat) : nth f (column V k) 0 = mget V f k.
Proof.
  unfold column, mget. revert f. induction V as [|row V IH]; intros f.
  - destruct f, k; reflexivity.
  - destruct f as [|f]; [reflexivity|]. simpl. apply IH.
Qed.

Lemma py_index_mod (n : nat) (i : Z) :
  (- Z.of_nat n <= i < Z.of_nat n)%Z ->
  py_index n i = Some (Z.to_nat (i mod Z.of_nat n)).
Proof.
  intros Hi. unfold py_index. destruct (Z.ltb_spec i 0).
  - destruct (Z.leb_spec 0 (i + Z.of_nat n)); [|lia].
    destruct (Z.ltb_spec (i + Z.of_nat n) (Z.of_nat n)); [|lia].
    cbn [andb]. do 2 f_equal.
    rewrite <- (Z.mod_small (i + Z.of_nat n) (Z.of_nat n)) at 1 by lia.
    rewrite <- (Z_mod_plus_full i 1 (Z.of_nat n)). f_equal. lia.
  - destruct (Z.leb_spec 0 i); [|lia]. destruct (Z.ltb_spec i (Z.of_nat n)); [|lia].
    cbn [andb]. rewrite Z.mod_small by lia. reflexivity.
Qed.

(** ** The repeating mask from similarity indices *)

(** The frames [pind] names, as positions among [Lt] frames. *)
Lemma take_rows_frames (V : list (list Q)) (Lt : nat) (pind : list Z) :
  ncols V = Lt ->
  Forall (fun i => (- Z.of_nat Lt <= i < Z.of_nat Lt)%Z) pind ->
  take_rows (transpose V) pind
  = Ok (map (fun i => column V (Z.to_nat (i mod Z.of_nat Lt))) pind).
Proof.
  intros NV Hall. unfold take_rows. apply mapM_result_ok. intros i Hi.
  rewrite Forall_forall in Hall. pose proof (Hall i Hi) as Hb.
  assert (HlenT : length (transpose V) = Lt).
  { unfold transpose. rewrite length_map, length_seq. exact NV. }
  rewrite HlenT, (py_index_mod Lt i Hb).
  assert (Hk : (Z.to_nat (i mod Z.of_nat Lt) < Lt)%nat).
  { pose proof (Z.mod_pos_bound i (Z.of_nat Lt) ltac:(lia)). lia. }
  rewrite transpose_lookup by (rewrite NV; exact Hk). reflexivity.
Qed.

(** The mask of [ComputeRepeatingMaskSim], entry by entry. *)
Lemma ComputeRepeatingMaskSim_spec (EPSILON : Q) (V : list (list Q))
    (I : list (list Z)) (Lf Lt : nat) :
  length V = Lf -> rect Lt V -> (1 <= Lf)%nat -> (1 <= Lt)%nat ->
  Forall (Forall (fun v => 0 <= v)) V -> 0 < EPSILON ->
  length I = Lt ->
  Forall (fun pind => pind <> [] /\
            Forall (fun i => (- Z.of_nat Lt <= i < Z.of_nat Lt)%Z) pind) I ->
  exists M,
    ComputeRepeatingMaskSim EPSILON V I = Ok (Finite M) /\
    length M = Lf /\ rect Lt M /\
    (forall f t v pind, mlookup V f t = Some v -> I !! t = Some pind ->
       exists med,
         median (map (fun i => mget V f (Z.to_nat (i mod Z.of_nat Lt))) pind) = Some med /\
         mlookup M f t = Some ((minimum med v + EPSILON) / (v + EPSILON))) /\
    Forall (Forall (fun m => 0 < m /\ m <= 1)) M.
Proof.
  intros HV RV HLf HLt Hnn Heps HI HIall.
  assert (NV : ncols V = Lt) by (apply ncols_rect; [lia|exact RV]).
  set (col := fun (f : nat) (pind : list Z) =>
                map (fun i => mget V f (Z.to_nat (i mod Z.of_nat Lt))) pind).
  set (G := fun (t f : nat) => default 0 (median (col f (default [] (I !! t))))).
  assert (Hmed : forall f t pind, I !! t = Some pind ->
            median (col f pind) = Some (G t f) /\ 0 <= G t f).
  { intros f t pind Ht. rewrite Forall_lookup in HIall.
    destruct (HIall t pind Ht) as [Hne Hidx].
    destruct (median_is_Some (col f pind)) as [m Hm].
    { unfold col. destruct pind; [congruence|discriminate]. }
    unfold G. rewrite Ht. simpl. rewrite Hm. simpl. split; [reflexivity|].
    assert (Hb : Forall (fun x => 0 <= x /\ x <= sum (col f pind)) (col f pind)).
    { assert (Hcn : Forall (fun x => 0 <= x) (col f pind)).
      { unfold col. apply Forall_fmap, Forall_forall. intros i _. simpl.
        unfold mget.
        destruct (nth_in_or_default f V []) as [Hin|Hd].
        - rewrite Forall_forall in Hnn. apply list_elem_of_In in Hin.
          pose proof (Hnn _ Hin) as Hrow.
          destruct (nth_in_or_default (Z.to_nat (i mod Z.of_nat Lt)) (nth f V []) 0)
            as [Hin2|Hd2].
          + rewrite Forall_forall in Hrow. apply Hrow, list_elem_of_In, Hin2.
          + rewrite Hd2. lra.
        - rewrite Hd. destruct (Z.to_nat _); simpl; lra. }
      apply Forall_forall. intros x Hx. split.
      - rewrite Forall_forall in Hcn. apply Hcn. exact Hx.
      - apply sum_ge_elem; assumption. }
    apply (median_bounds _ _ _ _ Hb Hm). }
  assert (HW : mapM (fun i =>
                 match I !! i with
                 | None => Err IndexOutOfBounds
                 | Some pind =>
                     rows ← take_rows (transpose V) pind;
                     Ok (median_axis0 Lf rows)
                 end) (seq 0 Lt)
               = Ok (map (fun t => Some (map (G t) (seq 0 Lf))) (seq 0 Lt))).
  { apply mapM_result_ok. intros t Ht. apply elem_of_seq in Ht.
    destruct (lookup_lt_is_Some_2 I t ltac:(lia)) as [pind Hp]. rewrite Hp.
    rewrite Forall_lookup in HIall. destruct (HIall t pind Hp) as [_ Hidx].
    rewrite (take_rows_frames V Lt pind NV Hidx). cbn [mbind result_bind]. f_equal.
    unfold median_axis0. apply mapM_option_ok. intros f _.
    unfold column at 1. rewrite map_map.
    rewrite <- (proj1 (Hmed f t pind Hp)). f_equal. unfold col.
    apply map_ext. intros i. apply nth_column. }
  unfold ComputeRepeatingMaskSim. unfold nrows. rewrite HV, NV, HW.
  cbn [mbind result_bind].
  rewrite (mapM_id_Some (fun t => map (G t) (seq 0 Lf))).
  rewrite transpose_tabulate by exact HLt.
  destruct (tabulate_shape (fun f t => G t f) Lf Lt) as [HWl HWr].
  destruct (soft_mask_spec EPSILON _ V Lf Lt HWl HWr HV RV HLf) as (M & HM & HMl & HMr & HMe).
  { eapply Forall_impl; [exact Hnn|]. intros row Hrow.
    eapply Forall_impl; [exact Hrow|]. intros v Hv. simpl in Hv. lra. }
  exists M. split; [exact HM|]. split; [exact HMl|]. split; [exact HMr|].
  assert (Hent : forall f t v pind, mlookup V f t = Some v -> I !! t = Some pind ->
            mlookup M f t = Some ((minimum (G t f) v + EPSILON) / (v + EPSILON))).
  { intros f t v pind Hv Hp.
    destruct (mlookup_bounds V Lf Lt f t v HV RV Hv) as [Hf Ht].
    apply HMe; [|exact Hv]. apply (mlookup_tabulate (fun f t => G t f)); assumption. }
  split.
  - intros f t v pind Hv Hp. exists (G t f). split.
    + apply (Hmed f t pind Hp).
    + apply (Hent f t v pind Hv Hp).
  - apply (Forall_mlookup _ M Lf Lt HMl HMr). intros f t Hf Ht.
    destruct (mlookup_rect V Lf Lt f t HV RV Hf Ht) as [v Hv].
    destruct (lookup_lt_is_Some_2 I t ltac:(lia)) as [pind Hp].
    eexists. split; [apply (Hent f t v pind Hv Hp)|].
    apply mask_entry_range; [exact Heps|apply (Hmed f t pind Hp)|].
    apply (mlookup_Forall (fun v => 0 <= v) V f t v Hnn Hv).
Qed.

(** X14. [ComputeRepeatingMaskSim] on a magnitude spectrogram without
    negative entries, with a positive [EPSILON] and, for every frame, a
    non-empty row of valid frame indices: the mask has the shape of the
    spectrogram; its entry at bin [f] and frame [t] is
    [(min(med, v) + EPSILON) / (v + EPSILON)], where [v] is the
    magnitude there and [med] the median of bin [f] over the frames
    similar to [t]; and every entry is above 0 and at most 1. *)
Theorem ComputeRepeatingMaskSim_entries (EPSILON : Q) (V : list (list Q))
    (I : list (list Z)) (Lf Lt : nat) :
  length V = Lf -> rect Lt V -> (1 <= Lf)%nat -> (1 <= Lt)%nat ->
  Forall (Forall (fun v => 0 <= v)) V -> 0 < EPSILON ->
  length I = Lt ->
  Forall (fun pind => pind <> [] /\
            Forall (fun i => (- Z.of_nat Lt <= i < Z.of_nat Lt)%Z) pind) I ->
  exists M,
    ComputeRepeatingMaskSim EPSILON V I = Ok (Finite M) /\
    length M = Lf /\ rect Lt M /\
    (forall f t v pind, mlookup V f t = Some v -> I !! t = Some pind ->
       exists med,
         median (map (fun i => mget V f (Z.to_nat (i mod Z.of_nat Lt))) pind) = Some med /\
         mlookup M f t = Some ((minimum med v + EPSILON) / (v + EPSILON))) /\
    Forall (Forall (fun m => 0 < m /\ m <= 1)) M.
Proof. apply ComputeRepeatingMaskSim_spec. Qed.

Lemma ComputeRepeatingMaskSim_entries_witness :
  let V : list (list Q) := [[1; 2; 3]; [4; 5; 6]] in
  let I : list (list Z) := [[0; 1]; [1; 2]; [0; 2]]%Z in
  exists M,
    ComputeRepeatingMaskSim 1e-16 V I = Ok (Finite M) /\
    length M = 2%nat /\ rect 3 M /\
    (forall f t v pind, mlookup V f t = Some v -> I !! t = Some pind ->
       exists med,
         median (map (fun i => mget V f (Z.to_nat (i mod Z.of_nat 3))) pind) = Some med /\
         mlookup M f t = Some ((minimum med v + 1e-16) / (v + 1e-16))) /\
    Forall (Forall (fun m => 0 < m /\ m <= 1)) M.
Proof.
  apply (ComputeRepeatingMaskSim_entries 1e-16 [[1; 2; 3]; [4; 5; 6]]
           [[0; 1]; [1; 2]; [0; 2]]%Z 2 3).
  - reflexivity.
  - repeat constructor.
  - lia.
  - lia.
  - repeat constructor; vm_compute; discriminate.
  - reflexivity.
  - reflexivity.
  - repeat constructor; try discriminate; lia.
Defined.

(** ** Similarity indices *)

Lemma mapM_result_inv {A B} (f : A -> result B) (l : list A) :
  (forall k, mapM f l = Ok k -> Forall2 (fun x y => f x = Ok y) l k) /\
  (forall e, mapM f l = Err e -> Exists (fun x => f x = Err e) l).
Proof.
  induction l as [|x l [IH1 IH2]]; cbn [mapM].
  - split; [intros k Hk; injection Hk as <-; constructor|intros e He; discriminate].
  - destruct (f x) as [y|e0] eqn:Ef; cbn [mbind result_bind].
    + destruct (mapM f l) as [k0|e1]; cbn [mbind result_bind].
      * split; [|intros e He; discriminate].
        intros k Hk. injection Hk as <-. constructor; [exact Ef|]. apply IH1. reflexivity.
      * split; [intros k Hk; discriminate|].
        intros e He. injection He as <-. right. apply IH2. reflexivity.
    + split; [intros k Hk; discriminate|].
      intros e He. injection He as <-. left. exact Ef.
Qed.

Lemma zero_slice_length (a b : Z) (v : vector) : length (zero_slice a b v) = length v.
Proof. unfold zero_slice. apply length_imap. Qed.

(** The loop of [find_peaks] stores positions of the data only. *)
Lemma find_peaks_loop_range (n : nat) (d : Z) : forall fuel i data Pi,
  length data = n -> (1 <= n)%nat ->
  Forall (fun p => (0 <= p < Z.of_nat n)%Z) Pi ->
  Forall (fun p => (0 <= p < Z.of_nat n)%Z) (find_peaks_loop fuel i d data Pi).
Proof.
  induction fuel as [|fuel IH]; intros i data Pi Hn Hn1 HPi; [exact HPi|].
  cbn [find_peaks_loop].
  assert (Harg : (argmax data < n)%nat).
  { destruct (argmax_spec data) as (m & Hm & _); [intros ->; simpl in Hn; lia|].
    apply lookup_lt_Some in Hm. lia. }
  assert (HPi' : Forall (fun p => (0 <= p < Z.of_nat n)%Z) (<[i := Z.of_nat (argmax data)]> Pi)).
  { apply Forall_insert; [exact HPi|lia]. }
  destruct (Qeq_bool _ 0); [exact HPi'|].
  apply IH; [rewrite zero_slice_length; exact Hn|exact Hn1|exact HPi'].
Qed.

(** The peaks [find_peaks] returns are positions of the data. *)
Lemma find_peaks_range (data : vector) (min_thr : Q) (min_dist : option Z)
    (max_num : nat) (Pi : list Z) :
  (1 <= max_num)%nat ->
  find_peaks data min_thr min_dist max_num = Ok Pi ->
  Forall (fun p => (0 <= p < Z.of_nat (length data))%Z) Pi.
Proof.
  intros HK Hrun. unfold find_peaks in Hrun.
  destruct (Nat.ltb_spec (size_nonzero2 [multiply data (ge_mask min_thr data)]) max_num)
    as [|Hcount]; [discriminate|].
  injection Hrun as <-.
  assert (Hlen : (1 <= length data)%nat).
  { unfold size_nonzero2, flatten in Hcount. simpl in Hcount. rewrite app_nil_r in Hcount.
    pose proof (count_nonzero_le_length (multiply data (ge_mask min_thr data))) as Hc.
    rewrite thresholded_length in Hc. lia. }
  rewrite merge_sort_Permutation.
  apply find_peaks_loop_range.
  - apply thresholded_length.
  - exact Hlen.
  - apply Forall_replicate. lia.
Qed.

(** The rows [FindSimilarityIndices] returns. *)
Lemma FindSimilarityIndices_ok_rows (S : list (list Q)) (thr : Q) (d : Z) (K Lt : nat)
    (I : list (list Z)) :
  rect Lt S -> (1 <= K)%nat ->
  FindSimilarityIndices S thr d K = Ok I ->
  length I = length S /\
  Forall (fun pind => length pind = K /\ Sorted Z.le pind /\
                      Forall (fun p => (0 <= p < Z.of_nat Lt)%Z) pind) I.
Proof.
  intros RS HK Hrun. unfold FindSimilarityIndices in Hrun.
  apply (proj1 (mapM_result_inv _ S)) in Hrun.
  split; [symmetry; eapply Forall2_length; exact Hrun|].
  unfold rect in RS. induction Hrun as [|row pind S' I' Hrow _ IH]; [constructor|].
  apply Forall_cons in RS as [Hlen RS]. constructor; [|apply IH; exact RS].
  destruct (find_peaks_sorted _ _ _ _ _ Hrow) as [Hs Hl].
  split; [exact Hl|]. split; [exact Hs|].
  rewrite <- Hlen. eapply find_peaks_range; [exact HK|exact Hrow].
Qed.

(** X15. [FindSimilarityIndices] on a similarity matrix with [Lt]
    columns, for one or more repeating frames: a result has one row per
    row of the matrix, each with [MaxRepeatingFrames] frame indices in
    increasing order, all of them positions of existing frames; and
    the call raises exactly the error of the first row for which
    [FindPeaks] raises, that is when twice the number of non-zero
    entries of some row that reach the threshold is below
    [MaxRepeatingFrames]. *)
Theorem FindSimilarityIndices_rows (S : list (list Q)) (thr : Q) (d : Z) (K Lt : nat) :
  rect Lt S -> (1 <= K)%nat ->
  (forall I, FindSimilarityIndices S thr d K = Ok I ->
     length I = length S /\
     Forall (fun pind => length pind = K /\ Sorted Z.le pind /\
                         Forall (fun p => (0 <= p < Z.of_nat Lt)%Z) pind) I) /\
  (forall e, FindSimilarityIndices S thr d K = Err e <->
     e = InsufficientPeaks /\
     Exists (fun row => (2 * count_nonzero (multiply row (ge_mask thr row)) < K)%nat) S).
Proof.
  intros RS HK. split.
  - intros I HI. apply (FindSimilarityIndices_ok_rows S thr d K Lt I RS HK HI).
  - intros e. unfold FindSimilarityIndices. split.
    + intros He. apply (proj2 (mapM_result_inv _ S)) in He.
      assert (He' : e = InsufficientPeaks).
      { apply Exists_exists in He as (row & _ & Hrow). unfold find_peaks in Hrow.
        destruct (_ <? _)%nat; [congruence|discriminate]. }
      split; [exact He'|]. subst e.
      eapply Exists_impl; [exact He|]. intros row Hrow. simpl in Hrow.
      apply (proj1 (find_peaks_raises_iff row thr (Some d) K)) in Hrow. exact Hrow.
    + intros [-> Hex].
      destruct (mapM _ S) as [I|e] eqn:Erun.
      * exfalso. apply (proj1 (mapM_result_inv _ S)) in Erun.
        apply Exists_exists in Hex as (row & Hin & Hrow).
        apply list_elem_of_lookup in Hin as [i Hi].
        destruct (Forall2_lookup_l _ _ _ _ _ Erun Hi) as (pind & _ & Hp).
        simpl in Hp. apply (proj2 (find_peaks_raises_iff row thr (Some d) K)) in Hrow.
        congruence.
      * apply (proj2 (mapM_result_inv _ S)) in Erun.
        apply Exists_exists in Erun as (row & _ & Hrow). unfold find_peaks in Hrow.
        destruct (_ <? _)%nat; [congruence|discriminate].
Qed.

Lemma FindSimilarityIndices_rows_witness :
  let S : list (list Q) := [[1; 0.5; 0.2]; [0.5; 1; 0.3]; [0.2; 0.3; 1]] in
  (forall I, FindSimilarityIndices S 0 0 2 = Ok I ->
     length I = length S /\
     Forall (fun pind => length pind = 2%nat /\ Sorted Z.le pind /\
                         Forall (fun p => (0 <= p < Z.of_nat 3)%Z) pind) I) /\
  (forall e, FindSimilarityIndices S 0 0 2 = Err e <->
     e = InsufficientPeaks /\
     Exists (fun row => (2 * count_nonzero (multiply row (ge_mask 0 row)) < 2)%nat) S).
Proof.
  apply (FindSimilarityIndices_rows [[1; 0.5; 0.2]; [0.5; 1; 0.3]; [0.2; 0.3; 1]] 0 0 2 3).
  - repeat constructor.
  - lia.
Defined.

(** X16. The two stages of REPET-SIM fit together: the indices
    [FindSimilarityIndices] returns for a square similarity matrix over
    [Lt] frames are valid input for [ComputeRepeatingMaskSim] on any
    spectrogram of [Lt] frames without negative entries; the mask is
    computed without error or NaN, has the shape of the spectrogram,
    and all its entries are above 0 and at most 1. *)
Theorem repet_sim_stages_compose (EPSILON : Q) (S V : list (list Q)) (thr : Q) (d : Z)
    (K Lf Lt : nat) (I : list (list Z)) :
  length S = Lt -> rect Lt S -> (1 <= K)%nat ->
  length V = Lf -> rect Lt V -> (1 <= Lf)%nat -> (1 <= Lt)%nat ->
  Forall (Forall (fun v => 0 <= v)) V -> 0 < EPSILON ->
  FindSimilarityIndices S thr d K = Ok I ->
  exists M,
    ComputeRepeatingMaskSim EPSILON V I = Ok (Finite M) /\
    length M = Lf /\ rect Lt M /\
    Forall (Forall (fun m => 0 < m /\ m <= 1)) M.
Proof.
  intros HS RS HK HV RV HLf HLt Hnn Heps HI.
  destruct (FindSimilarityIndices_ok_rows S thr d K Lt I RS HK HI) as [HIl HIr].
  destruct (ComputeRepeatingMaskSim_spec EPSILON V I Lf Lt HV RV HLf HLt Hnn Heps)
    as (M & HM & HMl & HMr & _ & HMrange).
  - rewrite HIl. exact HS.
  - eapply Forall_impl; [exact HIr|]. intros pind (Hl & _ & Hr). simpl. split.
    + intros ->. simpl in Hl. lia.
    + eapply Forall_impl; [exact Hr|]. intros p Hp. simpl in Hp. lia.
  - exists M. repeat split; assumption.
Qed.

Lemma repet_sim_stages_compose_witness :
  let S : list (list Q) := [[1; 0.5; 0.2]; [0.5; 1; 0.3]; [0.2; 0.3; 1]] in
  let V : list (list Q) := [[1; 2; 3]; [4; 5; 6]] in
  exists M,
    ComputeRepeatingMaskSim 1e-16 V [[0; 0]; [1; 2]; [0; 2]]%Z = Ok (Finite M) /\
    length M = 2%nat /\ rect 3 M /\
    Forall (Forall (fun m => 0 < m /\ m <= 1)) M.
Proof.
  apply (repet_sim_stages_compose 1e-16
           [[1; 0.5; 0.2]; [0.5; 1; 0.3]; [0.2; 0.3; 1]] [[1; 2; 3]; [4; 5; 6]]
           0 0 2 2 3 [[0; 0]; [1; 2]; [0; 2]]%Z).
  - reflexivity.
  - repeat constructor.
  - lia.
  - reflexivity.
  - repeat constructor.
  - lia.
  - lia.
  - repeat constructor; vm_compute; discriminate.
  - reflexivity.
  - vm_compute. reflexivity.
Defined.

(** ** More on arrays given by a formula *)

Lemma matrix_ext {A} (m m' : list (list A)) (R C : nat) :
  length m = R -> Forall (fun row => length row = C) m ->
  length m' = R -> Forall (fun row => length row = C) m' ->
  (forall i j, (i < R)%nat -> (j < C)%nat -> mlookup m i j = mlookup m' i j) ->
  m = m'.
Proof.
  intros Hm Rm Hm' Rm' Heq. apply list_eq_same_length with R; [exact Hm'|exact Hm|].
  intros i row row' Hi Hrow Hrow'.
  rewrite Forall_lookup in Rm. rewrite Forall_lookup in Rm'.
  apply list_eq_same_length with C; [eapply Rm'; exact Hrow'|eapply Rm; exact Hrow|].
  intros j x y Hj Hx Hy. specialize (Heq i j Hi Hj). unfold mlookup in Heq.
  rewrite Hrow, Hrow' in Heq. simpl in Heq. congruence.
Qed.

Lemma tabulate_lookup {A} (g : nat -> nat -> A) (R C i j : nat) :
  (i < R)%nat -> (j < C)%nat -> mlookup (tabulate R C g) i j = Some (g i j).
Proof. apply mlookup_tabulate. Qed.

Lemma tabulate_length {A} (g : nat -> nat -> A) (R C : nat) :
  length (tabulate R C g) = R /\
  Forall (fun row => length row = C) (tabulate R C g).
Proof. apply tabulate_shape. Qed.

Lemma tabulate_row {A} (g : nat -> nat -> A) (R C i : nat) :
  (i < R)%nat -> tabulate R C g !! i = Some (map (g i) (seq 0 C)).
Proof.
  intros Hi. unfold tabulate. rewrite list_lookup_fmap, lookup_seq_lt by exact Hi.
  reflexivity.
Qed.

(** Padding the rows of a spectrogram with NaN. *)
Lemma pad_tabulate (V : list (list Q)) (Lf Lt n : nat) :
  length V = Lf -> rect Lt V ->
  map (fun row => map Some row ++ replicate n None) V
  = tabulate Lf (Lt + n) (fun f t => if (t <? Lt)%nat then Some (mget V f t) else None).
Proof.
  intros HV RV. destruct (tabulate_length
    (fun f t => if (t <? Lt)%nat then Some (mget V f t) else None) Lf (Lt + n)) as [Ht Rt].
  eapply matrix_ext; [rewrite length_map; exact HV| |exact Ht|exact Rt|].
  - apply Forall_fmap. eapply Forall_impl; [exact RV|]. intros row Hrow. simpl.
    rewrite length_app, length_map, length_replicate, Hrow. reflexivity.
  - intros f t Hf Ht'. rewrite tabulate_lookup by assumption.
    unfold mlookup. rewrite list_lookup_fmap.
    destruct (lookup_lt_is_Some_2 V f ltac:(lia)) as [row Hrow]. rewrite Hrow. simpl.
    unfold rect in RV. rewrite Forall_lookup in RV. pose proof (RV f row Hrow) as Hlen.
    destruct (Nat.ltb_spec t Lt) as [Hlt|Hge].
    + rewrite lookup_app_l by (rewrite length_map; lia).
      rewrite list_lookup_fmap.
      destruct (lookup_lt_is_Some_2 row t ltac:(lia)) as [x Hx]. rewrite Hx. simpl.
      do 2 f_equal. symmetry. apply mget_mlookup. unfold mlookup. rewrite Hrow. exact Hx.
    + rewrite lookup_app_r by (rewrite length_map; lia).
      rewrite length_map, Hlen. apply lookup_replicate_2. lia.
Qed.

Lemma ocolumn_tabulate (g : nat -> nat -> option Q) (R C j : nat) :
  (j < C)%nat -> ocolumn (tabulate R C g) j = map (fun i => g i j) (seq 0 R).
Proof.
  intros Hj. unfold ocolumn, tabulate. rewrite map_map. apply map_ext. intros i.
  apply nth_map_seq. exact Hj.
Qed.

Lemma otranspose_tabulate (g : nat -> nat -> option Q) (R C : nat) :
  (1 <= R)%nat -> otranspose (tabulate R C g) = tabulate C R (fun j i => g i j).
Proof.
  intros HR. unfold otranspose.
  assert (Hhd : length (hd [] (tabulate R C g)) = C).
  { destruct R as [|R]; [lia|]. unfold tabulate. simpl.
    rewrite length_map, length_seq. reflexivity. }
  rewrite Hhd. unfold tabulate at 2. apply map_ext_in. intros j Hj. apply in_seq in Hj.
  apply ocolumn_tabulate. lia.
Qed.

Lemma concat_tabulate_length {A} (g : nat -> nat -> A) (R C : nat) :
  length (concat (tabulate R C g)) = (R * C)%nat.
Proof.
  destruct (tabulate_length g R C) as [H1 H2].
  rewrite (concat_length_rect _ C H2), H1. reflexivity.
Qed.

Lemma concat_tabulate_lookup {A} (g : nat -> nat -> A) (R C i j : nat) :
  (i < R)%nat -> (j < C)%nat -> concat (tabulate R C g) !! (i * C + j)%nat = Some (g i j).
Proof.
  intros Hi Hj. destruct (tabulate_length g R C) as [_ H2].
  apply (concat_lookup_rect _ C i j _ H2). apply tabulate_lookup; assumption.
Qed.

(** A flat array of the right size reshapes to the array of its entries. *)
Lemma reshape_tabulate {A} (r c : nat) (l : list A) (g : nat -> nat -> A) :
  length l = (r * c)%nat ->
  (forall i j, (i < r)%nat -> (j < c)%nat -> l !! (i * c + j)%nat = Some (g i j)) ->
  reshape r c l = Ok (tabulate r c g).
Proof.
  intros Hl Hg. unfold reshape. rewrite Hl, Nat.eqb_refl. f_equal.
  destruct (reshape_rows_shape r c l Hl) as [H1 H2].
  destruct (tabulate_length g r c) as [H3 H4].
  apply (matrix_ext _ _ r c H1 H2 H3 H4). intros i j Hi Hj.
  rewrite reshape_rows_lookup, tabulate_lookup by assumption. apply Hg; assumption.
Qed.

Lemma py_slice_map_seq {A} (g : nat -> A) (n a b : nat) :
  (a <= b <= n)%nat ->
  py_slice (Z.of_nat a) (Z.of_nat b) (map g (seq 0 n))
  = map (fun c => g (a + c)%nat) (seq 0 (b - a)).
Proof.
  intros Hab. apply list_eq. intros j.
  rewrite py_slice_lookup by lia. rewrite length_map, length_seq, Nat2Z.id.
  rewrite !list_lookup_fmap.
  destruct (decide (Z.of_nat j < Z.min (Z.of_nat b) (Z.of_nat n) - Z.of_nat a)%Z) as [Hj|Hj].
  - rewrite !lookup_seq_lt by lia. reflexivity.
  - rewrite (lookup_seq_ge 0 (b - a)) by lia. reflexivity.
Qed.

Lemma py_slice_rows {A} (g : nat -> nat -> A) (R C b : nat) :
  (b <= R)%nat ->
  py_slice 0 (Z.of_nat b) (tabulate R C g) = tabulate b C g.
Proof.
  intros Hb. unfold tabulate. rewrite (py_slice_map_seq _ R 0 b) by lia.
  rewrite Nat.sub_0_r. reflexivity.
Qed.

Lemma py_slice_columns {A} (g : nat -> nat -> A) (R C a b : nat) :
  (a <= b <= C)%nat ->
  map (py_slice (Z.of_nat a) (Z.of_nat b)) (tabulate R C g)
  = tabulate R (b - a) (fun i c => g i (a + c)%nat).
Proof.
  intros Hab. unfold tabulate. rewrite map_map. apply map_ext. intros i.
  apply py_slice_map_seq. exact Hab.
Qed.

Lemma slice_len_nat (n a b : nat) :
  (a <= b <= n)%nat -> slice_len n (Z.of_nat a) (Z.of_nat b) = (b - a)%nat.
Proof.
  intros Hab. unfold slice_len, slice_bound.
  destruct (Z.ltb_spec (Z.of_nat a) 0); [lia|]. destruct (Z.ltb_spec (Z.of_nat b) 0); [lia|].
  lia.
Qed.

Lemma omedian_Some (q : nat -> Q) (l : list nat) :
  omedian (map (fun x => Some (q x)) l) = median (map q l).
Proof. unfold omedian. rewrite mapM_id_Some. reflexivity. Qed.

Lemma concat_replicate_lookup {A} (l : list A) (r j c : nat) :
  (j < r)%nat -> (c < length l)%nat ->
  concat (replicate r l) !! (j * length l + c)%nat = l !! c.
Proof.
  revert j. induction r as [|r IH]; intros j Hj Hc; [lia|]. simpl.
  destruct j as [|j].
  - simpl. apply lookup_app_l. exact Hc.
  - rewrite lookup_app_r by (simpl; lia).
    replace (S j * length l + c - length l)%nat with (j * length l + c)%nat by lia.
    apply IH; [lia|exact Hc].
Qed.

Lemma concat_replicate_length {A} (l : list A) (r : nat) :
  length (concat (replicate r l)) = (r * length l)%nat.
Proof.
  induction r as [|r IH]; [reflexivity|]. simpl. rewrite length_app, IH. reflexivity.
Qed.

(** ** The repeating mask from the period *)

Lemma ceil_div_facts (Lt p : nat) :
  (1 <= Lt)%nat -> (1 <= p)%nat ->
  let r := ((Lt + p - 1) / p)%nat in
  (1 <= r)%nat /\ ((r - 1) * p < Lt)%nat /\ (Lt <= r * p)%nat.
Proof.
  intros HLt Hp r.
  pose proof (Nat.div_mod_eq (Lt + p - 1) p) as Hd. fold r in Hd.
  pose proof (Nat.mod_upper_bound (Lt + p - 1) p ltac:(lia)) as Hm.
  assert (Hr : (1 <= r)%nat) by (destruct r; [nia|lia]).
  split; [exact Hr|]. split; nia.
Qed.

Lemma flat_index_div (s f Lf : nat) :
  (f < Lf)%nat -> ((s * Lf + f) / Lf = s)%nat /\ ((s * Lf + f) mod Lf = f)%nat.
Proof.
  intros Hf. split.
  - rewrite Nat.div_add_l by lia. rewrite Nat.div_small by exact Hf. lia.
  - rewrite Nat.add_comm, Nat.Div0.mod_add. apply Nat.mod_small. exact Hf.
Qed.

Lemma flat_index_split (c n m : nat) :
  (1 <= n)%nat -> (c < n * m)%nat ->
  (c / n < m)%nat /\ (c mod n < n)%nat /\ c = (c / n * n + c mod n)%nat.
Proof.
  intros Hn Hc. pose proof (Nat.div_mod_eq c n) as Hd.
  pose proof (Nat.mod_upper_bound c n ltac:(lia)) as Hm.
  split; [apply Nat.Div0.div_lt_upper_bound; lia|]. split; [exact Hm|lia].
Qed.

Lemma filter_all {A} (P : A -> Prop) `{forall x, Decision (P x)} (l : list A) :
  Forall P l -> filter P l = l.
Proof.
  induction 1 as [|x l Hx _ IH]; [reflexivity|].
  rewrite filter_cons_True by exact Hx. rewrite IH. reflexivity.
Qed.

(** The frames of one place in the period: all [r] segments have it
    when it is among the first [k] frames of a period, the last segment
    lacks it otherwise. *)
Lemma period_frames_eq (Lt p t : nat) :
  (1 <= Lt)%nat -> (1 <= p)%nat ->
  let r := ((Lt + p - 1) / p)%nat in
  let k := (Lt - (r - 1) * p)%nat in
  period_frames Lt p t
  = map (fun j => (j * p + t mod p)%nat)
        (seq 0 (if (t mod p <? k)%nat then r else (r - 1)%nat)).
Proof.
  intros HLt Hp r k. destruct (ceil_div_facts Lt p HLt Hp) as (Hr1 & Hr2 & Hr3).
  fold r in Hr1, Hr2, Hr3. unfold period_frames. fold r.
  pose proof (Nat.mod_upper_bound t p ltac:(lia)) as Hs.
  set (s := (t mod p)%nat) in *.
  destruct r as [|r']; [lia|]. replace (S r' - 1)%nat with r' in * by lia.
  rewrite seq_S, map_app, filter_app. simpl.
  rewrite filter_all.
  2:{ apply Forall_fmap, Forall_forall. intros j Hj. apply elem_of_seq in Hj. simpl. nia. }
  destruct (Nat.ltb_spec s k) as [Hlt|Hge].
  - rewrite filter_cons_True by (unfold k in Hlt; nia).
    rewrite seq_S, map_app. reflexivity.
  - rewrite filter_cons_False by (unfold k in Hge; nia).
    rewrite filter_nil, app_nil_r. reflexivity.
Qed.

Lemma mget_nonneg (V : list (list Q)) (f t : nat) :
  Forall (Forall (fun v => 0 <= v)) V -> 0 <= mget V f t.
Proof.
  intros Hnn. unfold mget.
  destruct (nth_in_or_default f V []) as [Hin|Hd].
  - rewrite Forall_forall in Hnn. apply list_elem_of_In in Hin.
    pose proof (Hnn _ Hin) as Hrow.
    destruct (nth_in_or_default t (nth f V []) 0) as [Hin2|Hd2].
    + rewrite Forall_forall in Hrow. apply Hrow, list_elem_of_In, Hin2.
    + rewrite Hd2. lra.
  - rewrite Hd. destruct t; simpl; lra.
Qed.

Lemma median_nonneg (v : vector) (m : Q) :
  Forall (fun x => 0 <= x) v -> median v = Some m -> 0 <= m.
Proof.
  intros Hnn Hm.
  assert (Hb : Forall (fun x => 0 <= x /\ x <= sum v) v).
  { apply Forall_forall. intros x Hx. split.
    - rewrite Forall_forall in Hnn. apply Hnn. exact Hx.
    - apply sum_ge_elem; assumption. }
  apply (median_bounds _ _ _ _ Hb Hm).
Qed.

Lemma mapM_mapM_id_tabulate {A} (g : nat -> nat -> A) (R C : nat) :
  mapM (mapM id) (tabulate R C (fun i j => Some (g i j))) = Some (tabulate R C g).
Proof.
  unfold tabulate. apply mapM_Some. apply Forall2_fmap, Forall_Forall2_diag, Forall_forall.
  intros i _. apply mapM_id_Some.
Qed.

(** The mask of [ComputeRepeatingMaskBeat], entry by entry. *)
Lemma ComputeRepeatingMaskBeat_spec (EPSILON : Q) (V : list (list Q)) (p Lf Lt : nat) :
  length V = Lf -> rect Lt V -> (1 <= Lf)%nat -> (1 <= Lt)%nat -> (1 <= p)%nat ->
  Forall (Forall (fun v => 0 <= v)) V -> 0 < EPSILON ->
  exists M,
    ComputeRepeatingMaskBeat EPSILON V p = Ok (Finite M) /\
    length M = Lf /\ rect Lt M /\
    (forall f t v, mlookup V f t = Some v ->
       exists med,
         median (map (mget V f) (period_frames Lt p t)) = Some med /\ 0 <= med /\
         mlookup M f t = Some ((minimum med v + EPSILON) / (v + EPSILON))) /\
    Forall (Forall (fun m => 0 < m /\ m <= 1)) M.
Proof.
  intros HV RV HLf HLt Hp Hnn Heps.
  assert (NV : ncols V = Lt) by (apply ncols_rect; [lia|exact RV]).
  destruct (ceil_div_facts Lt p HLt Hp) as (Hr1 & Hr2 & Hr3).
  pose proof (period_frames_eq Lt p) as Hframes.
  set (r := ((Lt + p - 1) / p)%nat) in *.
  set (k := (Lt - (r - 1) * p)%nat) in *.
  assert (Hk : (1 <= k <= p)%nat) by (unfold k; nia).
  (* the spectrogram padded with NaN *)
  set (E := fun (f t : nat) => if (t <? Lt)%nat then Some (mget V f t) else None).
  (* the segments: row j holds the frames j p, ..., j p + p - 1 *)
  set (g1 := fun (j c : nat) => E (c mod Lf)%nat (j * p + c / Lf)%nat).
  (* the period model, flat *)
  set (h := fun (c : nat) =>
              if (c <? Lf * k)%nat then omedian (map (fun j => g1 j c) (seq 0 r))
              else omedian (map (fun j => g1 j c) (seq 0 (r - 1)))).
  set (Wh := map h (seq 0 (Lf * p))).
  set (g2 := fun (t' f : nat) => h ((t' mod p) * Lf + f)%nat).
  set (medf := fun (f t : nat) =>
                 default 0 (median (map (mget V f) (period_frames Lt p t)))).
  assert (H1 : reshape r (Lf * p)
                 (concat (otranspose
                    (map (fun row => map Some row ++ replicate (r * p - Lt) None) V)))
               = Ok (tabulate r (Lf * p) g1)).
  { rewrite (pad_tabulate V Lf Lt (r * p - Lt) HV RV).
    replace (Lt + (r * p - Lt))%nat with (r * p)%nat by lia. fold E.
    rewrite otranspose_tabulate by exact HLf.
    apply reshape_tabulate; [rewrite concat_tabulate_length; lia|].
    intros j c Hj Hc.
    destruct (flat_index_split c Lf p HLf Hc) as (Hc1 & Hc2 & Hc3).
    replace (j * (Lf * p) + c)%nat with ((j * p + c / Lf) * Lf + c mod Lf)%nat by nia.
    rewrite concat_tabulate_lookup by (try exact Hc2; nia). reflexivity. }
  assert (HW1 : omedian_axis0 (slice_len (Lf * p) 0 (Z.of_nat (Lf * k)))
                  (map (py_slice 0 (Z.of_nat (Lf * k)))
                       (py_slice 0 (Z.of_nat r) (tabulate r (Lf * p) g1)))
                = map h (seq 0 (Lf * k))).
  { rewrite py_slice_rows by lia.
    change 0%Z with (Z.of_nat 0).
    rewrite py_slice_columns, slice_len_nat by nia. rewrite Nat.sub_0_r.
    unfold omedian_axis0. apply map_ext_in. intros c Hc. apply in_seq in Hc.
    rewrite ocolumn_tabulate by lia. unfold h.
    replace (c <? Lf * k)%nat with true by (symmetry; apply Nat.ltb_lt; lia).
    reflexivity. }
  assert (HW2 : omedian_axis0 (slice_len (Lf * p) (Z.of_nat (Lf * k)) (Z.of_nat (Lf * p)))
                  (map (py_slice (Z.of_nat (Lf * k)) (Z.of_nat (Lf * p)))
                       (py_slice 0 (Z.of_nat (r - 1)) (tabulate r (Lf * p) g1)))
                = map h (seq (Lf * k) (Lf * p - Lf * k))).
  { rewrite py_slice_rows by lia.
    rewrite py_slice_columns, slice_len_nat by nia.
    unfold omedian_axis0.
    assert (Hseq : seq (Lf * k) (Lf * p - Lf * k)
                   = map (fun x => (Lf * k + x)%nat) (seq 0 (Lf * p - Lf * k))).
    { rewrite <- (Nat.add_0_r (Lf * k)) at 1. symmetry. apply fmap_add_seq. }
    rewrite Hseq, map_map. apply map_ext_in. intros c Hc. apply in_seq in Hc.
    rewrite ocolumn_tabulate by lia. unfold h.
    replace (Lf * k + c <? Lf * k)%nat with false by (symmetry; apply Nat.ltb_ge; lia).
    reflexivity. }
  assert (HWh : map h (seq 0 (Lf * k)) ++ map h (seq (Lf * k) (Lf * p - Lf * k)) = Wh).
  { unfold Wh. rewrite <- map_app, <- seq_app. do 2 f_equal. nia. }
  assert (HWhl : length Wh = (Lf * p)%nat).
  { unfold Wh. rewrite length_map, length_seq. reflexivity. }
  assert (H2 : reshape (r * p) Lf (concat (replicate r Wh)) = Ok (tabulate (r * p) Lf g2)).
  { apply reshape_tabulate; [rewrite concat_replicate_length, HWhl; lia|].
    intros t' f Ht' Hf.
    pose proof (Nat.div_mod_eq t' p) as Hd.
    pose proof (Nat.mod_upper_bound t' p ltac:(lia)) as Hm.
    replace (t' * Lf + f)%nat
      with (t' / p * length Wh + (t' mod p * Lf + f))%nat by (rewrite HWhl; nia).
    rewrite concat_replicate_lookup
      by (try rewrite HWhl; try nia; apply Nat.Div0.div_lt_upper_bound; lia).
    unfold Wh. rewrite list_lookup_fmap, lookup_seq_lt by nia. reflexivity. }
  assert (Hcore : forall f t, (f < Lf)%nat -> (t < Lt)%nat ->
            g2 t f = Some (medf f t) /\
            median (map (mget V f) (period_frames Lt p t)) = Some (medf f t) /\
            0 <= medf f t).
  { intros f t Hf Ht.
    pose proof (Nat.mod_upper_bound t p ltac:(lia)) as Hs.
    pose proof (Nat.Div0.mod_le t p) as Hst.
    specialize (Hframes t HLt Hp). cbv zeta in Hframes.
    set (s := (t mod p)%nat) in *.
    destruct (flat_index_div s f Lf Hf) as [Hdiv Hmod].
    assert (Hg1 : forall j, (j * p + s < Lt)%nat ->
              g1 j (s * Lf + f)%nat = Some (mget V f (j * p + s))).
    { intros j Hj. unfold g1, E. rewrite Hdiv, Hmod.
      replace (j * p + s <? Lt)%nat with true by (symmetry; apply Nat.ltb_lt; exact Hj).
      reflexivity. }
    assert (Hmedian : forall n, (n <> 0)%nat -> (forall j, (j < n)%nat -> (j * p + s < Lt)%nat) ->
              period_frames Lt p t = map (fun j => (j * p + s)%nat) (seq 0 n) ->
              omedian (map (fun j => g1 j (s * Lf + f)%nat) (seq 0 n)) = Some (medf f t) /\
              median (map (mget V f) (period_frames Lt p t)) = Some (medf f t) /\
              0 <= medf f t).
    { intros n Hn Hall Hpf.
      assert (Hom : omedian (map (fun j => g1 j (s * Lf + f)%nat) (seq 0 n))
                    = median (map (mget V f) (period_frames Lt p t))).
      { rewrite Hpf, map_map.
        rewrite <- (omedian_Some (fun j => mget V f (j * p + s)%nat) (seq 0 n)).
        f_equal. apply map_ext_in. intros j Hj. apply in_seq in Hj.
        apply Hg1, Hall. lia. }
      destruct (median_is_Some (map (mget V f) (period_frames Lt p t))) as [m Hm].
      { rewrite Hpf. destruct n; [congruence|]. rewrite seq_S, !map_app.
        intros Hnil. apply app_eq_nil in Hnil as [_ Hnil]. discriminate. }
      assert (Hmf : medf f t = m) by (unfold medf; rewrite Hm; reflexivity).
      rewrite Hom, Hmf. split; [exact Hm|]. split; [exact Hm|].
      apply (median_nonneg (map (mget V f) (period_frames Lt p t)) m); [|exact Hm].
      apply Forall_fmap, Forall_forall. intros t' _. simpl. apply mget_nonneg. exact Hnn. }
    unfold g2. fold s. unfold h.
    change (Lt - (r - 1) * p)%nat with k in Hframes.
    destruct (Nat.ltb_spec s k) as [Hlt|Hge].
    - replace (s * Lf + f <? Lf * k)%nat with true by (symmetry; apply Nat.ltb_lt; nia).
      apply Hmedian; [lia| |exact Hframes].
      intros j Hj. unfold k in Hlt. nia.
    - replace (s * Lf + f <? Lf * k)%nat with false by (symmetry; apply Nat.ltb_ge; nia).
      apply Hmedian; [unfold k in Hge; nia| |exact Hframes].
      intros j Hj. nia. }
  assert (H3 : mapM (mapM id)
                 (map (py_slice 0 (Z.of_nat Lt)) (otranspose (tabulate (r * p) Lf g2)))
               = Some (tabulate Lf Lt medf)).
  { rewrite otranspose_tabulate by nia.
    change 0%Z with (Z.of_nat 0). rewrite py_slice_columns by lia. rewrite Nat.sub_0_r.
    rewrite <- mapM_mapM_id_tabulate. f_equal. unfold tabulate.
    apply map_ext_in. intros f Hf. apply in_seq in Hf.
    apply map_ext_in. intros t Ht. apply in_seq in Ht.
    apply (Hcore f t); lia. }
  assert (Hcall : ComputeRepeatingMaskBeat EPSILON V p
                  = soft_mask EPSILON (tabulate Lf Lt medf) V).
  { unfold ComputeRepeatingMaskBeat. unfold nrows. rewrite HV, NV.
    replace (p =? 0)%nat with false by (symmetry; apply Nat.eqb_neq; lia).
    fold r. rewrite H1. cbn [mbind result_bind].
    replace (Z.of_nat Lf * (Z.of_nat Lt - (Z.of_nat r - 1) * Z.of_nat p))%Z
      with (Z.of_nat (Lf * k)) by (unfold k; nia).
    replace (Z.of_nat r - 1)%Z with (Z.of_nat (r - 1)) by lia.
    rewrite HW1, HW2, HWh, H2. cbn [mbind result_bind]. rewrite H3. reflexivity. }
  destruct (tabulate_length medf Lf Lt) as [HWl HWr].
  destruct (soft_mask_spec EPSILON _ V Lf Lt HWl HWr HV RV HLf) as (M & HM & HMl & HMr & HMe).
  { eapply Forall_impl; [exact Hnn|]. intros row Hrow.
    eapply Forall_impl; [exact Hrow|]. intros v Hv. simpl in Hv. lra. }
  exists M. split; [rewrite Hcall; exact HM|]. split; [exact HMl|]. split; [exact HMr|].
  assert (Hent : forall f t v, mlookup V f t = Some v ->
            mlookup M f t = Some ((minimum (medf f t) v + EPSILON) / (v + EPSILON))).
  { intros f t v Hv.
    destruct (mlookup_bounds V Lf Lt f t v HV RV Hv) as [Hf Ht].
    apply HMe; [|exact Hv]. apply tabulate_lookup; assumption. }
  split.
  - intros f t v Hv. destruct (mlookup_bounds V Lf Lt f t v HV RV Hv) as [Hf Ht].
    destruct (Hcore f t Hf Ht) as (_ & Hm & Hm0).
    exists (medf f t). split; [exact Hm|]. split; [exact Hm0|]. apply Hent. exact Hv.
  - apply (Forall_mlookup _ M Lf Lt HMl HMr). intros f t Hf Ht.
    destruct (mlookup_rect V Lf Lt f t HV RV Hf Ht) as [v Hv].
    eexists. split; [apply (Hent f t v Hv)|].
    apply mask_entry_range; [exact Heps|apply (Hcore f t Hf Ht)|].
    apply (mlookup_Forall (fun v => 0 <= v) V f t v Hnn Hv).
Qed.

(** X17. [ComputeRepeatingMaskBeat] on a magnitude spectrogram without
    negative entries, for a period of one frame or more and a positive
    [EPSILON]: the padding with NaN never reaches the result; the mask
    has the shape of the spectrogram; its entry at bin [f] and frame
    [t] is [(min(med, v) + EPSILON) / (v + EPSILON)], where [v] is the
    magnitude there and [med] the median of bin [f] over all the
    frames a whole number of periods away from [t]; and every entry is
    above 0 and at most 1. *)
Theorem ComputeRepeatingMaskBeat_entries (EPSILON : Q) (V : list (list Q))
    (p Lf Lt : nat) :
  length V = Lf -> rect Lt V -> (1 <= Lf)%nat -> (1 <= Lt)%nat -> (1 <= p)%nat ->
  Forall (Forall (fun v => 0 <= v)) V -> 0 < EPSILON ->
  exists M,
    ComputeRepeatingMaskBeat EPSILON V p = Ok (Finite M) /\
    length M = Lf /\ rect Lt M /\
    (forall f t v, mlookup V f t = Some v ->
       exists med,
         median (map (mget V f) (period_frames Lt p t)) = Some med /\ 0 <= med /\
         mlookup M f t = Some ((minimum med v + EPSILON) / (v + EPSILON))) /\
    Forall (Forall (fun m => 0 < m /\ m <= 1)) M.
Proof. apply ComputeRepeatingMaskBeat_spec. Qed.

Lemma ComputeRepeatingMaskBeat_entries_witness :
  let V : list (list Q) := [[1; 2; 3; 4; 5]; [10; 20; 30; 40; 50]] in
  exists M,
    ComputeRepeatingMaskBeat 1e-16 V 2 = Ok (Finite M) /\
    length M = 2%nat /\ rect 5 M /\
    (forall f t v, mlookup V f t = Some v ->
       exists med,
         median (map (mget V f) (period_frames 5 2 t)) = Some med /\ 0 <= med /\
         mlookup M f t = Some ((minimum med v + 1e-16) / (v + 1e-16))) /\
    Forall (Forall (fun m => 0 < m /\ m <= 1)) M.
Proof.
  apply (ComputeRepeatingMaskBeat_entries 1e-16
           [[1; 2; 3; 4; 5]; [10; 20; 30; 40; 50]] 2 2 5).
  - reflexivity.
  - repeat constructor.
  - lia.
  - lia.
  - lia.
  - repeat constructor; vm_compute; discriminate.
  - reflexivity.
Defined.

Lemma period_frames_elem (Lt p t t' : nat) :
  (1 <= p)%nat -> t' ∈ period_frames Lt p t -> (t' < Lt)%nat /\ (t' mod p = t mod p)%nat.
Proof.
  intros Hp Hin. unfold period_frames in Hin.
  apply list_elem_of_filter in Hin as [Hlt Hin].
  apply list_elem_of_fmap in Hin as (j & -> & _).
  split; [exact Hlt|].
  rewrite Nat.add_comm, Nat.Div0.mod_add. apply Nat.Div0.mod_mod.
Qed.

(** X18. On a spectrogram that repeats exactly with period [p] (frames
    a whole number of periods apart are equal), without negative
    entries, [ComputeRepeatingMaskBeat] gives the mask that is 1
    everywhere: the whole signal is taken as repeating background. *)
Theorem ComputeRepeatingMaskBeat_periodic (EPSILON : Q) (V : list (list Q))
    (p Lf Lt : nat) :
  length V = Lf -> rect Lt V -> (1 <= Lf)%nat -> (1 <= Lt)%nat -> (1 <= p)%nat ->
  Forall (Forall (fun v => 0 <= v)) V -> 0 < EPSILON ->
  (forall f t t', (t < Lt)%nat -> (t' < Lt)%nat -> (t mod p = t' mod p)%nat ->
     mget V f t == mget V f t') ->
  exists M,
    ComputeRepeatingMaskBeat EPSILON V p = Ok (Finite M) /\
    length M = Lf /\ rect Lt M /\
    Forall (Forall (fun m => m == 1)) M.
Proof.
  intros HV RV HLf HLt Hp Hnn Heps Hper.
  destruct (ComputeRepeatingMaskBeat_spec EPSILON V p Lf Lt HV RV HLf HLt Hp Hnn Heps)
    as (M & HM & HMl & HMr & HMe & _).
  exists M. split; [exact HM|]. split; [exact HMl|]. split; [exact HMr|].
  apply (Forall_mlookup _ M Lf Lt HMl HMr). intros f t Hf Ht.
  destruct (mlookup_rect V Lf Lt f t HV RV Hf Ht) as [v Hv].
  destruct (HMe f t v Hv) as (med & Hmed & _ & Hent).
  eexists. split; [exact Hent|].
  assert (Hv0 : 0 <= v) by (apply (mlookup_Forall (fun v => 0 <= v) V f t v Hnn Hv)).
  assert (Hvt : mget V f t = v) by (apply mget_mlookup; exact Hv).
  assert (Hb : Forall (fun x => v <= x /\ x <= v) (map (mget V f) (period_frames Lt p t))).
  { apply Forall_fmap, Forall_forall. intros t' Hin. simpl.
    destruct (period_frames_elem Lt p t t' Hp Hin) as [Hlt Hmod].
    pose proof (Hper f t' t Hlt Ht Hmod) as Heq. rewrite Hvt in Heq. lra. }
  destruct (median_bounds _ _ _ _ Hb Hmed) as [Hlo Hhi].
  assert (Hmin : minimum med v == v).
  { destruct (minimum_spec med v) as (_ & _ & [-> | ->]); lra. }
  rewrite Hmin. field. lra.
Qed.

Lemma ComputeRepeatingMaskBeat_periodic_witness :
  let V : list (list Q) := [[1; 2; 1; 2; 1]; [0; 3; 0; 3; 0]] in
  exists M,
    ComputeRepeatingMaskBeat 1e-16 V 2 = Ok (Finite M) /\
    length M = 2%nat /\ rect 5 M /\
    Forall (Forall (fun m => m == 1)) M.
Proof.
  apply (ComputeRepeatingMaskBeat_periodic 1e-16 [[1; 2; 1; 2; 1]; [0; 3; 0; 3; 0]] 2 2 5).
  - reflexivity.
  - repeat constructor.
  - lia.
  - lia.
  - lia.
  - repeat constructor; vm_compute; discriminate.
  - reflexivity.
  - intros f t t' Ht Ht' Hmod.
    destruct f as [|[|f]]; destruct t as [|[|[|[|[|t]]]]]; try lia;
      destruct t' as [|[|[|[|[|t']]]]]; try lia; try discriminate; try reflexivity;
      destruct f; reflexivity.
Defined.

(** ** REPET-SIM, first version: the stages together *)

(** The rows [sim_ind] returns. *)
Lemma sim_ind_ok_rows (fuel : nat) (thr : Q) (d : Z) (K Lt : nat) :
  0 <= thr ->
  forall (S : list (list Q)) (I : list (list Z)),
  rect Lt S ->
  REPET_sim.sim_ind fuel S (thr, d, K) = Some (Ok I) ->
  length I = length S /\
  Forall (fun pind => length pind = K /\
                      Forall (fun p => (0 <= p < Z.of_nat Lt)%Z) pind) I.
Proof.
  intros Hthr. induction S as [|row S IH]; intros I RS Hrun; cbn [REPET_sim.sim_ind] in Hrun.
  - injection Hrun as <-. split; [reflexivity|constructor].
  - cbn [fst snd] in Hrun.
    destruct (REPET_sim.find_peaks fuel row thr d K) as [[pind|e]|] eqn:Erow;
      [|discriminate..].
    destruct (REPET_sim.sim_ind fuel S (thr, d, K)) as [[rows|e]|] eqn:Erest;
      [|discriminate..].
    injection Hrun as <-. apply Forall_cons in RS as [Hlen RS].
    destruct (IH rows RS eq_refl) as [Hl Hr].
    split; [simpl; rewrite Hl; reflexivity|].
    constructor; [|exact Hr].
    destruct (find_peaks_sim_spec fuel row thr d K pind Hthr Erow) as (HK & Hcand & _).
    split; [exact HK|]. apply Forall_forall. intros p Hp.
    destruct (Hcand p Hp) as (Hp0 & x & Hx & _).
    apply lookup_lt_Some in Hx. lia.
Qed.

Lemma highpass_lookup (fc : Z) (M : list (list Q)) (i j : nat) (m : Q) :
  mlookup M i j = Some m ->
  mlookup (REPET_sim.highpass fc M) i j
  = Some (if in_slice (length M) 1 fc i then 1 else m).
Proof.
  unfold mlookup, REPET_sim.highpass. intros Hm. rewrite list_lookup_imap.
  destruct (M !! i) as [row|]; [|discriminate]. simpl in *.
  destruct (in_slice (length M) 1 fc i); [|exact Hm].
  rewrite list_lookup_fmap, Hm. reflexivity.
Qed.

Lemma highpass_shape (fc : Z) (M : list (list Q)) (Lt : nat) :
  rect Lt M ->
  length (REPET_sim.highpass fc M) = length M /\ rect Lt (REPET_sim.highpass fc M).
Proof.
  intros RM. unfold REPET_sim.highpass. split; [apply length_imap|].
  unfold rect in *. apply Forall_lookup. intros i row Hrow.
  rewrite list_lookup_imap in Hrow. rewrite Forall_lookup in RM.
  destruct (M !! i) as [row0|] eqn:E; [|discriminate]. simpl in Hrow.
  injection Hrow as <-. destruct (in_slice _ _ _ _); [rewrite length_map|];
    apply (RM i row0 E).
Qed.

(** X19. One turn of the masking loop of [repet_sim] in REPET_sim.py,
    for a threshold that is not negative: the indices [sim_ind]
    returns for a square similarity matrix are valid input for
    [rep_mask] on a spectrogram of as many frames without negative
    entries; after the high-pass step the mask still has the shape of
    the spectrogram and entries above 0 and at most 1, its rows 1 to
    [fc - 1] are 1, and its DC row is the one [rep_mask] computed. *)
Theorem repet_sim_mask_range (fuel : nat) (S V : list (list Q)) (thr : Q) (d fc : Z)
    (K Lf Lt : nat) (I : list (list Z)) :
  0 <= thr -> (1 <= K)%nat ->
  length S = Lt -> rect Lt S ->
  length V = Lf -> rect Lt V -> (1 <= Lf)%nat -> (1 <= Lt)%nat ->
  Forall (Forall (fun v => 0 <= v)) V ->
  REPET_sim.sim_ind fuel S (thr, d, K) = Some (Ok I) ->
  exists M,
    REPET_sim.rep_mask V I = Ok (Finite M) /\
    let RepMask := REPET_sim.highpass fc M in
    length RepMask = Lf /\ rect Lt RepMask /\
    Forall (Forall (fun m => 0 < m /\ m <= 1)) RepMask /\
    (forall i j, (1 <= Z.of_nat i < fc)%Z -> (i < Lf)%nat -> (j < Lt)%nat ->
       mlookup RepMask i j = Some 1) /\
    RepMask !! 0%nat = M !! 0%nat.
Proof.
  intros Hthr HK HS RS HV RV HLf HLt Hnn HI.
  destruct (sim_ind_ok_rows fuel thr d K Lt Hthr S I RS HI) as [HIl HIr].
  destruct (ComputeRepeatingMaskSim_spec 1e-16 V I Lf Lt HV RV HLf HLt Hnn eq_refl)
    as (M & HM & HMl & HMr & _ & HMrange).
  - rewrite HIl. exact HS.
  - eapply Forall_impl; [exact HIr|]. intros pind (Hl & Hr). simpl. split.
    + intros ->. simpl in Hl. lia.
    + eapply Forall_impl; [exact Hr|]. intros p Hp. simpl in Hp. lia.
  - exists M. split; [exact HM|]. cbv zeta.
    destruct (highpass_shape fc M Lt HMr) as [Hhl Hhr].
    split; [rewrite Hhl; exact HMl|]. split; [exact Hhr|]. split; [|split].
    + apply (Forall_mlookup _ _ Lf Lt); [rewrite Hhl; exact HMl|exact Hhr|].
      intros i j Hi Hj. destruct (mlookup_rect M Lf Lt i j HMl HMr Hi Hj) as [m Hm].
      rewrite (highpass_lookup fc M i j m Hm). eexists. split; [reflexivity|].
      destruct (in_slice _ _ _ _).
      * split; [reflexivity|]. apply Qle_refl.
      * apply (mlookup_Forall _ M i j m HMrange Hm).
    + intros i j Hi Hi' Hj. destruct (mlookup_rect M Lf Lt i j HMl HMr Hi' Hj) as [m Hm].
      rewrite (highpass_lookup fc M i j m Hm). f_equal.
      replace (in_slice (length M) 1 fc i) with true; [reflexivity|].
      symmetry. unfold in_slice, slice_bound. rewrite HMl.
      destruct (Z.ltb_spec 1 0); [lia|]. destruct (Z.ltb_spec fc 0); [lia|].
      apply andb_true_iff. split; [apply Z.leb_le|apply Z.ltb_lt]; lia.
    + unfold REPET_sim.highpass. rewrite list_lookup_imap.
      destruct (M !! 0%nat) as [row|]; [|reflexivity]. simpl.
      replace (in_slice (length M) 1 fc 0) with false; [reflexivity|].
      symmetry. unfold in_slice, slice_bound. rewrite HMl.
      destruct (Z.ltb_spec 1 0); [lia|].
      apply andb_false_iff. left. apply Z.leb_gt. lia.
Qed.

Lemma repet_sim_mask_range_witness :
  let V : list (list Q) := [[1; 2; 3; 3]; [4; 5; 6; 6]; [7; 8; 9; 9]] in
  let I : list (list Z) := [[0; 2]; [1; 3]; [0; 2]; [1; 3]]%Z in
  exists M,
    REPET_sim.rep_mask V I = Ok (Finite M) /\
    let RepMask := REPET_sim.highpass 2 M in
    length RepMask = 3%nat /\ rect 4 RepMask /\
    Forall (Forall (fun m => 0 < m /\ m <= 1)) RepMask /\
    (forall i j, (1 <= Z.of_nat i < 2)%Z -> (i < 3)%nat -> (j < 4)%nat ->
       mlookup RepMask i j = Some 1) /\
    RepMask !! 0%nat = M !! 0%nat.
Proof.
  apply (repet_sim_mask_range 4
           [[1; 0.5; 0.9; 0.8]; [0.5; 1; 0.6; 0.9]; [0.9; 0.6; 1; 0.7];
            [0.8; 0.9; 0.7; 1]]
           [[1; 2; 3; 3]; [4; 5; 6; 6]; [7; 8; 9; 9]] 0.55 2 2 2 3 4
           [[0; 2]; [1; 3]; [0; 2]; [1; 3]]%Z).
  - vm_compute. discriminate.
  - lia.
  - reflexivity.
  - repeat constructor.
  - reflexivity.
  - repeat constructor.
  - lia.
  - lia.
  - repeat constructor; vm_compute; discriminate.
  - vm_compute. reflexivity.
Defined.

(** ** Smoothing keeps the shape and the sign of the data *)

Lemma convolve_ones21_half_nonneg (K : list (list Q)) :
  Forall (Forall (fun x => 0 <= x)) K ->
  Forall (Forall (fun x => 0 <= x)) (convolve_ones21_half K).
Proof.
  intros Hnn. unfold convolve_ones21_half.
  apply Forall_fmap, Forall_forall. intros i _. unfold compose.
  apply Forall_fmap, Forall_forall. intros j _. unfold compose.
  pose proof (mget_nonneg K i j Hnn). pose proof (mget_nonneg K (i - 1) j Hnn).
  apply Qle_shift_div_l; [reflexivity|]. destruct (i =? 0)%nat; lra.
Qed.

Lemma nth_nonneg (row : list Q) (j : nat) :
  Forall (fun x => 0 <= x) row -> 0 <= nth j row 0.
Proof.
  intros Hrow. destruct (nth_in_or_default j row 0) as [Hin|Hd].
  - rewrite Forall_forall in Hrow. apply Hrow, list_elem_of_In, Hin.
  - rewrite Hd. lra.
Qed.

Lemma convolve_ones12_half_nonneg (K : list (list Q)) :
  Forall (Forall (fun x => 0 <= x)) K ->
  Forall (Forall (fun x => 0 <= x)) (convolve_ones12_half K).
Proof.
  intros Hnn. unfold convolve_ones12_half.
  apply Forall_fmap. eapply Forall_impl; [exact Hnn|]. intros row Hrow. cbv beta.
  unfold compose. apply Forall_fmap, Forall_forall. intros j _. cbv beta. unfold compose.
  pose proof (nth_nonneg row j Hrow). pose proof (nth_nonneg row (j - 1) Hrow).
  apply Qle_shift_div_l; [reflexivity|]. destruct (j =? 0)%nat; lra.
Qed.

(** The averaging kernel has no negative entry, for every size. *)
Lemma averaging_kernel_nonneg (Kernel : positive) :
  Forall (Forall (fun x => 0 <= x)) (averaging_kernel Kernel).
Proof.
  assert (H0 : Forall (Forall (fun x => 0 <= x))
                 (full (Pos.to_nat Kernel) (Pos.to_nat Kernel)
                       (1 / inject_Z (Z.pos Kernel) ^ 2))).
  { unfold full. apply Forall_replicate, Forall_replicate.
    assert (Hq : 0 <= inject_Z (Z.pos Kernel)) by (unfold Qle; simpl; lia).
    unfold Qdiv. apply Qmult_le_0_compat; [lra|]. apply Qinv_le_0_compat.
    change (inject_Z (Z.pos Kernel) ^ 2)
      with (inject_Z (Z.pos Kernel) * inject_Z (Z.pos Kernel)).
    apply Qmult_le_0_compat; exact Hq. }
  unfold averaging_kernel. destruct (Pos.to_nat Kernel mod 2 =? 0)%nat; [|exact H0].
  apply convolve_ones12_half_nonneg, convolve_ones21_half_nonneg, H0.
Qed.

(** X20. [twoDsmooth] with a scalar kernel size, on a matrix with one
    row or more: with two columns or more the result has the shape of
    the matrix, and no negative entry when the matrix has none; with
    fewer than two columns the call raises ([IndexError], from
    [Mat[-1, 1]]). *)
Theorem twoDsmooth_shape_and_sign (Mat : list (list Q)) (R C : nat)
    (Kernel : positive) :
  length Mat = R -> rect C Mat -> (1 <= R)%nat ->
  ((2 <= C)%nat ->
     exists S, twoDsmooth Mat Kernel = Ok S /\ length S = R /\ rect C S /\
               (Forall (Forall (fun x => 0 <= x)) Mat ->
                Forall (Forall (fun x => 0 <= x)) S)) /\
  ((C < 2)%nat -> twoDsmooth Mat Kernel = Err IndexOutOfBounds).
Proof.
  intros HR Hrect HR1. split.
  - intros HC2.
    destruct (twoDsmooth_entries Mat R C Kernel HR Hrect HR1 HC2)
      as (aug & S & Haug & Hok & Hlen & Hr & Hent).
    exists S. split; [exact Hok|]. split; [exact Hlen|]. split; [exact Hr|].
    intros Hnn.
    apply (Forall_mlookup _ S R C Hlen Hr). intros i j Hi Hj.
    eexists. split; [apply Hent; assumption|].
    set (cc := (Pos.to_nat Kernel / 2)%nat) in *.
    destruct (averaging_kernel_shape Kernel) as [Hk1 Hk2]. fold cc in Hk1, Hk2.
    assert (Hkc : ncols (averaging_kernel Kernel) = (2 * cc + 1)%nat).
    { apply ncols_rect; [lia|exact Hk2]. }
    destruct (flip2_shape _ _ Hk2) as [Hf1 Hf2].
    assert (Hfc : ncols (flip2 (averaging_kernel Kernel)) = (2 * cc + 1)%nat).
    { apply ncols_rect; [lia|exact Hf2]. }
    destruct (augMat_entry Mat R C cc cc HR Hrect HR1 HC2) as (aug' & Hok' & _ & _ & Haent).
    rewrite Haug in Hok'. injection Hok' as <-.
    apply sum_nonneg. unfold conv_terms, nrows. rewrite Hf1, Hfc, Hk1.
    apply Forall_forall. intros t Ht.
    apply list_elem_of_In, in_flat_map in Ht as (a & Ha & Ht).
    apply in_map_iff in Ht as (b & <- & Hb). apply in_seq in Ha, Hb.
    rewrite (mget_flip2 _ (2 * cc + 1) (2 * cc + 1)) by (try assumption; lia).
    destruct (Haent (i + a)%nat (j + b)%nat ltac:(lia) ltac:(lia)) as (v & Hv & Hm).
    rewrite (mget_mlookup _ _ _ _ Hv).
    apply Qmult_le_0_compat.
    + exact (mlookup_Forall _ _ _ _ _ Hnn Hm).
    + exact (mget_nonneg (averaging_kernel Kernel) a b (averaging_kernel_nonneg Kernel)).
  - intros HC. unfold twoDsmooth, augMat.
    rewrite (ncols_rect Mat C) by (try exact Hrect; lia).
    replace (C <? 2)%nat with true by (symmetry; apply Nat.ltb_lt; exact HC).
    rewrite orb_true_r. reflexivity.
Qed.

Lemma twoDsmooth_shape_and_sign_witness :
  (exists S, twoDsmooth [[1; 2]; [3; 4]] 2 = Ok S /\ length S = 2%nat /\ rect 2 S /\
             Forall (Forall (fun x => 0 <= x)) S) /\
  twoDsmooth [[1]; [3]] 2 = Err IndexOutOfBounds.
Proof.
  split.
  - destruct (proj1 (twoDsmooth_shape_and_sign [[1; 2]; [3; 4]] 2 2 2 eq_refl
                       ltac:(repeat constructor) ltac:(lia)) ltac:(lia))
      as (S & H1 & H2 & H3 & H4).
    exists S. split; [exact H1|]. split; [exact H2|]. split; [exact H3|].
    apply H4. repeat constructor; vm_compute; discriminate.
  - apply (proj2 (twoDsmooth_shape_and_sign [[1]; [3]] 2 1 2 eq_refl
                    ltac:(repeat constructor) ltac:(lia))).
    lia.
Defined.

(** ** The DUET histogram conserves weight *)







(** ** The DUET histogram must be square *)

Lemma normalize_max_shape (hist hist' : list (list Q)) (R C : nat) :
  length hist = R -> rect C hist -> normalize_max hist = Finite hist' ->
  length hist' = R /\ rect C hist'.
Proof.
  intros HR HC Hn. unfold normalize_max in Hn.
  destruct (Qeq_bool _ 0); [discriminate|]. injection Hn as <-.
  apply map_map_shape; assumption.
Qed.

(** The accumulated histogram has [anum] rows and [dnum] columns. *)
Lemma duet_accumulate_shape (A1 A2 wmat alpha delta : list (list Q)) (ad : adparam)
    (H : list (list Q)) (ag dg : list Q) :
  duet_accumulate A1 A2 wmat alpha delta ad = Ok (H, ag, dg) ->
  length H = anum ad /\ rect (dnum ad) H /\ (1 <= anum ad)%nat /\ (1 <= dnum ad)%nat.
Proof.
  intros Eacc. unfold duet_accumulate, histogram2d in Eacc.
  destruct (Nat.eqb_spec (anum ad) 0) as [|Hnx]; [discriminate|].
  destruct (Nat.eqb_spec (dnum ad) 0) as [|Hny]; [discriminate|].
  cbn [orb] in Eacc. destruct (_ || _); [discriminate|].
  injection Eacc as <- _ _.
  destruct (full_shape (anum ad) (dnum ad) 0) as [S0 R0].
  match goal with
  | |- length (foldl ?acc ?H0 ?pts) = _ /\ _ =>
      destruct (foldl_accumulate_shape (anum ad) (dnum ad) (widen (amin ad, amax ad))
                  (widen (dmin ad, dmax ad)) pts _ _ _ S0 R0) as [SH RH]
  end.
  split; [exact SH|]. split; [exact RH|]. lia.
Qed.

(** The histogram that goes to the peak picking has the shape of the
    accumulated one. *)
Lemma duet_normalize_smooth_shape (H : list (list Q)) (ag dg : list Q)
    (hs : histograms) (R C : nat) :
  length H = R -> rect C H -> (1 <= R)%nat ->
  duet_normalize_smooth H ag dg = Ok (Finite hs) ->
  length (hist_final hs) = R /\ rect C (hist_final hs).
Proof.
  intros SH RH HR1 Hrun. unfold duet_normalize_smooth in Hrun.
  destruct (normalize_max H) as [hist1|] eqn:E1.
  2:{ destruct (twoDsmooth H 3); discriminate. }
  destruct (normalize_max_shape H hist1 _ _ SH RH E1) as [S1 R1].
  destruct (twoDsmooth hist1 3) as [hist2|e] eqn:E2;
    cbn [mbind result_bind] in Hrun; [|discriminate].
  destruct (normalize_max hist2) as [hist3|] eqn:E3; [|discriminate].
  injection Hrun as <-. cbn [hist_final].
  assert (HC2 : (2 <= C)%nat).
  { unfold twoDsmooth in E2.
    destruct (augMat hist1 _ _) as [aug|e] eqn:Eaug; [|discriminate].
    unfold augMat in Eaug.
    destruct (Nat.ltb_spec (ncols hist1) 2) as [Hlt|Hge].
    - rewrite orb_true_r in Eaug. discriminate.
    - rewrite (ncols_rect hist1 C) in Hge by (try exact R1; lia). exact Hge. }
  destruct (twoDsmooth_shape hist1 R C 3 S1 R1 HR1 HC2) as (S & HS & S2 & R2).
  rewrite E2 in HS. injection HS as <-.
  exact (normalize_max_shape hist2 hist3 _ _ S2 R2 E3).
Qed.

(** Line 275 of [find_peaks2] is a product of two matrices of the shape
    of the data. *)
Lemma find_peaks2_not_square (data : list (list Q)) (R C : nat) (min_thr : Q)
    (min_dist : option (Z * Z)) (max_num : nat) :
  length data = R -> rect C data -> (1 <= R)%nat -> R <> C ->
  find_peaks2 data min_thr min_dist max_num = Err ShapeMismatch.
Proof.
  intros HR HC HR1 Hne. unfold find_peaks2.
  destruct (default _ min_dist) as [Rmd Cmd].
  unfold matmul, nrows. rewrite length_map, HR, (ncols_rect data C) by (try exact HC; lia).
  replace (C =? R)%nat with false by (symmetry; apply Nat.eqb_neq; congruence).
  reflexivity.
Qed.

(** So it is on data that hold NaN. *)
Lemma find_peaks2_nan_not_square (data : list (list (option Q))) (R C : nat)
    (min_thr : Q) (min_dist : option (Z * Z)) (max_num : nat) :
  length data = R -> Forall (fun row => length row = C) data -> (1 <= R)%nat -> R <> C ->
  find_peaks2_nan data min_thr min_dist max_num = Err ShapeMismatch.
Proof.
  intros HR HC HR1 Hne. unfold find_peaks2_nan.
  destruct (default _ min_dist) as [Rmd Cmd].
  unfold nan_matmul, nrows. rewrite length_map, HR.
  destruct data as [|row data]; [simpl in HR; lia|].
  apply Forall_cons in HC as [Hrow _]. cbn [hd]. rewrite Hrow.
  replace (C =? R)%nat with false by (symmetry; apply Nat.eqb_neq; congruence).
  reflexivity.
Qed.

Lemma nan_histogram_shape (R C : nat) :
  length (nan_histogram R C) = R /\
  Forall (fun row => length row = C) (nan_histogram R C).
Proof.
  unfold nan_histogram. split; [apply length_replicate|].
  apply Forall_replicate, length_replicate.
Qed.

Section DuetShape.

Context {C : Type}.
Variable f_stft : list Q -> sparam -> list (list C) * list Q * list Q.
Variable f_istft : list (list C) -> sparam -> list Q.
Variable Cabs : C -> Q.
Variable atn_delay : C -> C -> Q -> Q * Q.
Variable ml_score : Q -> Q -> Q -> C -> C -> Q.
Variable demix : Q -> Q -> Q -> C -> C -> C.
Variable Czero : C.
Variable sqrt : Q -> Q.
Variable two_pi : Q.

(** With different numbers of rows and columns in the accumulated
    histogram the peak picking raises, whether the histogram holds
    numbers or NaN. *)
Lemma duet_separate_not_square (x : list (list Q)) (sp : sparam) (pr : Pr)
    (X1 X2 : list (list C)) (wmat : list (list Q)) (Lf Lt R Cn : nat)
    (H : list (list Q)) (ag dg : list Q) (hist : outcome histograms) :
  length H = R -> rect Cn H -> (1 <= R)%nat -> (1 <= Cn)%nat -> R <> Cn ->
  duet_normalize_smooth H ag dg = Ok hist ->
  duet_separate f_istft ml_score demix Czero sqrt x sp pr X1 X2 wmat Lf Lt H ag dg hist
  = Err ShapeMismatch.
Proof.
  intros SH RH HR1 HC1 Hne Hns. unfold duet_separate. destruct hist as [hs|].
  - destruct (duet_normalize_smooth_shape H ag dg hs R Cn SH RH HR1 Hns) as [S3 R3].
    rewrite (find_peaks2_not_square (hist_final hs) R Cn) by assumption.
    reflexivity.
  - unfold nrows. rewrite SH, (ncols_rect H Cn) by (try exact RH; lia).
    destruct (nan_histogram_shape R Cn) as [Sn Rn].
    rewrite (find_peaks2_nan_not_square (nan_histogram R Cn) R Cn) by assumption.
    reflexivity.
Qed.

(** X22. [duet] never returns estimates when the numbers of attenuation
    and delay bins differ: every call raises.  When the spectrograms,
    the histogram and its smoothing have gone through, what raises is
    the thresholding of [find_peaks2], a product of two matrices of the
    shape of the histogram. *)
Theorem duet_needs_square_histogram (x : list (list Q)) (sp : sparam) (ad : adparam)
    (pr : Pr) :
  anum ad <> dnum ad ->
  (exists e,
     duet f_stft f_istft Cabs atn_delay ml_score demix Czero sqrt two_pi x sp ad pr
     = Err e) /\
  (forall X1 X2 wmat Lf Lt H ag dg hist,
     duet_spectrograms f_stft two_pi x sp = Ok (X1, X2, wmat, Lf, Lt) ->
     duet_accumulate (map (map Cabs) X1) (map (map Cabs) X2) wmat
       (map (map fst) (mzip3 atn_delay X1 X2 wmat))
       (map (map snd) (mzip3 atn_delay X1 X2 wmat)) ad = Ok (H, ag, dg) ->
     duet_normalize_smooth H ag dg = Ok hist ->
     duet f_stft f_istft Cabs atn_delay ml_score demix Czero sqrt two_pi x sp ad pr
     = Err ShapeMismatch).
Proof.
  intros Hne.
  assert (Hlast : forall X1 X2 wmat Lf Lt H ag dg hist,
     duet_spectrograms f_stft two_pi x sp = Ok (X1, X2, wmat, Lf, Lt) ->
     duet_accumulate (map (map Cabs) X1) (map (map Cabs) X2) wmat
       (map (map fst) (mzip3 atn_delay X1 X2 wmat))
       (map (map snd) (mzip3 atn_delay X1 X2 wmat)) ad = Ok (H, ag, dg) ->
     duet_normalize_smooth H ag dg = Ok hist ->
     duet f_stft f_istft Cabs atn_delay ml_score demix Czero sqrt two_pi x sp ad pr
     = Err ShapeMismatch).
  { intros X1 X2 wmat Lf Lt H ag dg hist Hsp Hacc Hns.
    destruct (duet_accumulate_shape _ _ _ _ _ _ _ _ _ Hacc) as (SH & RH & Hnx & Hny).
    unfold duet. rewrite Hsp. cbn [mbind result_bind].
    rewrite Hacc. cbn [mbind result_bind]. rewrite Hns. cbn [mbind result_bind].
    apply (duet_separate_not_square x sp pr X1 X2 wmat Lf Lt (anum ad) (dnum ad));
      assumption. }
  split; [|exact Hlast].
  destruct (duet_spectrograms f_stft two_pi x sp) as [[[[[X1 X2] wmat] Lf] Lt]|e] eqn:Hsp.
  2:{ exists e. unfold duet. rewrite Hsp. reflexivity. }
  destruct (duet_accumulate (map (map Cabs) X1) (map (map Cabs) X2) wmat
              (map (map fst) (mzip3 atn_delay X1 X2 wmat))
              (map (map snd) (mzip3 atn_delay X1 X2 wmat)) ad)
    as [[[H ag] dg]|e] eqn:Hacc.
  2:{ exists e. unfold duet. rewrite Hsp. cbn [mbind result_bind].
      rewrite Hacc. reflexivity. }
  destruct (duet_normalize_smooth H ag dg) as [hist|e] eqn:Hns.
  2:{ exists e. unfold duet. rewrite Hsp. cbn [mbind result_bind].
      rewrite Hacc. cbn [mbind result_bind]. rewrite Hns. reflexivity. }
  exists ShapeMismatch. exact (Hlast X1 X2 wmat Lf Lt H ag dg hist eq_refl Hacc Hns).
Qed.

End DuetShape.

(** A mixture with energy in both channels, three attenuation bins and
    two delay bins: the histogram holds numbers, and the product in
    [find_peaks2] raises. *)
Lemma duet_needs_square_histogram_witness :
  let f_stft := fun (v : list Q) (_ : sparam) =>
                  ([[0; 0]; v], [0; 1], [0; 1]) : list (list Q) * list Q * list Q in
  let f_istft := fun (_ : list (list Q)) (_ : sparam) => @nil Q in
  let id1 := fun x : Q => x in
  let sp := {| winlen := 2; wintype := Hamming; overlap := 0; numfreq := 2;
               sampfreq := 1 |} in
  let ad := {| amin := -3; amax := 3; anum := 3; dmin := -3; dmax := 3; dnum := 2 |} in
  let pr := {| thr := 0.2; a_mindist := 1; d_mindist := 1; num_sources := 1 |} in
  duet f_stft f_istft Qabs (fun _ _ _ => (0, 0)) (fun _ _ _ _ _ => 0)
       (fun _ _ _ _ _ => 0) 0 id1 6.283 [[1; 2]; [1; 1]] sp ad pr
  = Err ShapeMismatch.
Proof.
  intros f_stft f_istft id1 sp ad pr.
  refine (proj2 (duet_needs_square_histogram f_stft f_istft Qabs (fun _ _ _ => (0, 0))
                   (fun _ _ _ _ _ => 0) (fun _ _ _ _ _ => 0) 0 id1 6.283
                   [[1; 2]; [1; 1]] sp ad pr _) _ _ _ _ _ _ _ _ _ _ _ _).
  - simpl. lia.
  - vm_compute. reflexivity.
  - vm_compute. reflexivity.
  - vm_compute. reflexivity.
Defined.

(** ** The similarity matrix is symmetric *)

Lemma dot_comm (a b : vector) : dot a b == dot b a.
Proof.
  unfold dot. apply sum_ext. revert b.
  induction a as [|x a IH]; intros [|y b]; simpl; try constructor.
  - ring.
  - apply IH.
Qed.

Lemma dot_self_nonneg (a : vector) : 0 <= dot a a.
Proof.
  unfold dot. apply sum_nonneg. induction a as [|x a IH]; simpl; constructor.
  - destruct (Qlt_le_dec x 0) as [Hneg|Hpos].
    + assert (E : x * x == (- x) * (- x)) by ring.
      rewrite E. apply Qmult_le_0_compat; lra.
    + apply Qmult_le_0_compat; assumption.
  - exact IH.
Qed.

Section SimilarityShape.

Variable sqrt : Q -> Q.
Variable EPSILON : Q.

(** What [ComputeSimilarityMatrix] returns: the product of the
    normalized array, transposed, with itself. *)
Lemma ComputeSimilarityMatrix_result (X : ndarray) (h : heap)
    (buf : list (list Q)) (F Tn : nat) :
  transposed X = false -> h !! base X = Some buf ->
  length buf = F -> rect Tn buf -> (1 <= F)%nat -> (1 <= Tn)%nat ->
  let after := normalized_columns sqrt EPSILON buf in
  ComputeSimilarityMatrix sqrt EPSILON X h
  = Ok (map (fun i => map (fun j => dot (column after i) (column after j)) (seq 0 Tn))
            (seq 0 Tn),
        <[base X := after]> h).
Proof.
  intros Htr Hbuf HF HT HF1 HT1 after.
  destruct (partly_normalized_shape sqrt EPSILON buf F Tn Tn HF HT) as [Sa Ra].
  rewrite (partly_normalized_all sqrt EPSILON buf Tn HT) in Sa, Ra. fold after in Sa, Ra.
  destruct (transpose_shape after F Tn Sa Ra HF1 HT1) as [Tr Tc].
  assert (Hshape : shape h X = Ok (F, Tn)).
  { unfold shape, read. rewrite Hbuf, Htr. cbn [mbind result_bind].
    unfold nrows. rewrite HF, (ncols_rect buf Tn) by (try lia; exact HT).
    reflexivity. }
  assert (Hloop : normalize_rows sqrt EPSILON (T X) Tn 0 h
                  = Ok (<[base X := after]> h)).
  { pose proof (normalize_rows_spec sqrt EPSILON (T X) h buf F Tn) as Hloop.
    change (base (T X)) with (base X) in Hloop.
    specialize (Hloop ltac:(unfold T; cbn [transposed]; rewrite Htr; reflexivity)
                      HF HT HF1 Tn 0%nat ltac:(lia)).
    rewrite partly_normalized_0, (partly_normalized_all sqrt EPSILON buf Tn HT) in Hloop.
    rewrite (insert_id h (base X) buf Hbuf) in Hloop. exact Hloop. }
  assert (Hr1 : read (<[base X := after]> h) (T X) = Ok (transpose after)).
  { unfold read, T. cbn [base transposed]. rewrite lookup_insert_eq, Htr.
    reflexivity. }
  assert (Hr2 : read (<[base X := after]> h) (T (T X)) = Ok after).
  { unfold read, T. cbn [base transposed]. rewrite lookup_insert_eq, Htr.
    reflexivity. }
  unfold ComputeSimilarityMatrix. rewrite Hshape. cbn [mbind result_bind].
  rewrite Hloop. cbn [mbind result_bind].
  rewrite Hr1. cbn [mbind result_bind]. rewrite Hr2. cbn [mbind result_bind].
  unfold matmul. rewrite Tc. unfold nrows. rewrite Sa, Nat.eqb_refl.
  cbn [mbind result_bind]. do 2 f_equal.
  rewrite (ncols_rect after Tn) by (try lia; exact Ra).
  unfold transpose. rewrite (ncols_rect after Tn) by (try lia; exact Ra).
  rewrite map_map. reflexivity.
Qed.

(** X23. The matrix [ComputeSimilarityMatrix] returns for an [F] by
    [Lt] spectrogram is [Lt] by [Lt]; its entry (i, j) is the dot
    product of columns [i] and [j] of the normalized spectrogram, so
    the matrix is symmetric and no entry of its diagonal is negative. *)
Theorem ComputeSimilarityMatrix_symmetric (X : ndarray) (h : heap)
    (buf : list (list Q)) (F Tn : nat) :
  transposed X = false -> h !! base X = Some buf ->
  length buf = F -> rect Tn buf -> (1 <= F)%nat -> (1 <= Tn)%nat ->
  let after := normalized_columns sqrt EPSILON buf in
  exists S h',
    ComputeSimilarityMatrix sqrt EPSILON X h = Ok (S, h') /\
    length S = Tn /\ rect Tn S /\
    (forall i j, (i < Tn)%nat -> (j < Tn)%nat ->
       mlookup S i j = Some (dot (column after i) (column after j)) /\
       mget S i j == mget S j i) /\
    (forall i, (i < Tn)%nat -> 0 <= mget S i i).
Proof.
  intros Htr Hbuf HF HT HF1 HT1 after.
  pose proof (ComputeSimilarityMatrix_result X h buf F Tn Htr Hbuf HF HT HF1 HT1) as Hres.
  cbv zeta in Hres. fold after in Hres.
  set (g := fun i j => dot (column after i) (column after j)).
  change (map (fun i => map (fun j => dot (column after i) (column after j)) (seq 0 Tn))
              (seq 0 Tn)) with (tabulate Tn Tn g) in Hres.
  destruct (tabulate_length g Tn Tn) as [HSl HSr].
  assert (Hent : forall i j, (i < Tn)%nat -> (j < Tn)%nat ->
            mlookup (tabulate Tn Tn g) i j = Some (g i j)).
  { intros i j Hi Hj. apply tabulate_lookup; assumption. }
  eexists _, _. split; [exact Hres|]. split; [exact HSl|]. split; [exact HSr|]. split.
  - intros i j Hi Hj. split; [apply Hent; assumption|].
    rewrite (mget_mlookup _ _ _ _ (Hent i j Hi Hj)).
    rewrite (mget_mlookup _ _ _ _ (Hent j i Hj Hi)).
    unfold g. apply dot_comm.
  - intros i Hi. rewrite (mget_mlookup _ _ _ _ (Hent i i Hi Hi)).
    unfold g. apply dot_self_nonneg.
Qed.

End SimilarityShape.

Lemma ComputeSimilarityMatrix_symmetric_witness :
  let X := {| base := 1%positive; transposed := false |} in
  let buf : list (list Q) := [[3; 0]; [4; 2]] in
  let h : heap := <[1%positive := buf]> ∅ in
  let after := normalized_columns sqrt_floor 1e-16 buf in
  exists S h',
    ComputeSimilarityMatrix sqrt_floor 1e-16 X h = Ok (S, h') /\
    length S = 2%nat /\ rect 2 S /\
    (forall i j, (i < 2)%nat -> (j < 2)%nat ->
       mlookup S i j = Some (dot (column after i) (column after j)) /\
       mget S i j == mget S j i) /\
    (forall i, (i < 2)%nat -> 0 <= mget S i i).
Proof.
  apply (ComputeSimilarityMatrix_symmetric sqrt_floor 1e-16
           {| base := 1%positive; transposed := false |}
           (<[1%positive := [[3; 0]; [4; 2]]]> ∅) [[3; 0]; [4; 2]] 2 2).
  - reflexivity.
  - vm_compute. reflexivity.
  - reflexivity.
  - repeat constructor.
  - lia.
  - lia.
Defined.

(** ** The DUET histogram of a mixture without weight *)

Lemma add_at_all_zero (H : list (list Q)) (i j : nat) (w : Q) :
  w == 0 -> Forall (Forall (fun x => x == 0)) H ->
  Forall (Forall (fun x => x == 0)) (add_at H i j w).
Proof.
  intros Hw HH. unfold add_at. apply Forall_alter; [exact HH|].
  intros row _ Hrow. apply Forall_alter; [exact Hrow|].
  intros x _ Hx. rewrite Hw, Hx. reflexivity.
Qed.

Lemma foldl_accumulate_all_zero nx ny xr yr (l : list (Q * Q * Q)) :
  forall (H : list (list Q)),
  Forall (fun s : Q * Q * Q => s.2 == 0) l ->
  Forall (Forall (fun x => x == 0)) H ->
  Forall (Forall (fun x => x == 0)) (foldl (accumulate nx ny xr yr) H l).
Proof.
  induction l as [|[[x y] w] l IH]; intros H Hall HH; [exact HH|].
  apply Forall_cons in Hall as [Hw Hall]. cbn [foldl]. apply IH; [exact Hall|].
  unfold accumulate. destruct (bin_of _ _ nx x); [|exact HH].
  destruct (bin_of _ _ ny y); [|exact HH].
  apply add_at_all_zero; assumption.
Qed.

Lemma array_max_all_zero (m : list (list Q)) :
  Forall (Forall (fun x => x == 0)) m -> array_max 0 (flatten m) == 0.
Proof.
  intros Hm. destruct (flatten m) as [|x l] eqn:E; [reflexivity|].
  destruct (array_max_spec 0 (x :: l) ltac:(discriminate)) as [Hin _].
  rewrite <- E in Hin. apply flatten_elem in Hin as (i & j & Hij).
  rewrite <- E. exact (mlookup_Forall _ _ _ _ _ Hm Hij).
Qed.

(** The build step on a mixture whose in-bounds points have no weight. *)
Lemma zero_weight_histogram_spec (A1 A2 wmat alpha delta : list (list Q))
    (ad : adparam) :
  (1 <= anum ad)%nat -> (1 <= dnum ad)%nat ->
  amin ad <= amax ad -> dmin ad <= dmax ad ->
  Forall (fun w => w == 0)
         (select (concat (duet_premask ad alpha delta)) (flatten (duet_tfw A1 A2 wmat))) ->
  exists H ag dg,
    duet_accumulate A1 A2 wmat alpha delta ad = Ok (H, ag, dg) /\
    length H = anum ad /\ rect (dnum ad) H /\
    Forall (Forall (fun x => x == 0)) H /\
    normalize_max H = NotFinite /\
    duet_histogram A1 A2 wmat alpha delta ad
    = if (2 <=? dnum ad)%nat then Ok NotFinite else Err IndexOutOfBounds.
Proof.
  intros Hnx Hny Ha Hd Hw.
  destruct (duet_accumulate A1 A2 wmat alpha delta ad) as [[[H ag] dg]|e] eqn:Hacc.
  2:{ unfold duet_accumulate, histogram2d in Hacc.
      destruct (Nat.eqb_spec (anum ad) 0) as [|_]; [lia|].
      destruct (Nat.eqb_spec (dnum ad) 0) as [|_]; [lia|].
      cbn [orb fst snd] in Hacc.
      replace (Qltb (amax ad) (amin ad)) with false in Hacc
        by (symmetry; apply Qltb_ge; exact Ha).
      replace (Qltb (dmax ad) (dmin ad)) with false in Hacc
        by (symmetry; apply Qltb_ge; exact Hd).
      discriminate. }
  destruct (duet_accumulate_shape _ _ _ _ _ _ _ _ _ Hacc) as (SH & RH & _ & _).
  assert (HZ : Forall (Forall (fun x => x == 0)) H).
  { unfold duet_accumulate, histogram2d in Hacc.
    destruct (_ || _); [discriminate|]. destruct (_ || _); [discriminate|].
    injection Hacc as <- _ _.
    apply foldl_accumulate_all_zero.
    - apply Forall_forall. intros [[a d] w] Hin.
      apply elem_of_zip_r in Hin. rewrite Forall_forall in Hw. exact (Hw w Hin).
    - unfold full. apply Forall_replicate, Forall_replicate. reflexivity. }
  pose proof (normalize_max_zero H (array_max_all_zero H HZ)) as Hn.
  exists H, ag, dg. split; [reflexivity|]. split; [exact SH|]. split; [exact RH|].
  split; [exact HZ|]. split; [exact Hn|].
  unfold duet_histogram. rewrite Hacc. cbn [mbind result_bind].
  unfold duet_normalize_smooth. rewrite Hn.
  destruct (Nat.leb_spec 2 (dnum ad)) as [H2|H1].
  - destruct (twoDsmooth_shape H (anum ad) (dnum ad) 3 SH RH Hnx H2) as (S & HS & _).
    rewrite HS. reflexivity.
  - assert (R1 : rect 1 H) by (replace 1%nat with (dnum ad) by lia; exact RH).
    rewrite (twoDsmooth_single_column H 3 R1). reflexivity.
Qed.

(** X24. When every time-frequency point whose attenuation and delay
    are in bounds has weight zero (silence, or no point in bounds), the
    histogram [duet] accumulates is zero and its first normalization is
    a division of zero by zero; the build step then ends with a
    histogram of NaN for two or more delay bins, and with one delay bin
    it raises in [twoDsmooth]. *)
Theorem duet_histogram_zero_weight (A1 A2 wmat alpha delta : list (list Q))
    (ad : adparam) :
  (1 <= anum ad)%nat -> (1 <= dnum ad)%nat ->
  amin ad <= amax ad -> dmin ad <= dmax ad ->
  Forall (fun w => w == 0)
         (select (concat (duet_premask ad alpha delta)) (flatten (duet_tfw A1 A2 wmat))) ->
  exists H ag dg,
    duet_accumulate A1 A2 wmat alpha delta ad = Ok (H, ag, dg) /\
    length H = anum ad /\ rect (dnum ad) H /\
    Forall (Forall (fun x => x == 0)) H /\
    normalize_max H = NotFinite /\
    duet_histogram A1 A2 wmat alpha delta ad
    = if (2 <=? dnum ad)%nat then Ok NotFinite else Err IndexOutOfBounds.
Proof. apply zero_weight_histogram_spec. Qed.

Lemma duet_histogram_zero_weight_witness :
  let Z : list (list Q) := [[0; 0]] in
  let wmat : list (list Q) := [[1; 1]] in
  let ad := {| amin := -1; amax := 1; anum := 2; dmin := -1; dmax := 1; dnum := 1 |} in
  exists H ag dg,
    duet_accumulate Z Z wmat Z Z ad = Ok (H, ag, dg) /\
    length H = 2%nat /\ rect 1 H /\
    Forall (Forall (fun x => x == 0)) H /\
    normalize_max H = NotFinite /\
    duet_histogram Z Z wmat Z Z ad = Err IndexOutOfBounds.
Proof.
  apply (duet_histogram_zero_weight [[0; 0]] [[0; 0]] [[1; 1]] [[0; 0]] [[0; 0]]
           {| amin := -1; amax := 1; anum := 2; dmin := -1; dmax := 1; dnum := 1 |}).
  - simpl. lia.
  - simpl. lia.
  - vm_compute. discriminate.
  - vm_compute. discriminate.
  - repeat constructor.
Defined.

(** ** Peak picking on a histogram of NaN *)

Lemma nan_histogram_concat (r c : nat) :
  concat (nan_histogram r c) = replicate (r * c) None.
Proof.
  unfold nan_histogram. induction r as [|r IH]; [reflexivity|].
  cbn [replicate concat]. rewrite IH, <- replicate_add. reflexivity.
Qed.

(** Line 275 on a square histogram of NaN: no entry passes the
    threshold, and the product with the mask is NaN everywhere. *)
Lemma nan_matmul_nan_histogram (n : nat) (min_thr : Q) :
  (1 <= n)%nat ->
  nan_matmul (nan_histogram n n) (map (nan_ge_mask min_thr) (nan_histogram n n))
  = Ok (nan_histogram n n).
Proof.
  intros Hn. destruct n as [|m]; [lia|].
  set (row := replicate (S m) (@None Q)).
  assert (Hh : nan_histogram (S m) (S m) = replicate (S m) row) by reflexivity.
  assert (Hrow : length row = S m) by apply length_replicate.
  unfold nan_matmul, nrows, ncols. rewrite Hh.
  set (b := map (nan_ge_mask min_thr) (replicate (S m) row)).
  assert (Hb1 : length b = S m).
  { unfold b. rewrite length_map. apply length_replicate. }
  assert (Hb2 : length (hd [] b) = S m).
  { unfold b. cbn [replicate map hd]. unfold nan_ge_mask. rewrite length_map.
    exact Hrow. }
  assert (Hhd : length (hd [] (replicate (S m) row)) = S m).
  { cbn [replicate hd]. exact Hrow. }
  rewrite Hb1, Hb2, Hhd, Nat.eqb_refl. f_equal.
  rewrite fmap_replicate. f_equal.
  apply list_eq. intros j. rewrite list_lookup_fmap.
  destruct (decide (j < S m)%nat) as [Hj|Hj].
  - rewrite lookup_seq_lt by exact Hj. unfold row at 2.
    rewrite lookup_replicate_2 by exact Hj. reflexivity.
  - rewrite lookup_seq_ge by lia. symmetry. apply lookup_replicate_None. lia.
Qed.

Lemma nan_size_nonzero2_nan_histogram (n : nat) :
  nan_size_nonzero2 (nan_histogram n n) = (2 * (n * n))%nat.
Proof.
  unfold nan_size_nonzero2. rewrite nan_histogram_concat. f_equal.
  induction (n * n)%nat as [|k IH]; [reflexivity|].
  cbn [replicate]. rewrite filter_cons. cbn [nan_nonzero].
  destruct (decide _) as [_|Hf]; [|exfalso; apply Hf; exact I].
  cbn [length]. rewrite IH. reflexivity.
Qed.

Lemma first_nan_bounds (v : list (option Q)) : forall i k,
  first_nan i v = Some k -> (i <= k < i + length v)%nat.
Proof.
  induction v as [|[q|] v IH]; intros i k H; simpl in H; [discriminate| |].
  - apply IH in H. simpl. lia.
  - injection H as <-. simpl. lia.
Qed.

Lemma argmax_lt (v : list Q) : v <> [] -> (argmax v < length v)%nat.
Proof.
  intros Hne. destruct (argmax_spec v Hne) as (m & Hm & _).
  apply lookup_lt_Some in Hm. exact Hm.
Qed.

Lemma nan_argmax_lt (v : list (option Q)) : v <> [] -> (nan_argmax v < length v)%nat.
Proof.
  intros Hne. unfold nan_argmax. destruct (first_nan 0 v) as [k|] eqn:E.
  - apply first_nan_bounds in E. lia.
  - rewrite <- (length_map (default 0) v). apply argmax_lt.
    destruct v; [congruence|discriminate].
Qed.

Lemma nan_zero_slice2_shape (a b c d : Z) (m : list (list (option Q))) (R C : nat) :
  length m = R -> Forall (fun row => length row = C) m ->
  length (nan_zero_slice2 a b c d m) = R /\
  Forall (fun row => length row = C) (nan_zero_slice2 a b c d m).
Proof.
  intros HR HC. unfold nan_zero_slice2. split; [rewrite length_imap; exact HR|].
  apply Forall_lookup. intros i row Hrow. rewrite list_lookup_imap in Hrow.
  destruct (m !! i) as [row0|] eqn:E; [|discriminate].
  rewrite Forall_lookup in HC. pose proof (HC _ _ E) as Hlen.
  simpl in Hrow. injection Hrow as <-.
  destruct (in_slice _ _ _ _); [rewrite length_imap|]; exact Hlen.
Qed.

(** The loop stores valid positions, and leaves alone what it stored
    in earlier turns. *)
Lemma find_peaks2_nan_loop_spec (n : nat) (Rmd Cmd : Z) : forall fuel i data Pi,
  (1 <= n)%nat ->
  length data = n -> Forall (fun row => length row = n) data ->
  Forall (fun p : Z * Z => (0 <= p.1 < Z.of_nat n)%Z /\ (0 <= p.2 < Z.of_nat n)%Z) Pi ->
  let Pi' := find_peaks2_nan_loop fuel i Rmd Cmd data Pi in
  length Pi' = length Pi /\
  Forall (fun p : Z * Z => (0 <= p.1 < Z.of_nat n)%Z /\ (0 <= p.2 < Z.of_nat n)%Z) Pi' /\
  (forall j, (j < i)%nat -> Pi' !! j = Pi !! j).
Proof.
  induction fuel as [|fuel IH]; intros i data Pi Hn SD RD HPi; cbv zeta.
  - cbn [find_peaks2_nan_loop]. split; [reflexivity|]. split; [exact HPi|]. reflexivity.
  - cbn [find_peaks2_nan_loop].
    set (flat := nan_argmax (concat data)).
    assert (Hhd : length (hd [] data) = n).
    { destruct data as [|row data]; [simpl in SD; lia|].
      apply Forall_cons in RD as [Hrow _]. exact Hrow. }
    rewrite Hhd.
    assert (Hflat : (flat < n * n)%nat).
    { unfold flat. rewrite <- SD at 1. rewrite <- (concat_length_rect data n RD).
      apply nan_argmax_lt. intros E.
      pose proof (concat_length_rect data n RD) as Hl. rewrite E, SD in Hl.
      simpl in Hl. nia. }
    set (p := (Z.of_nat (flat / n), Z.of_nat (flat mod n))).
    assert (Hp : (0 <= p.1 < Z.of_nat n)%Z /\ (0 <= p.2 < Z.of_nat n)%Z).
    { unfold p. cbn [fst snd].
      pose proof (Nat.mod_upper_bound flat n ltac:(lia)).
      assert (flat / n < n)%nat by (apply Nat.Div0.div_lt_upper_bound; lia).
      lia. }
    assert (HPi' : Forall (fun p : Z * Z => (0 <= p.1 < Z.of_nat n)%Z /\
                                            (0 <= p.2 < Z.of_nat n)%Z) (<[i := p]> Pi)).
    { apply Forall_insert; assumption. }
    destruct (nan_sum_is_zero _).
    + split; [apply length_insert|]. split; [exact HPi'|].
      intros j Hj. apply list_lookup_insert_ne. lia.
    + match goal with
      | |- context [find_peaks2_nan_loop fuel (S i) Rmd Cmd ?d _] =>
          destruct (nan_zero_slice2_shape (p.1 - Rmd - 1) (p.1 + Rmd + 1)
                      (p.2 - Cmd - 1) (p.2 + Cmd + 1) data n n SD RD) as [SD' RD'];
          destruct (IH (S i) d (<[i := p]> Pi) Hn SD' RD' HPi') as (L & V & K)
      end.
      split; [rewrite L; apply length_insert|]. split; [exact V|].
      intros j Hj. rewrite K by lia. apply list_lookup_insert_ne. lia.
Qed.

(** [find_peaks2] on a square histogram of NaN. *)
Lemma find_peaks2_nan_histogram_spec (n max_num : nat) (min_thr : Q)
    (min_dist : option (Z * Z)) :
  (1 <= n)%nat ->
  ((max_num <= 2 * (n * n))%nat ->
     exists Pi,
       find_peaks2_nan (nan_histogram n n) min_thr min_dist max_num = Ok Pi /\
       length Pi = max_num /\
       Forall (fun p : Z * Z => (0 <= p.1 < Z.of_nat n)%Z /\ (0 <= p.2 < Z.of_nat n)%Z) Pi /\
       ((1 <= max_num)%nat -> Pi !! 0%nat = Some (0%Z, 0%Z))) /\
  ((2 * (n * n) < max_num)%nat ->
     find_peaks2_nan (nan_histogram n n) min_thr min_dist max_num = Err InsufficientPeaks).
Proof.
  intros Hn. unfold find_peaks2_nan.
  destruct (default _ min_dist) as [Rmd Cmd].
  rewrite (nan_matmul_nan_histogram n min_thr Hn). cbn [mbind result_bind].
  rewrite nan_size_nonzero2_nan_histogram.
  destruct (nan_histogram_shape n n) as [Sn Rn].
  split; intros Hmax.
  - replace (2 * (n * n) <? max_num)%nat with false by (symmetry; apply Nat.ltb_ge; lia).
    eexists. split; [reflexivity|].
    assert (H0 : Forall (fun p : Z * Z => (0 <= p.1 < Z.of_nat n)%Z /\
                                          (0 <= p.2 < Z.of_nat n)%Z)
                        (replicate max_num (0%Z, 0%Z))).
    { apply Forall_replicate. cbn [fst snd]. lia. }
    destruct (find_peaks2_nan_loop_spec n Rmd Cmd max_num 0 (nan_histogram n n)
                (replicate max_num (0%Z, 0%Z)) Hn Sn Rn H0) as (L & V & _).
    split; [rewrite L; apply length_replicate|]. split; [exact V|].
    intros H1. destruct max_num as [|k]; [lia|].
    cbn [find_peaks2_nan_loop].
    assert (Hflat : nan_argmax (concat (nan_histogram n n)) = 0%nat).
    { rewrite nan_histogram_concat. destruct n as [|m]; [lia|]. reflexivity. }
    rewrite Hflat.
    assert (Hhd : length (hd [] (nan_histogram n n)) = n).
    { unfold nan_histogram. destruct n as [|m]; [lia|].
      cbn [replicate hd]. apply (length_replicate (S m)). }
    rewrite Hhd, Nat.Div0.div_0_l, Nat.Div0.mod_0_l.
    change (Z.of_nat 0) with 0%Z.
    destruct (nan_sum_is_zero _).
    + reflexivity.
    + match goal with
      | |- find_peaks2_nan_loop k 1 Rmd Cmd ?d ?P !! 0%nat = _ =>
          destruct (nan_zero_slice2_shape (0 - Rmd - 1) (0 + Rmd + 1)
                      (0 - Cmd - 1) (0 + Cmd + 1) (nan_histogram n n) n n Sn Rn)
            as [SD' RD'];
          destruct (find_peaks2_nan_loop_spec n Rmd Cmd k 1 d P Hn SD' RD') as (_ & _ & K)
      end.
      { apply Forall_insert; [exact H0|]. cbn [fst snd]. lia. }
      rewrite K by lia. reflexivity.
  - replace (2 * (n * n) <? max_num)%nat with true by (symmetry; apply Nat.ltb_lt; lia).
    reflexivity.
Qed.

(** X25. [find_peaks2] on a square histogram that holds only NaN (what
    [duet] hands it after a division of zero by zero) does not fail for
    want of peaks: NaN counts as non-zero, so that for [max_num] up to
    twice the number of bins it returns [max_num] positions, all of
    them bins of the histogram, and the first one bin (0, 0), whatever
    the threshold and the minimum distances; it raises only when more
    peaks than that are asked for. *)
Theorem find_peaks2_nan_histogram_peaks (n max_num : nat) (min_thr : Q)
    (min_dist : option (Z * Z)) :
  (1 <= n)%nat ->
  ((max_num <= 2 * (n * n))%nat ->
     exists Pi,
       find_peaks2_nan (nan_histogram n n) min_thr min_dist max_num = Ok Pi /\
       length Pi = max_num /\
       Forall (fun p : Z * Z => (0 <= p.1 < Z.of_nat n)%Z /\ (0 <= p.2 < Z.of_nat n)%Z) Pi /\
       ((1 <= max_num)%nat -> Pi !! 0%nat = Some (0%Z, 0%Z))) /\
  ((2 * (n * n) < max_num)%nat ->
     find_peaks2_nan (nan_histogram n n) min_thr min_dist max_num = Err InsufficientPeaks).
Proof. apply find_peaks2_nan_histogram_spec. Qed.

Lemma find_peaks2_nan_histogram_peaks_witness :
  (exists Pi,
     find_peaks2_nan (nan_histogram 2 2) 0.2 (Some (1, 1)%Z) 2 = Ok Pi /\
     length Pi = 2%nat /\
     Forall (fun p : Z * Z => (0 <= p.1 < 2)%Z /\ (0 <= p.2 < 2)%Z) Pi /\
     Pi !! 0%nat = Some (0%Z, 0%Z)) /\
  find_peaks2_nan (nan_histogram 2 2) 0.2 (Some (1, 1)%Z) 9 = Err InsufficientPeaks.
Proof.
  split.
  - destruct (proj1 (find_peaks2_nan_histogram_peaks 2 2 0.2 (Some (1, 1)%Z)
                       ltac:(lia)) ltac:(lia)) as (Pi & H1 & H2 & H3 & H4).
    exists Pi. split; [exact H1|]. split; [exact H2|]. split; [exact H3|].
    apply H4. lia.
  - apply (proj2 (find_peaks2_nan_histogram_peaks 2 9 0.2 (Some (1, 1)%Z) ltac:(lia))).
    simpl. lia.
Defined.

(** ** The DUET estimator on a mixture without weight *)

Lemma linspace_length (lo hi : Q) (n : nat) : length (linspace lo hi n) = S n.
Proof. unfold linspace. rewrite length_map. apply length_seq. Qed.

(** A position below the number of bins names an edge. *)
Lemma take_edge_ok (edges : list Q) (n : nat) (p : Z) :
  length edges = S n -> (0 <= p < Z.of_nat n)%Z ->
  take_edge edges p = Ok (nth (Z.to_nat p) edges 0).
Proof.
  intros Hlen Hp. unfold take_edge.
  destruct (lookup_lt_is_Some_2 edges (Z.to_nat p) ltac:(lia)) as [e He].
  rewrite He, (nth_lookup_Some _ _ _ _ He).
  destruct (Z.ltb_spec p 0); [lia|reflexivity].
Qed.

(** With a range that is not empty the edges run from its lower to its
    upper bound. *)
Lemma duet_accumulate_grids (A1 A2 wmat alpha delta : list (list Q)) (ad : adparam)
    (H : list (list Q)) (ag dg : list Q) :
  amin ad < amax ad -> dmin ad < dmax ad ->
  duet_accumulate A1 A2 wmat alpha delta ad = Ok (H, ag, dg) ->
  ag = linspace (amin ad) (amax ad) (anum ad) /\
  dg = linspace (dmin ad) (dmax ad) (dnum ad).
Proof.
  intros Ha Hd Hacc. unfold duet_accumulate, histogram2d in Hacc.
  destruct (_ || _); [discriminate|]. destruct (_ || _); [discriminate|].
  unfold widen in Hacc. cbn [fst snd] in Hacc.
  destruct (Qeq_bool (amin ad) (amax ad)) eqn:E1; [apply Qeq_bool_iff in E1; lra|].
  destruct (Qeq_bool (dmin ad) (dmax ad)) eqn:E2; [apply Qeq_bool_iff in E2; lra|].
  cbn [fst snd] in Hacc. injection Hacc as _ <- <-. split; reflexivity.
Qed.

Section DuetSilence.

Context {C : Type}.
Variable f_stft : list Q -> sparam -> list (list C) * list Q * list Q.
Variable f_istft : list (list C) -> sparam -> list Q.
Variable Cabs : C -> Q.
Variable atn_delay : C -> C -> Q -> Q * Q.
Variable ml_score : Q -> Q -> Q -> C -> C -> Q.
Variable demix : Q -> Q -> Q -> C -> C -> C.
Variable Czero : C.
Variable sqrt : Q -> Q.
Variable two_pi : Q.

(** X26. [duet] does not fail on a mixture without weight: when every
    time-frequency point in bounds has weight zero (silence), with as
    many attenuation as delay bins (two or more), ranges that are not
    empty, a number of sources from 1 to twice the number of bins, and
    an inverse transform that returns as many samples as the mixture
    has, the call returns that number of sources and estimates, picked
    from a histogram of NaN; the first estimate is the lower bound of
    the attenuation range with the lower bound of the delay range. *)
Theorem duet_zero_weight_returns (x : list (list Q)) (sp : sparam) (ad : adparam)
    (pr : Pr) (X1 X2 : list (list C)) (wmat : list (list Q)) (Lf Lt : nat) :
  duet_spectrograms f_stft two_pi x sp = Ok (X1, X2, wmat, Lf, Lt) ->
  Forall (fun w => w == 0)
         (select (concat (duet_premask ad (map (map fst) (mzip3 atn_delay X1 X2 wmat))
                                          (map (map snd) (mzip3 atn_delay X1 X2 wmat))))
                 (flatten (duet_tfw (map (map Cabs) X1) (map (map Cabs) X2) wmat))) ->
  anum ad = dnum ad -> (2 <= dnum ad)%nat ->
  amin ad < amax ad -> dmin ad < dmax ad ->
  (1 <= num_sources pr)%nat -> (num_sources pr <= 2 * (anum ad * anum ad))%nat ->
  (forall Xm, (ncols x <= length (f_istft Xm sp))%nat) ->
  exists xhat ad_est a d,
    duet f_stft f_istft Cabs atn_delay ml_score demix Czero sqrt two_pi x sp ad pr
    = Ok (xhat, ad_est) /\
    length xhat = num_sources pr /\
    Forall (fun xi => length xi = ncols x) xhat /\
    length ad_est = num_sources pr /\
    ad_est !! 0%nat = Some (a, d) /\ a == amin ad /\ d == dmin ad.
Proof.
  intros Hsp Hw Hsq Hd2 Ha Hd HN1 HN Hist.
  set (alpha := map (map fst) (mzip3 atn_delay X1 X2 wmat)) in *.
  set (delta := map (map snd) (mzip3 atn_delay X1 X2 wmat)) in *.
  destruct (zero_weight_histogram_spec (map (map Cabs) X1) (map (map Cabs) X2)
              wmat alpha delta ad ltac:(lia) ltac:(lia) ltac:(lra) ltac:(lra) Hw)
    as (H & ag & dg & Hacc & SH & RH & _ & Hn & _).
  destruct (duet_accumulate_grids _ _ _ _ _ _ _ _ _ Ha Hd Hacc) as [Eag Edg].
  assert (Hns : duet_normalize_smooth H ag dg = Ok NotFinite).
  { unfold duet_normalize_smooth. rewrite Hn.
    destruct (twoDsmooth_shape H (anum ad) (dnum ad) 3 SH RH ltac:(lia) Hd2)
      as (S & HS & _).
    rewrite HS. reflexivity. }
  set (n := anum ad) in *.
  destruct (proj1 (find_peaks2_nan_histogram_spec n (num_sources pr) (thr pr)
                     (Some (a_mindist pr, d_mindist pr)) ltac:(lia)) HN)
    as (Pi & HPi & LPi & VPi & H0).
  specialize (H0 HN1).
  set (ga := fun p : Z * Z => nth (Z.to_nat p.1) ag 0).
  set (gd := fun p : Z * Z => nth (Z.to_nat p.2) dg 0).
  assert (Halpha : mapM (fun p : Z * Z => take_edge ag p.1) Pi = Ok (map ga Pi)).
  { apply mapM_result_ok. intros p Hp. rewrite Forall_forall in VPi.
    apply (take_edge_ok ag n); [rewrite Eag; apply linspace_length|].
    apply (VPi p Hp). }
  assert (Hdelta : mapM (fun p : Z * Z => take_edge dg p.2) Pi = Ok (map gd Pi)).
  { apply mapM_result_ok. intros p Hp. rewrite Forall_forall in VPi.
    apply (take_edge_ok dg n); [rewrite Edg, <- Hsq; apply linspace_length|].
    apply (VPi p Hp). }
  set (atnpeak := map (fun a => (a + sqrt (a ^ 2 + 4)) / 2) (map ga Pi)).
  set (bestind :=
         duet_bestind
           (zip_with (fun a d => mzip3 (ml_score a d) wmat X1 X2) atnpeak (map gd Pi))
           (Lf - 1) Lt).
  set (gx := fun t : nat * (Q * Q) =>
               take (ncols x)
                 (f_istft
                    (replicate Lt Czero ::
                     mzip_with (fun c (m : bool) => if m then c else Czero)
                       (mzip3 (demix t.2.1 t.2.2) wmat X1 X2) (source_mask bestind t.1))
                    sp)).
  set (srcs := zip (seq 0 (num_sources pr)) (zip atnpeak (map gd Pi))).
  assert (Hx : mapM (fun '(i, (a, d)) =>
                       duet_source f_istft demix Czero sp X1 X2 wmat bestind Lt (ncols x)
                                   i a d) srcs
               = Ok (map gx srcs)).
  { apply mapM_result_ok. intros [i [a d]] _. unfold duet_source, gx. cbn [fst snd].
    match goal with
    | |- (if (length (f_istft ?Xm sp) <? _)%nat then _ else _) = _ =>
        pose proof (Hist Xm) as Hlen;
        replace (length (f_istft Xm sp) <? ncols x)%nat with false
          by (symmetry; apply Nat.ltb_ge; exact Hlen)
    end.
    reflexivity. }
  assert (Lsrcs : length srcs = num_sources pr).
  { unfold srcs, atnpeak. rewrite !length_zip, length_seq, !length_map, LPi. lia. }
  exists (map gx srcs), (zip (map ga Pi) (map gd Pi)), (ga (0%Z, 0%Z)), (gd (0%Z, 0%Z)).
  split.
  { unfold duet. rewrite Hsp. cbn [mbind result_bind]. fold alpha delta.
    rewrite Hacc. cbn [mbind result_bind]. rewrite Hns. cbn [mbind result_bind].
    unfold duet_separate, nrows. rewrite SH, (ncols_rect H (dnum ad)) by (try exact RH; lia).
    rewrite <- Hsq. fold n. rewrite HPi. cbn [mbind result_bind].
    rewrite Halpha. cbn [mbind result_bind]. rewrite Hdelta. cbn [mbind result_bind].
    fold atnpeak. fold bestind. fold srcs. rewrite Hx. reflexivity. }
  split; [rewrite length_map; exact Lsrcs|].
  split.
  { apply Forall_fmap, Forall_forall. intros t _. unfold compose, gx.
    rewrite length_take. pose proof (Hist
      (replicate Lt Czero ::
       mzip_with (fun c (m : bool) => if m then c else Czero)
         (mzip3 (demix t.2.1 t.2.2) wmat X1 X2) (source_mask bestind t.1))). lia. }
  split; [rewrite length_zip, !length_map, LPi; lia|].
  split.
  { destruct Pi as [|p0 Pi]; [discriminate|]. injection H0 as ->. reflexivity. }
  unfold ga, gd. cbn [fst snd]. rewrite Eag, Edg. unfold linspace.
  change (Z.to_nat 0) with 0%nat. cbn [seq map nth].
  change (inject_Z (Z.of_nat 0)) with 0. split; ring.
Qed.

End DuetSilence.

(** A silent mixture of two channels, two attenuation and two delay
    bins, one source. *)
Lemma duet_zero_weight_returns_witness :
  let f_stft := fun (v : list Q) (_ : sparam) =>
                  ([[0; 0]; v], [0; 1], [0; 1]) : list (list Q) * list Q * list Q in
  let f_istft := fun (_ : list (list Q)) (_ : sparam) => [0; 0] : list Q in
  let id1 := fun x : Q => x in
  let sp := {| winlen := 2; wintype := Hamming; overlap := 0; numfreq := 2;
               sampfreq := 1 |} in
  let ad := {| amin := -1; amax := 1; anum := 2; dmin := -1; dmax := 1; dnum := 2 |} in
  let pr := {| thr := 0.2; a_mindist := 1; d_mindist := 1; num_sources := 1 |} in
  exists xhat ad_est a d,
    duet f_stft f_istft Qabs (fun _ _ _ => (0, 0)) (fun _ _ _ _ _ => 0)
         (fun _ _ _ _ _ => 0) 0 id1 6.283 [[0; 0]; [0; 0]] sp ad pr
    = Ok (xhat, ad_est) /\
    length xhat = 1%nat /\
    Forall (fun xi => length xi = 2%nat) xhat /\
    length ad_est = 1%nat /\
    ad_est !! 0%nat = Some (a, d) /\ a == -1 /\ d == -1.
Proof.
  intros f_stft f_istft id1 sp ad pr.
  apply (duet_zero_weight_returns f_stft f_istft Qabs (fun _ _ _ => (0, 0))
           (fun _ _ _ _ _ => 0) (fun _ _ _ _ _ => 0) 0 id1 6.283
           [[0; 0]; [0; 0]] sp ad pr [[0; 0]] [[0; 0]] [[6.283; 6.283]] 2 2).
  - vm_compute. reflexivity.
  - repeat constructor.
  - reflexivity.
  - simpl. lia.
  - vm_compute. reflexivity.
  - vm_compute. reflexivity.
  - simpl. lia.
  - simpl. lia.
  - intros Xm. unfold f_istft, ncols. simpl. lia.
Defined.
